(** * Electron Affinity: value restoration, API exposure and binding

    A shallow embedding of the restoration library (src/lib/restorer_lib.ts),
    of the code shared by both processes (shared_lib: exposeApi,
    getPropertyNames, retryUntilTimeout, setIpcBindingTimeout), of the
    window side of the binding protocol (bindMainApi, _attemptBindMainApi,
    _installIpcListeners, exposeWindowApi, the methods of a bound API), of
    the tag-based restorer of src/restorer.ts and of the result collector
    of the test suite (test/lib/main_util.ts), followed by the properties
    established for them. *)

From stdpp Require Import gmap strings pretty list.

Open Scope string_scope.
Open Scope list_scope.

(** ** JavaScript values

    Only what the library inspects is represented: the [typeof] of a value,
    the class it is an instance of ([instanceof Error],
    [instanceof __ThrownNonObject], the constructor it inherits) and its
    own properties with their enumerable flag.  Numbers are integers.  A
    function carries the name of its constructor, its own name and the
    number it is identified by.  An object is an instance of a class whose
    prototype defines the constructor and, for errors, what Error.prototype
    defines; accessor properties, proxies, symbols, frozen objects and
    objects without a prototype are not represented. *)

Inductive cls :=
| CObject                                   (* plain object *)
| CArray
| CError                                    (* the built-in Error *)
| CThrownNonObject                          (* Restorer.__ThrownNonObject *)
| CNamed (name : string) (isErr : bool).    (* a class of the application; isErr: it extends Error *)

(* Structure describing how to restore an object IPC argument or return
   value.  The class name is whatever obj.constructor.name evaluated to. *)
Record RestorationInfoOf (V : Type) := mkInfo {
  argIndex : option nat;   (* if not return value, index of argument in args list *)
  className : V;           (* name of the object's class *)
  isError : bool;          (* whether the object subclasses Error *)
  isCallback : bool        (* whether the argument is a function *)
}.
Arguments mkInfo {V}.
Arguments argIndex {V}.
Arguments className {V}.
Arguments isError {V}.
Arguments isCallback {V}.

#[local] Set Warnings "-register-all".
Inductive value :=
| VUndefined
| VNull
| VBool (b : bool)
| VNumber (n : Z)
| VString (s : string)
| VFunction (kind : string) (name : string) (id : nat)   (* kind: "Function", "AsyncFunction", ... *)
| VObject (c : cls) (props : gmap string (bool * value))  (* name |-> (enumerable, value) *)
| VInfos (infos : list (RestorationInfoOf value)).       (* an array of RestorationInfo *)

#[local] Set Warnings "+register-all".

Abbreviation RestorationInfo := (RestorationInfoOf value).
Abbreviation props := (gmap string (bool * value)).

(** Outcome of code that may throw. *)
Inductive exn :=
| TypeError            (* property access on null or undefined, call of a non-function *)
| Thrown (v : value).  (* a value thrown by application code *)

Inductive result (A : Type) :=
| Ok (a : A)
| Raise (e : exn).
Arguments Ok {A} a.
Arguments Raise {A} e.

#[global] Instance result_bind : MBind result := λ A B k r,
  match r with
  | Ok a => k a
  | Raise e => Raise e
  end.

(* Type for a function that restores the classes of arguments and return
   values: it is handed the class name of the restoration info, whatever
   value that is. *)
Definition RestorerFunction := value → value → result value.

(* Type of a class that can be called to restore class values. *)
Record RestorableClass := { restoreClass : value → result value }.

Module JS.

Definition typeof (v : value) : string :=
  match v with
  | VUndefined => "undefined"
  | VNull => "object"
  | VBool _ => "boolean"
  | VNumber _ => "number"
  | VString _ => "string"
  | VFunction _ _ _ => "function"
  | VObject _ _ => "object"
  | VInfos _ => "object"
  end.

Definition cls_name (c : cls) : string :=
  match c with
  | CObject => "Object"
  | CArray => "Array"
  | CError => "Error"
  | CThrownNonObject => "__ThrownNonObject"
  | CNamed n _ => n
  end.

Definition cls_isError (c : cls) : bool :=
  match c with
  | CError => true
  | CNamed _ e => e
  | _ => false
  end.

(* v instanceof Error *)
Definition instanceofError (v : value) : bool :=
  match v with
  | VObject c _ => cls_isError c
  | _ => false
  end.

(* v instanceof Restorer.__ThrownNonObject *)
Definition instanceofThrownNonObject (v : value) : bool :=
  match v with
  | VObject CThrownNonObject _ => true
  | _ => false
  end.

(* The name of the constructor a value inherits from its class. *)
Definition class_name (v : value) : string :=
  match v with
  | VObject c _ => cls_name c
  | VFunction kind _ _ => kind
  | VInfos _ => "Array"
  | VString _ => "String"
  | VNumber _ => "Number"
  | VBool _ => "Boolean"
  | _ => ""
  end.

(* v == undefined *)
Definition nullish (v : value) : bool :=
  match v with
  | VUndefined | VNull => true
  | _ => false
  end.

Definition truthy (v : value) : bool :=
  match v with
  | VUndefined | VNull => false
  | VBool b => b
  | VNumber n => negb (n =? 0)%Z
  | VString s => negb (String.eqb s "")
  | _ => true
  end.

(* The object a RestorationInfo literal denotes. *)
Definition info_object (i : RestorationInfo) : value :=
  VObject CObject
    (<["className" := (true, className i)]>
     (<["isError" := (true, VBool (isError i))]>
      (<["isCallback" := (true, VBool (isCallback i))]>
       (match argIndex i with
        | Some n => {["argIndex" := (true, VNumber (Z.of_nat n))]}
        | None => ∅
        end)))).

Fixpoint string_chars (i : nat) (s : string) : list (string * (bool * value)) :=
  match s with
  | EmptyString => []
  | String a s' => (pretty i, (true, VString (String a EmptyString))) :: string_chars (S i) s'
  end.

(* The own properties of a value, as far as the library reads them: an
   object's own table, the elements of an array, the characters of a
   string, the name of a function. *)
Definition own_props (v : value) : props :=
  match v with
  | VObject _ ps => ps
  | VInfos l => list_to_map (imap (fun i x => (pretty i, (true, info_object x))) l)
  | VString s => list_to_map (string_chars 0 s)
  | VFunction _ name _ => {["name" := (false, VString name)]}
  | _ => ∅
  end.

(* What the prototype chain supplies for the members the library reads
   by name: Error.prototype.message is the empty string and
   Error.prototype.name is "Error". *)
Definition inherited (v : value) (k : string) : value :=
  if instanceofError v then
    if String.eqb k "message" then VString ""
    else if String.eqb k "name" then VString "Error"
    else VUndefined
  else VUndefined.

(* v[k] for a value that is neither null nor undefined, k being one of
   the member names the library spells out *)
Definition Get (v : value) (k : string) : value :=
  match own_props v !! k with
  | Some (_, x) => x
  | None => inherited v k
  end.

(* v[k] *)
Definition getProp (v : value) (k : string) : result value :=
  if nullish v then Raise TypeError else Ok (Get v k).

(* v.constructor.name: an object that owns a property named constructor
   answers with it, any other value with the constructor of its class. *)
Definition constructor_name (v : value) : result value :=
  match v with
  | VUndefined | VNull => Raise TypeError
  | VObject _ ps =>
      match ps !! "constructor" with
      | Some (_, constructor) => getProp constructor "name"
      | None => Ok (VString (class_name v))
      end
  | _ => Ok (VString (class_name v))
  end.

(* o[k] = x on a property table: an existing property keeps its flag *)
Definition set_prop (k : string) (x : value) (ps : props) : props :=
  match ps !! k with
  | Some (e, _) => <[k := (e, x)]> ps
  | None => <[k := (true, x)]> ps
  end.

(* v[k] = x, for an object *)
Definition setProp (v : value) (k : string) (x : value) : value :=
  match v with
  | VObject c ps => VObject c (set_prop k x ps)
  | _ => v
  end.

(* delete v[k] *)
Definition deleteProp (v : value) (k : string) : result value :=
  match v with
  | VUndefined | VNull => Raise TypeError
  | VObject c ps => Ok (VObject c (delete k ps))
  | _ => Ok v
  end.

(* The properties of a source that Object.assign sets as own properties
   of the target: assigning __proto__ to a target that owns no such
   property reaches the setter every object inherits, which adds none.
   The prototype that setter may replace is not represented: the
   statements about values copied this way are about sources that own no
   property of that name. *)
Definition assigned_props (target : props) (source : value) : props :=
  match target !! "__proto__" with
  | Some _ => own_props source
  | None => delete "__proto__" (own_props source)
  end.

(* One source of Object.assign: every own enumerable property of the
   source is set on the target; null and undefined sources are skipped. *)
Definition assign_from (target : props) (source : value) : props :=
  merge (fun t s =>
           match s with
           | Some (true, x) =>
               Some (match t with Some (e, _) => (e, x) | None => (true, x) end)
           | _ => t
           end) target (assigned_props target source).

(* Object.assign(target, ...sources) *)
Definition Object_assign (target : value) (sources : list value) : value :=
  match target with
  | VObject c ps => VObject c (foldl assign_from ps sources)
  | _ => target
  end.

(** *** Objects used as maps

    The library keeps several maps as plain objects and reads them with
    [map[name]]: such a read finds the entries the object owns and, under
    any other name, what the object inherits. *)

(* The names of the members every object inherits from Object.prototype. *)
Definition Object_prototype_names : list string :=
  ["constructor"; "__defineGetter__"; "__defineSetter__"; "hasOwnProperty";
   "__lookupGetter__"; "__lookupSetter__"; "isPrototypeOf"; "propertyIsEnumerable";
   "toString"; "valueOf"; "__proto__"; "toLocaleString"].

Definition inherits (name : string) : bool :=
  bool_decide (name ∈ Object_prototype_names).

(* What map[name] finds. *)
Inductive member (V : Type) :=
| Own (v : V)                           (* an entry of the map *)
| Inherited (name : string)             (* the member of Object.prototype of that name *)
| Through (proto : V) (name : string)   (* what the name finds through a prototype the
                                           map was given by an assignment to __proto__ *)
| Absent.                               (* undefined *)
Arguments Own {V} v.
Arguments Inherited {V} name.
Arguments Through {V} proto name.
Arguments Absent {V}.

(* map[name] for an object created as {} that was only ever assigned
   entries under names other than __proto__ *)
Definition map_get {V} (m : gmap string V) (name : string) : member V :=
  match m !! name with
  | Some v => Own v
  | None => if inherits name then Inherited name else Absent
  end.

(* An object created as {} and assigned to under any name: the entries it
   owns and, once an assignment to __proto__ has replaced its prototype,
   the value that is its prototype since. *)
Record dict (V : Type) := Dict {
  entries : gmap string V;
  replaced : option V
}.
Arguments Dict {V}.
Arguments entries {V}.
Arguments replaced {V}.

(* {} *)
Definition dict_empty {V} : dict V := Dict ∅ None.

(* d[name] *)
Definition dict_get {V} (d : dict V) (name : string) : member V :=
  match entries d !! name with
  | Some v => Own v
  | None =>
      match replaced d with
      | Some proto => Through proto name
      | None => if inherits name then Inherited name else Absent
      end
  end.

(* d[name] = v.  The setter of __proto__ takes an object as the new
   prototype and ignores any other value. *)
Definition dict_set {V} (is_object : V → bool) (name : string) (v : V) (d : dict V)
    : dict V :=
  if String.eqb name "__proto__" then
    if is_object v then Dict (entries d) (Some v) else d
  else Dict (<[name := v]> (entries d)) (replaced d).

Section WithHost.
(* What the host supplies and the library never fixes: the string an
   object or function converts to. *)
Context (objectToString : value → string).

(* `${v}`, and v as a property name *)
Definition ToString (v : value) : string :=
  match v with
  | VUndefined => "undefined"
  | VNull => "null"
  | VBool true => "true"
  | VBool false => "false"
  | VNumber n => pretty n
  | VString s => s
  | _ => objectToString v
  end.

End WithHost.
End JS.

(** ** restorer_lib: restoring the classes of arguments and return values *)

Section GenericRestorer.
Import JS.
Context (objectToString : value → string).

(* A generic implementation of a restorer function, which becomes a
   RestorerFunction when bound to a map of restorable classes.  A member
   the map inherits is not undefined and has no restoreClass to call. *)
Definition genericRestorer (restorableClassMap : gmap string RestorableClass)
    (className : value) (obj : value) : result value :=
  match map_get restorableClassMap (ToString objectToString className) with
  | Own restorableClass => restoreClass restorableClass obj
  | Inherited _ | Through _ _ => Raise TypeError
  | Absent => Ok obj
  end.

End GenericRestorer.

Module Restorer.
Import JS.

Definition __ThrownNonObject_name : string := "__ThrownNonObject".
Definition _affinity_rethrow : string := "_affinity_rethrow".

(* new __ThrownNonObject(thrownValue): the field initialiser runs before
   the constructor body. *)
Definition __ThrownNonObject (thrownValue : value) : value :=
  VObject CThrownNonObject
    (<["thrownValue" := (true, thrownValue)]> {[_affinity_rethrow := (true, VBool true)]}).

(* Returns information needed to restore an object to its original class. *)
Definition makeRestorationInfo (obj : value) : result (option RestorationInfo) :=
  match obj with
  | VNull => Ok None
  | _ =>
      if negb (String.eqb (typeof obj) "object") && negb (String.eqb (typeof obj) "function")
      then Ok None
      else
        name ← constructor_name obj;
        Ok (Some {| argIndex := None;
                    className := name;
                    isError := instanceofError obj;
                    isCallback := String.eqb (typeof obj) "function" |})
  end.

(* Makes an error returnable to the caller for restoration and
   re-throwing, returning the value that the API must return. *)
Definition makeRethrownReturnValue (thrown : value)
    : result (value * option RestorationInfo) :=
  if negb (String.eqb (typeof thrown) "object") then
    let thrown := __ThrownNonObject thrown in
    info ← makeRestorationInfo thrown;
    Ok (thrown, info)
  else
    info ← makeRestorationInfo thrown;
    let returnedError :=
      Object_assign
        (VObject CObject {[_affinity_rethrow := (true, VBool true)]})
        [ (if instanceofError thrown
           then VObject CObject {["message" := (true, Get thrown "message")]}
           else VObject CObject ∅);
          thrown ] in
    let returnedError :=
      match returnedError with
      | VObject c ps => VObject c (delete "stack" ps)
      | v => v
      end in
    Ok (returnedError, info).

(* Determines whether a returned value is actually a thrown value. *)
Definition wasThrownValue (v : value) : value :=
  if negb (nullish v) then Get v _affinity_rethrow else VBool false.

(* n == info.argIndex *)
Definition argIndex_is (info : RestorationInfo) (n : nat) : bool :=
  bool_decide (argIndex info = Some n).

(* The callback channel name allocated for counter value n. *)
Definition callbackName (n : nat) : string :=
  "_affinity_event_callback_" +:+ pretty n.

(* info.argIndex = i *)
Definition set_argIndex (i : nat) (info : RestorationInfo) : RestorationInfo :=
  {| argIndex := Some i; className := className info;
     isError := isError info; isCallback := isCallback info |}.

(** What the loop of makeArgsRestorable has done when it ends or when
    makeRestorationInfo throws: the counter as it stands, and, when the
    loop ends, the rewritten arguments, the callbacks and the infos. *)
Fixpoint makeArgsRestorable_from (i : nat) (args : list value)
    (callbackIx : nat) (callbacks : gmap string value) (infos : list RestorationInfo)
    : nat * result (list value * gmap string value * list RestorationInfo) :=
  match args with
  | [] => (callbackIx, Ok ([], callbacks, infos))
  | arg :: rest =>
      match makeRestorationInfo arg with
      | Raise e => (callbackIx, Raise e)
      | Ok (Some info) =>
          let info := set_argIndex i info in
          if isCallback info then
            let callbackIx := S callbackIx in
            let name := callbackName callbackIx in
            let '(ix', rest) :=
              makeArgsRestorable_from (S i) rest callbackIx
                (<[name := arg]> callbacks) (infos ++ [info]) in
            (ix', '(rest', callbacks', infos') ← rest;
                  Ok (VString name :: rest', callbacks', infos'))
          else
            let '(ix', rest) :=
              makeArgsRestorable_from (S i) rest callbackIx callbacks (infos ++ [info]) in
            (ix', '(rest', callbacks', infos') ← rest;
                  Ok (arg :: rest', callbacks', infos'))
      | Ok None =>
          let '(ix', rest) :=
            makeArgsRestorable_from (S i) rest callbackIx callbacks infos in
          (ix', '(rest', callbacks', infos') ← rest;
                Ok (arg :: rest', callbacks', infos'))
      end
  end.

(* Makes all the arguments of an argument list restorable.  The module
   variable callbackIx is threaded; the result is the new counter and,
   unless the call throws, the argument list as mutated in place with the
   returned callbacks. *)
Definition makeArgsRestorable (callbackIx : nat) (args : list value)
    : nat * result (list value * gmap string value) :=
  let '(ix', done) := makeArgsRestorable_from 0 args callbackIx ∅ [] in
  (ix', '(args', callbacks, infos) ← done;
        (* Passed argument list always ends with restoration information. *)
        Ok (args' ++ [VInfos infos], callbacks)).

Section WithHost.
(* What the host supplies and the library never fixes: the string an
   object or function converts to, and the trace a newly constructed
   Error captures on the restoring side. *)
Context (objectToString : value → string) (capturedStack : string).

(* className == "__ThrownNonObject": a string is compared as it is, an
   object or function by the string it converts to, no other value is
   equal to the name. *)
Definition names_wrapper (className : value) : bool :=
  match className with
  | VString s => String.eqb s __ThrownNonObject_name
  | VFunction _ _ _ | VObject _ _ | VInfos _ =>
      String.eqb (objectToString className) __ThrownNonObject_name
  | _ => false
  end.

(* Restores the class of an argument or return value when possible. *)
Definition restoreValue (obj : value) (info : option RestorationInfo)
    (restorer : option RestorerFunction) : result value :=
  match info with
  | Some info =>
      if names_wrapper (className info) then
        thrownValue ← getProp obj "thrownValue";
        Ok (__ThrownNonObject thrownValue)
      else
        match restorer with
        | Some restorer => restorer (className info) obj
        | None => Ok obj
        end
  | None => Ok obj
  end.

(* new Error(message) *)
Definition newError (message : value) : value :=
  VObject CError
    (match message with
     | VUndefined => {["stack" := (false, VString capturedStack)]}
     | _ => <["message" := (false, VString (ToString objectToString message))]>
              {["stack" := (false, VString capturedStack)]}
     end).

(* `${name}: ${message}\n\tin main process` *)
Definition syntheticStack (name : string) (message : string) : string :=
  name +:+ ": " +:+ message
    +:+ String (Ascii.ascii_of_nat 10) (String (Ascii.ascii_of_nat 9) "in main process").

(* Restores a value that was thrown for re-throwing after being returned. *)
Definition restoreThrownValue (wire : value) (info : option RestorationInfo)
    (restorer : option RestorerFunction) : result value :=
  value ← deleteProp wire _affinity_rethrow;
  value ← restoreValue value info restorer;
  (* If a non-object value was thrown *)
  if instanceofThrownNonObject value then getProp value "thrownValue"
  else
    (* If restorer didn't restore the original Error class *)
    value ← (if negb (instanceofError value) then
               match info with
               | None => Raise TypeError
               | Some info =>
                   if isError info then
                     message ← getProp value "message";
                     value ← deleteProp value "message";
                     Ok (Object_assign (newError message) [value])
                   else Ok value
               end
             else Ok value);
    (* Replace any newly generated stack. *)
    if instanceofError value then
      name ← constructor_name value;
      Ok (setProp value "stack"
            (VString (syntheticStack (ToString objectToString name)
                        (ToString objectToString (Get value "message")))))
    else Ok value.

(* callbacks[key] = argIndex: a number assigned to __proto__ is ignored *)
Definition set_callback (key : string) (argIndex : nat) (callbacks : gmap string nat)
    : gmap string nat :=
  if String.eqb key "__proto__" then callbacks else <[key := argIndex]> callbacks.

(* Restores argument list using provided restorer function: the loop
   over args[argIndex..], with infoIndex and callbacks threaded. *)
Fixpoint restoreArgs_from (argIndex : nat) (args : list value)
    (infos : list RestorationInfo) (infoIndex : nat)
    (restorer : option RestorerFunction) (callbacks : gmap string nat)
    : result (list value * gmap string nat) :=
  match args with
  | [] => Ok ([], callbacks)
  | arg :: rest =>
      let info :=
        match infos !! infoIndex with
        | Some i => if argIndex_is i argIndex then Some i else None
        | None => None
        end in
      let infoIndex := match info with Some _ => S infoIndex | None => infoIndex end in
      arg' ← restoreValue arg info restorer;
      let callbacks :=
        match info with
        | Some i => if isCallback i
                    then set_callback (ToString objectToString arg') argIndex callbacks
                    else callbacks
        | None => callbacks
        end in
      '(rest', callbacks') ← restoreArgs_from (S argIndex) rest infos infoIndex
                               restorer callbacks;
      Ok (arg' :: rest', callbacks')
  end.

(* args.pop() *)
Definition pop (args : list value) : list value * option value :=
  (removelast args, last args).

(* Restores argument list using provided restorer function.  Returns the
   argument list as mutated in place and the callbacks found.  The last
   element is the array of infos makeArgsRestorable appended; null and
   undefined in its place make the first test of the loop fail with a
   TypeError, any other value is read as holding no info. *)
Definition restoreArgs (args : list value) (restorer : option RestorerFunction)
    : result (list value * gmap string nat) :=
  let '(args, infos) := pop args in
  match infos with
  | Some (VInfos infos) => restoreArgs_from 0 args infos 0 restorer ∅
  | Some v =>
      if nullish v then
        match args with
        | [] => Ok ([], ∅)
        | _ => Raise TypeError
        end
      else restoreArgs_from 0 args [] 0 restorer ∅
  | None => Ok ([], ∅)
  end.

End WithHost.
End Restorer.

(** ** shared_lib: code used by both main and renderer processes *)

Module SharedLib.
Import JS.

(* Name of IPC requesting an API for binding. *)
Definition API_REQUEST_IPC : string := "_affinity_api_request".
(* Name of IPC providing information needed to bind to an API. *)
Definition API_RESPONSE_IPC : string := "_affinity_api_response".
(* Period between attempts to bind an API. *)
Definition _RETRY_MILLIS : Z := 50.
(* Configurable timeout attempting to bind an API: its initial value. *)
Definition _bindingTimeoutMillis_default : Z := 4000.

(* An API instance as exposeApi sees it: the objects of its prototype
   chain, the instance first, Object.prototype left out.  Each object is
   the list of its own properties in the order Object.getOwnPropertyNames
   reports them. *)
Record ApiInstance := {
  api_chain : list (list (string * value))
}.

Definition getOwnPropertyNames (obj : list (string * value)) : list string := obj.*1.

(* Returns all properties of the class not defined by JavaScript: the walk
   stops at the first object owning "hasOwnProperty", which
   Object.prototype, past the end of the chain, does. *)
Fixpoint getPropertyNames (chain : list (list (string * value))) : list string :=
  match chain with
  | [] => []
  | obj :: proto =>
      if bool_decide ("hasOwnProperty" ∈ getOwnPropertyNames obj) then []
      else getOwnPropertyNames obj ++ getPropertyNames proto
  end.

(* api[name], for a name some object of the chain owns: the first object
   owning the property decides *)
Fixpoint chain_get (chain : list (list (string * value))) (name : string) : value :=
  match chain with
  | [] => VUndefined
  | obj :: proto =>
      match list_find (fun p => p.1 = name) obj with
      | Some (_, p) => p.2
      | None => chain_get proto name
      end
  end.

(* The property of that name of the first object of the chain owning one. *)
Fixpoint chain_find (chain : list (list (string * value))) (name : string)
    : option value :=
  match chain with
  | [] => None
  | obj :: proto =>
      match list_find (fun p => p.1 = name) obj with
      | Some (_, p) => Some p.2
      | None => chain_find proto name
      end
  end.

(* api.constructor.name: past the chain, Object.prototype answers with
   Object. *)
Definition api_constructor_name (api : ApiInstance) : result value :=
  match chain_find (api_chain api) "constructor" with
  | Some constructor => getProp constructor "name"
  | None => Ok (VString "Object")
  end.

(* Constructs an API-specific IPC name for a method. *)
Definition toIpcName (apiClassName methodName : string) : string :=
  apiClassName +:+ ":" +:+ methodName.

(* ["_", "#"].includes(methodName[0]) *)
Definition has_privacy_prefix (methodName : string) : bool :=
  match methodName with
  | EmptyString => false
  | String a _ => String.eqb (String a "") "_" || String.eqb (String a "") "#"
  end.

Section ExposeApi.
(* installHandler acts on the state [H] of whoever supplies it. *)
Context (objectToString : value → string).
Context {H : Type} (installHandler : string → value → H → H).

(* One iteration of the loop of exposeApi; apiClassName is the class name
   as the template of toIpcName renders it. *)
Definition exposeApi_step (apiClassName : string) (api : ApiInstance)
    (acc : list string * H) (methodName : string) : list string * H :=
  if negb (String.eqb methodName "constructor") && negb (has_privacy_prefix methodName)
  then
    let method := chain_get (api_chain api) methodName in
    if String.eqb (typeof method) "function" then
      (acc.1 ++ [methodName],
       installHandler (toIpcName apiClassName methodName) method acc.2)
    else acc
  else acc.

(* Makes an API available for remote binding, installing method handlers.
   The class name is used as a property name and in a template: both
   take it as a string. *)
Definition exposeApi (apiMap : gmap string (list string)) (api : ApiInstance) (h : H)
    : result (gmap string (list string) * H) :=
  name ← api_constructor_name api;
  let apiClassName := ToString objectToString name in
  match map_get apiMap apiClassName with
  | Own _ | Inherited _ | Through _ _ => Ok (apiMap, h)  (* was previously exposed *)
  | Absent =>
      let '(methodNames, h') :=
        foldl (exposeApi_step apiClassName api) ([], h)
          (getPropertyNames (api_chain api)) in
      Ok (<[apiClassName := methodNames]> apiMap, h')
  end.
End ExposeApi.

(** What one run of the body of retryUntilTimeout does. *)
Inductive retry_outcome :=
| Attained                           (* attemptFunc() returned true *)
| TimedOut (message : string)        (* throw Error(timeoutMessage) *)
| Rescheduled (elapsedMillis : Z)    (* setTimeout(() => retryUntilTimeout(...), _RETRY_MILLIS) *)
| Threw (e : exn).                   (* attemptFunc() threw *)

(* A process of the application, as far as this module goes: the variable
   _bindingTimeoutMillis lives in its state. *)
Class Process (P : Type) := {
  _bindingTimeoutMillis : P → Z;
  set_bindingTimeoutMillis : Z → P → P;
  bindingTimeoutMillis_set :
    ∀ millis p, _bindingTimeoutMillis (set_bindingTimeoutMillis millis p) = millis
}.

Section Retry.
Context `{Process P}.

(* Sets the binding timeout.  Also applies to any bindings in progress. *)
Definition setIpcBindingTimeout (millis : Z) (p : P) : P :=
  set_bindingTimeoutMillis millis p.

(* Utility for retrying a function until success or timeout. *)
Definition retryUntilTimeout (elapsedMillis : Z) (attemptFunc : P → result bool * P)
    (timeoutMessage : string) (p : P) : retry_outcome * P :=
  let '(ok, p) := attemptFunc p in
  match ok with
  | Raise e => (Threw e, p)
  | Ok ok =>
      if negb ok then
        if bool_decide (_bindingTimeoutMillis p ≤ elapsedMillis)%Z then
          (TimedOut timeoutMessage, p)
        else (Rescheduled (elapsedMillis + _RETRY_MILLIS), p)
      else (Attained, p)
  end.

(* The chain of calls one retryUntilTimeout starts: [others k] is what
   the rest of the process does to its state while the k-th timer is
   pending.  [fuel] bounds the number of checks performed; when it runs
   out the chain is left with its next call pending. *)
Fixpoint retry_chain (fuel : nat) (others : nat → P → P) (k : nat)
    (elapsedMillis : Z) (attemptFunc : P → result bool * P) (timeoutMessage : string)
    (p : P) : retry_outcome * P :=
  match fuel with
  | O => (Rescheduled elapsedMillis, p)
  | S fuel =>
      match retryUntilTimeout elapsedMillis attemptFunc timeoutMessage p with
      | (Rescheduled elapsed', p') =>
          retry_chain fuel others (S k) elapsed' attemptFunc timeoutMessage (others k p')
      | done => done
      end
  end.
End Retry.

End SharedLib.

(** ** window_lib: handling IPC in the renderer process

    The renderer is single-threaded: its state changes only inside the
    handlers below, run one at a time.  Objects that are compared by
    identity (bound proxies, promises) carry the number they were allocated
    under. *)

Module WindowLib.
Import JS SharedLib.

(* Structure received in answer to an API request. *)
Record ApiRegistration := {
  reg_className : string;
  reg_methodNames : option (list string)   (* undefined when not exposed *)
}.

(* What window._affinity_ipc.send carries on the two fixed channels.  The
   registration sent in answer to a request holds under methodNames
   whatever _windowApiMap[apiClassName] found. *)
Inductive payload :=
| ApiName (apiClassName : string)
| Registration (className : string) (methodNames : member (list string)).

(* A bound main API: the object built by assigning, in this order, one
   forwarding function under each method name, each function closing over
   the API name and the restorer. *)
Record MainApiBinding := {
  binding_id : nat;
  binding_apiClassName : string;
  binding_methodNames : list string;
  binding_restorer : option RestorerFunction
}.

(* What _mainApiMap[apiClassName] is to _attemptBindMainApi. *)
Inductive registered :=
| NoNames                             (* a falsy value *)
| Names (methodNames : list string)   (* the strings a for-of loop over it yields *)
| NotIterable.                        (* a truthy value that cannot be iterated *)

(* What the engine supplies and the library never fixes: the string an
   object or function converts to, and what a name finds through a
   prototype one of the two maps was given, as the code goes on to use it:
   for _mainApiMap as above, for _boundMainApis whether it is truthy. *)
Class Host := {
  object_string : value → string;
  registry_through : option (list string) → string → registered;
  cache_through : MainApiBinding → string → bool
}.

(* What resolve is called with for a promise returned by bindMainApi. *)
Inductive bound :=
| Proxy (boundApi : MainApiBinding)               (* a bound main API *)
| Member (name : string)                          (* the member of Object.prototype *)
| Found (proto : MainApiBinding) (name : string). (* what the name finds through proto *)

(* What a promise is rejected with, or a timer callback throws. *)
Inductive failure :=
| TimeoutError (message : string)   (* Error(timeoutMessage) *)
| Exception (e : exn).              (* what the attempt threw *)

(* What has decided a promise: the first call of its resolve function, or
   the exception that escaped its executor before any such call.  A
   promise resolved with a value that has a then method follows what that
   method does; a bound API has one only if the API has a method so
   named. *)
Inductive settlement :=
| Resolved (v : bound)      (* resolve(v) *)
| Rejected (e : failure).   (* the executor threw e *)

(* A pending setTimeout callback of bindMainApi: the arguments of the
   retryUntilTimeout call it will make. *)
Record timer := {
  timer_elapsedMillis : Z;
  timer_apiClassName : string;
  timer_restorer : option RestorerFunction;
  timer_resolve : nat;               (* the promise to resolve *)
  timer_timeoutMessage : string
}.

Record renderer := {
  (* the variable _bindingTimeoutMillis of shared_lib, as loaded in this process *)
  bindingTimeoutMillis : Z;
  (* Structure mapping API names to the methods they contain. *)
  _mainApiMap : dict (option (list string));
  (* Structure tracking bound main APIs. *)
  _boundMainApis : dict MainApiBinding;
  (* Structure mapping window API names to the methods each contains. *)
  _windowApiMap : gmap string (list string);
  _listeningForIPC : bool;
  (* messages passed to window._affinity_ipc.send, oldest first *)
  sent : list (string * payload);
  (* channels given a listener by exposeWindowApi, with the method served *)
  listeners : list (string * value);
  (* pending timers, oldest first *)
  timers : list timer;
  (* promises returned by bindMainApi that are decided, and by what *)
  promises : gmap nat settlement;
  (* errors thrown out of a timer callback *)
  uncaught : list failure;
  (* allocation counter *)
  nextObject : nat
}.

(* The renderer when its script starts. *)
Definition initial : renderer := {|
  bindingTimeoutMillis := _bindingTimeoutMillis_default;
  _mainApiMap := dict_empty; _boundMainApis := dict_empty; _windowApiMap := ∅;
  _listeningForIPC := false;
  sent := []; listeners := []; timers := []; promises := ∅; uncaught := [];
  nextObject := 0
|}.

(** Field updates. *)
Definition with_bindingTimeoutMillis (x : Z) (r : renderer) : renderer :=
  Build_renderer x (_mainApiMap r) (_boundMainApis r) (_windowApiMap r)
    (_listeningForIPC r) (sent r) (listeners r) (timers r) (promises r) (uncaught r)
    (nextObject r).
Definition with_mainApiMap (x : dict (option (list string))) (r : renderer) :=
  Build_renderer (bindingTimeoutMillis r) x (_boundMainApis r) (_windowApiMap r)
    (_listeningForIPC r) (sent r) (listeners r) (timers r) (promises r) (uncaught r)
    (nextObject r).
Definition with_boundMainApis (x : dict MainApiBinding) (r : renderer) :=
  Build_renderer (bindingTimeoutMillis r) (_mainApiMap r) x (_windowApiMap r)
    (_listeningForIPC r) (sent r) (listeners r) (timers r) (promises r) (uncaught r)
    (nextObject r).
Definition with_windowApiMap (x : gmap string (list string)) (r : renderer) :=
  Build_renderer (bindingTimeoutMillis r) (_mainApiMap r) (_boundMainApis r) x
    (_listeningForIPC r) (sent r) (listeners r) (timers r) (promises r) (uncaught r)
    (nextObject r).
Definition with_listeningForIPC (x : bool) (r : renderer) :=
  Build_renderer (bindingTimeoutMillis r) (_mainApiMap r) (_boundMainApis r)
    (_windowApiMap r) x (sent r) (listeners r) (timers r) (promises r) (uncaught r)
    (nextObject r).
Definition with_sent (x : list (string * payload)) (r : renderer) :=
  Build_renderer (bindingTimeoutMillis r) (_mainApiMap r) (_boundMainApis r)
    (_windowApiMap r) (_listeningForIPC r) x (listeners r) (timers r) (promises r)
    (uncaught r) (nextObject r).
Definition with_listeners (x : list (string * value)) (r : renderer) :=
  Build_renderer (bindingTimeoutMillis r) (_mainApiMap r) (_boundMainApis r)
    (_windowApiMap r) (_listeningForIPC r) (sent r) x (timers r) (promises r)
    (uncaught r) (nextObject r).
Definition with_timers (x : list timer) (r : renderer) :=
  Build_renderer (bindingTimeoutMillis r) (_mainApiMap r) (_boundMainApis r)
    (_windowApiMap r) (_listeningForIPC r) (sent r) (listeners r) x (promises r)
    (uncaught r) (nextObject r).
Definition with_promises (x : gmap nat settlement) (r : renderer) :=
  Build_renderer (bindingTimeoutMillis r) (_mainApiMap r) (_boundMainApis r)
    (_windowApiMap r) (_listeningForIPC r) (sent r) (listeners r) (timers r) x
    (uncaught r) (nextObject r).
Definition with_uncaught (x : list failure) (r : renderer) :=
  Build_renderer (bindingTimeoutMillis r) (_mainApiMap r) (_boundMainApis r)
    (_windowApiMap r) (_listeningForIPC r) (sent r) (listeners r) (timers r)
    (promises r) x (nextObject r).
Definition with_nextObject (x : nat) (r : renderer) :=
  Build_renderer (bindingTimeoutMillis r) (_mainApiMap r) (_boundMainApis r)
    (_windowApiMap r) (_listeningForIPC r) (sent r) (listeners r) (timers r)
    (promises r) (uncaught r) x.

#[global] Instance renderer_process : Process renderer := {|
  _bindingTimeoutMillis := bindingTimeoutMillis;
  set_bindingTimeoutMillis := with_bindingTimeoutMillis;
  bindingTimeoutMillis_set := λ _ _, eq_refl
|}.

(* window._affinity_ipc.send(channel, data) *)
Definition send (channel : string) (data : payload) (r : renderer) : renderer :=
  with_sent (sent r ++ [(channel, data)]) r.

(* resolve(v) of the promise p: resolves it unless it is decided already *)
Definition resolve (p : nat) (v : bound) (r : renderer) : renderer :=
  match promises r !! p with
  | Some _ => r
  | None => with_promises (<[p := Resolved v]> (promises r)) r
  end.

(* an exception escaping the executor of the promise p rejects it *)
Definition reject (p : nat) (e : failure) (r : renderer) : renderer :=
  match promises r !! p with
  | Some _ => r
  | None => with_promises (<[p := Rejected e]> (promises r)) r
  end.

(* setTimeout(callback, _RETRY_MILLIS) *)
Definition setTimeout (t : timer) (r : renderer) : renderer :=
  with_timers (timers r ++ [t]) r.

(* Installs the listeners of the two fixed channels, once. *)
Definition _installIpcListeners (r : renderer) : renderer :=
  if negb (_listeningForIPC r) then with_listeningForIPC true r else r.

(* The listener of API_REQUEST_IPC. *)
Definition on_API_REQUEST_IPC (apiClassName : string) (r : renderer) : renderer :=
  send API_RESPONSE_IPC
    (Registration apiClassName (map_get (_windowApiMap r) apiClassName)) r.

(* Whether the __proto__ setter takes the method names of a registration
   as a prototype: an array is an object, undefined is not. *)
Definition is_array (methodNames : option (list string)) : bool :=
  match methodNames with
  | Some _ => true
  | None => false
  end.

(* The listener of API_RESPONSE_IPC. *)
Definition on_API_RESPONSE_IPC (api : ApiRegistration) (r : renderer) : renderer :=
  with_mainApiMap
    (dict_set is_array (reg_className api) (reg_methodNames api) (_mainApiMap r)) r.

Definition timeoutMessage (apiClassName : string) : string :=
  "Timed out waiting to bind main API '" +:+ apiClassName +:+ "'".

Section WithHost.
Context `{Host}.

(* _mainApiMap[apiClassName], as _attemptBindMainApi goes on to use it *)
Definition registry_lookup (r : renderer) (apiClassName : string) : registered :=
  match dict_get (_mainApiMap r) apiClassName with
  | Own (Some methodNames) => Names methodNames
  | Own None => NoNames
  | Inherited _ => NotIterable
  | Through proto name => registry_through proto name
  | Absent => NoNames
  end.

(* _boundMainApis[apiClassName], when it is truthy *)
Definition cache_lookup (r : renderer) (apiClassName : string) : option bound :=
  match dict_get (_boundMainApis r) apiClassName with
  | Own boundApi => Some (Proxy boundApi)
  | Inherited name => Some (Member name)
  | Through proto name => if cache_through proto name then Some (Found proto name) else None
  | Absent => None
  end.

(* Implements a single attempt to bind to a main API. *)
Definition _attemptBindMainApi (apiClassName : string)
    (restorer : option RestorerFunction) (resolve_ : nat) (r : renderer)
    : result bool * renderer :=
  (* Wait for the window API binding to arrive. *)
  match registry_lookup r apiClassName with
  | NoNames => (Ok false, r)
  | NotIterable => (Raise TypeError, r)
  | Names methodNames =>
      (* Construct the main API binding. *)
      let boundApi := {| binding_id := nextObject r;
                         binding_apiClassName := apiClassName;
                         binding_methodNames := methodNames;
                         binding_restorer := restorer |} in
      let r := with_nextObject (S (nextObject r)) r in
      (* Save the binding to return on duplicate binding requests. *)
      let r := with_boundMainApis
                 (dict_set (λ _, true) apiClassName boundApi (_boundMainApis r)) r in
      (* Return the binding to the window. *)
      (Ok true, resolve resolve_ (Proxy boundApi) r)
  end.

(* Returns a window-side binding for a main API of a given class: the
   promise returned, by its number, and the renderer after the call. *)
Definition bindMainApi (apiClassName : string) (restorer : option RestorerFunction)
    (r : renderer) : nat * renderer :=
  let r := _installIpcListeners r in
  let p := nextObject r in
  let r := with_nextObject (S p) r in
  match cache_lookup r apiClassName with
  | Some cached => (p, resolve p cached r)
  | None =>
      (* Make only one request, as main must prevously expose the API. *)
      let r := send API_REQUEST_IPC (ApiName apiClassName) r in
      (* Client retries so it can bind at earliest possible time. *)
      match retryUntilTimeout 0
              (_attemptBindMainApi apiClassName restorer p)
              (timeoutMessage apiClassName) r with
      | (Attained, r) => (p, r)
      | (TimedOut message, r) => (p, reject p (TimeoutError message) r)
      | (Threw e, r) => (p, reject p (Exception e) r)
      | (Rescheduled elapsedMillis, r) =>
          (p, setTimeout {| timer_elapsedMillis := elapsedMillis;
                            timer_apiClassName := apiClassName;
                            timer_restorer := restorer;
                            timer_resolve := p;
                            timer_timeoutMessage := timeoutMessage apiClassName |} r)
      end
  end.

(* The callback of a timer set by retryUntilTimeout. *)
Definition run_timer (t : timer) (r : renderer) : renderer :=
  match retryUntilTimeout (timer_elapsedMillis t)
          (_attemptBindMainApi (timer_apiClassName t) (timer_restorer t) (timer_resolve t))
          (timer_timeoutMessage t) r with
  | (Attained, r) => r
  | (TimedOut message, r) => with_uncaught (uncaught r ++ [TimeoutError message]) r
  | (Threw e, r) => with_uncaught (uncaught r ++ [Exception e]) r
  | (Rescheduled elapsedMillis, r) =>
      setTimeout {| timer_elapsedMillis := elapsedMillis;
                    timer_apiClassName := timer_apiClassName t;
                    timer_restorer := timer_restorer t;
                    timer_resolve := timer_resolve t;
                    timer_timeoutMessage := timer_timeoutMessage t |} r
  end.

(* Exposes a window API to the main process for possible binding: what
   the call throws, if it throws, and the renderer after it. *)
Definition exposeWindowApi (windowApi : ApiInstance) (r : renderer)
    : option exn * renderer :=
  let r := _installIpcListeners r in
  match exposeApi object_string (fun ipcName method ls => ls ++ [(ipcName, method)])
          (_windowApiMap r) windowApi (listeners r) with
  | Ok (apiMap, ls) => (None, with_listeners ls (with_windowApiMap apiMap r))
  | Raise e => (Some e, r)
  end.

(** What can happen in the renderer, one handler at a time. *)
Inductive event :=
| CallBindMainApi (apiClassName : string) (restorer : option RestorerFunction)
| CallExposeWindowApi (windowApi : ApiInstance)
| CallSetIpcBindingTimeout (millis : Z)
| TimerFires                                   (* the oldest pending timer *)
| ReceiveApiRequest (apiClassName : string)    (* a message on API_REQUEST_IPC *)
| ReceiveApiResponse (api : ApiRegistration).  (* a message on API_RESPONSE_IPC *)

Definition step (r : renderer) (e : event) : renderer :=
  match e with
  | CallBindMainApi apiClassName restorer => (bindMainApi apiClassName restorer r).2
  | CallExposeWindowApi windowApi => (exposeWindowApi windowApi r).2
  | CallSetIpcBindingTimeout millis => setIpcBindingTimeout millis r
  | TimerFires =>
      match timers r with
      | [] => r
      | t :: pending => run_timer t (with_timers pending r)
      end
  | ReceiveApiRequest apiClassName =>
      if _listeningForIPC r then on_API_REQUEST_IPC apiClassName r else r
  | ReceiveApiResponse api =>
      if _listeningForIPC r then on_API_RESPONSE_IPC api r else r
  end.

Definition run (r : renderer) (events : list event) : renderer := foldl step r events.

End WithHost.

(* The discovery requests sent so far. *)
Definition requests_sent (r : renderer) : list (string * payload) :=
  filter (fun m => m.1 = API_REQUEST_IPC) (sent r).

End WindowLib.

(** ** The result monad, further

    Returning a value, and mapping over a result. *)

#[global] Instance result_ret : MRet result := λ A, Ok.

#[global] Instance result_fmap : FMap result := λ A B f r,
  match r with
  | Ok a => Ok (f a)
  | Raise e => Raise e
  end.

(** ** window_lib: a call through a bound main API *)

Module BoundMethod.
Import JS Restorer SharedLib.

Section WithHost.
Context (objectToString : value → string) (capturedStack : string).
(* window._affinity_ipc.invoke(channel, data), awaited: the response of the
   main process, a pair [returnValue, info], or the failure of the call. *)
Context (invoke : string → list value → result (value * option RestorationInfo)).

(* The function _attemptBindMainApi stores under methodName in the bound
   API.  Returns the counter, the callbacks handed to onCallback and what
   the promise of the call settles to: Ok for the value it resolves to,
   Raise for the value it rejects with. *)
Definition boundApi_method (apiClassName methodName : string)
    (restorer : option RestorerFunction) (callbackIx : nat) (args : list value)
    : nat * gmap string value * result value :=
  let '(callbackIx, made) := makeArgsRestorable callbackIx args in
  match made with
  | Raise e => (callbackIx, ∅, Raise e)
  | Ok (args, callbacks) =>
      (callbackIx, callbacks,
       '(returnValue, info) ← invoke (toIpcName apiClassName methodName) args;
       if truthy (wasThrownValue returnValue) then
         thrown ← restoreThrownValue objectToString capturedStack returnValue info restorer;
         Raise (Thrown thrown)
       else restoreValue objectToString returnValue info restorer)
  end.

End WithHost.
End BoundMethod.

(** ** restorer.ts: restoration by a class tag carried on the value

    The namespace Restorer of src/restorer.ts marks a value with the name
    of its class instead of sending a restoration info beside it.  The
    class name reaches the restorer as the value found under the tag. *)

Module EipcRestorer.
Import JS.

Definition __eipc_class : string := "__eipc_class".
Definition __eipc_thrown : string := "__eipc_thrown".

(* Type for a function that restores argument and return value classes. *)
Definition RestorerFunction := value → value → result value.

(* Makes an object restorable to its class by marking it with its class.
   An array that gains the mark is the object of its elements and the mark. *)
Definition makeRestorable (obj : value) : result value :=
  if String.eqb (typeof obj) "object" then
    name ← constructor_name obj;
    match obj with
    | VObject c ps => Ok (VObject c (set_prop __eipc_class name ps))
    | _ => Ok (VObject CArray (set_prop __eipc_class name (own_props obj)))
    end
  else Ok obj.



(* Restores the class of an argument or return value when possible. *)
Definition restoreValue (obj : value) (restorer : option RestorerFunction)
    : result value :=
  match obj with
  | VUndefined => Ok obj
  | _ =>
      className ← getProp obj __eipc_class;
      match className with
      | VUndefined => Ok obj
      | _ =>
          obj ← deleteProp obj __eipc_class;
          match restorer with
          | Some restorer => restorer className obj
          | None => Ok obj
          end
      end
  end.

Section WithHost.
Context (objectToString : value → string) (capturedStack : string).

(* Restores an error returned via IPC. *)
Definition restoreThrownError (error : value) (restorer : option RestorerFunction)
    : result value :=
  error ← deleteProp error __eipc_thrown;
  error ← restoreValue error restorer;
  error ← (if negb (instanceofError error) then
             message ← getProp error "message";
             error ← deleteProp error "message";
             Ok (Object_assign (Restorer.newError objectToString capturedStack message)
                   [error])
           else Ok error);
  (* Drop stack trace for main process. *)
  name ← constructor_name error;
  Ok (setProp error "stack"
        (VString (Restorer.syntheticStack (ToString objectToString name)
                    (ToString objectToString (Get error "message"))))).
End WithHost.
End EipcRestorer.
(** ** test/lib/main_util.ts: collecting the results of window scripts *)

(* Outcome of a check that either passes or throws an Error. *)
Inductive checked (A : Type) :=
| Passed (a : A)
| Failed (message : string).
Arguments Passed {A} a.
Arguments Failed {A} message.

Module MainUtil.
Import JS.

Definition COMPLETION_CHECK_INTERVAL_MILLIS : Z := 100.
Definition TEST_TIMEOUT_MILLIS : Z := 5000.

Record Result := {
  testName : string;
  requestData : value;
  requestDataTests : string;
  replyData : value;
  callbackData : value;
  error : value;
  verified : bool
}.

(* new Result() *)
Definition new_Result : Result := {|
  testName := "unknown";
  requestData := VUndefined;
  requestDataTests := "*missing*";
  replyData := VString "undefined";
  callbackData := VUndefined;
  error := VNull;
  verified := false
|}.

Record ResultCollector := {
  currentResult : Result;
  results : list Result;
  abortError : value;
  _completedAll : bool
}.

(* new ResultCollector() *)
Definition new_ResultCollector : ResultCollector := {|
  currentResult := new_Result; results := []; abortError := VNull; _completedAll := false
|}.

Definition completedAll (c : ResultCollector) : ResultCollector :=
  {| currentResult := currentResult c; results := results c;
     abortError := abortError c; _completedAll := true |}.

Definition reset (c : ResultCollector) : ResultCollector := new_ResultCollector.

Definition setRequestData (data : value) (c : ResultCollector) : ResultCollector :=
  {| currentResult :=
       {| testName := testName (currentResult c); requestData := data;
          requestDataTests := requestDataTests (currentResult c);
          replyData := replyData (currentResult c);
          callbackData := callbackData (currentResult c);
          error := error (currentResult c); verified := verified (currentResult c) |};
     results := results c; abortError := abortError c;
     _completedAll := _completedAll c |}.

(* result.verified = true *)
Definition set_verified (result : Result) : Result :=
  {| testName := testName result; requestData := requestData result;
     requestDataTests := requestDataTests result; replyData := replyData result;
     callbackData := callbackData result; error := error result; verified := true |}.

(* The loop of verifyTest over the results: None when it finds no result
   of the name.  assertFunc returns the message of the error it throws,
   if it throws. *)
Fixpoint verifyTest_from (results : list Result) (name : string)
    (assertFunc : Result → option string) : option (checked (list Result)) :=
  match results with
  | [] => None
  | result :: rest =>
      if String.eqb (testName result) name then
        match assertFunc result with
        | Some message => Some (Failed message)
        | None => Some (Passed (set_verified result :: rest))
        end
      else
        match verifyTest_from rest name assertFunc with
        | Some (Passed rest') => Some (Passed (result :: rest'))
        | other => other
        end
  end.

Definition verifyTest (name : string) (assertFunc : Result → option string)
    (c : ResultCollector) : checked ResultCollector :=
  match verifyTest_from (results c) name assertFunc with
  | Some (Passed results') =>
      Passed {| currentResult := currentResult c; results := results';
                abortError := abortError c; _completedAll := _completedAll c |}
  | Some (Failed message) => Failed message
  | None =>
      Failed ("No result found for test '" +:+ name +:+ "' among "
              +:+ pretty (length (results c)) +:+ " tests")
  end.

(* The loop of verifyAllDone, testNumber being the count so far. *)
Fixpoint verifyAllDone_from (testNumber : nat) (results : list Result) : checked unit :=
  match results with
  | [] => Passed tt
  | result :: rest =>
      let testNumber := S testNumber in
      if negb (verified result) then
        Failed ("Failed to verify test #" +:+ pretty testNumber +:+ " '"
                +:+ testName result +:+ "'")
      else verifyAllDone_from testNumber rest
  end.

Definition verifyAllDone (c : ResultCollector) : checked unit :=
  verifyAllDone_from 0 (results c).

(** What the promise of waitForResults settles to. *)
Inductive waited :=
| Completed                       (* resolve() *)
| Aborted (abortError : value)    (* reject(self.abortError) *)
| WaitTimedOut (message : string) (* reject(Error(...)) *).

(* One run of the timer callback of _waitForResults: the settlement it
   makes, or the time it passes to the next call. *)
Definition _waitForResults_check (time : Z) (self : ResultCollector) : waited + Z :=
  let time := (time + COMPLETION_CHECK_INTERVAL_MILLIS)%Z in
  match abortError self with
  | VNull =>
      if _completedAll self then inl Completed
      else if bool_decide (TEST_TIMEOUT_MILLIS ≤ time)%Z
           then inl (WaitTimedOut "Timed out waiting for results")
           else inr time
  | reported => inl (Aborted reported)
  end.

(* The chain of timer callbacks, given the collector as each of them
   finds it; None while the promise is pending. *)
Fixpoint _waitForResults (time : Z) (seen : list ResultCollector) : option waited :=
  match seen with
  | [] => None
  | self :: later =>
      match _waitForResults_check time self with
      | inl settled => Some settled
      | inr time => _waitForResults time later
      end
  end.

Definition waitForResults (seen : list ResultCollector) : option waited :=
  _waitForResults 0 seen.

End MainUtil.

(** * Vocabulary of the statements *)

Section Vocabulary.
Import JS Restorer.

(** The relay-tag marker is present on [v]: [v] owns the property. *)
Definition marker_present (v : value) : Prop :=
  is_Some (own_props v !! _affinity_rethrow).

(** Reading the class name of [v] for its restoration info does not
    throw: [v] is no object or function, or [v.constructor] is neither
    null nor undefined. *)
Definition class_readable (v : value) : Prop :=
  ∃ info, makeRestorationInfo v = Ok info.



(* The value of the own enumerable property k of v, if v has one. *)
Definition enumerable_own (v : value) (k : string) : option value :=
  match own_props v !! k with
  | Some (true, x) => Some x
  | _ => None
  end.

(* An instance of [class toString { x = 1 }]. *)
Definition instance_of_toString : value :=
  VObject (CNamed "toString" false) {["x" := (true, VNumber 1)]}.

(* A class map holding one restorable class, Catter. *)
Definition Catter_map : gmap string RestorableClass :=
  {["Catter" := {| restoreClass := λ obj, Ok (setProp obj "restored" (VBool true)) |}]}.

End Vocabulary.

Section ArgumentVocabulary.
Import JS Restorer.

(* typeof v == 'function' *)
Definition is_function (v : value) : bool := String.eqb (typeof v) "function".

(* How many of the arguments are functions. *)
Fixpoint functions_in (args : list value) : nat :=
  match args with
  | [] => 0
  | arg :: rest => (if is_function arg then 1 else 0) + functions_in rest
  end.

(* The channel name given to the function at index j of args, when the
   counter stood at callbackIx before the call: the counter after one
   increment for that function and for each function before it. *)
Definition counter_of (callbackIx : nat) (args : list value) (j : nat) : nat :=
  callbackIx + S (functions_in (take j args)).

Definition channel_of (callbackIx : nat) (args : list value) (j : nat) : string :=
  callbackName (counter_of callbackIx args j).

(* The restoration info of the argument at index i, if it gets one. *)
Definition info_at (i : nat) (arg : value) : option RestorationInfo :=
  match makeRestorationInfo arg with
  | Ok (Some info) => Some (set_argIndex i info)
  | _ => None
  end.

(* The infos of args, whose first element has index i, in order. *)
Fixpoint infos_from (i : nat) (args : list value) : list RestorationInfo :=
  match args with
  | [] => []
  | arg :: rest =>
      match info_at i arg with
      | Some info => info :: infos_from (S i) rest
      | None => infos_from (S i) rest
      end
  end.

(* The argument is an object or a function. *)
Definition is_object_or_function (v : value) : bool :=
  match v with
  | VObject _ _ | VInfos _ | VFunction _ _ _ => true
  | _ => false
  end.

(* The argument gets a restoration info whose class name restoreValue
   takes for the name of the internal wrapper. *)
Definition passes_for_wrapper (objectToString : value → string) (arg : value) : bool :=
  match makeRestorationInfo arg with
  | Ok (Some info) => names_wrapper objectToString (className info)
  | _ => false
  end.

(* The callbacks a call of makeArgsRestorable returns: none when it throws. *)
Definition callbacks_of (made : nat * result (list value * gmap string value))
    : gmap string value :=
  match made.2 with
  | Ok (_, callbacks) => callbacks
  | Raise _ => ∅
  end.

(** Auxiliary: the components of what the loop of [makeArgsRestorable]
    computes, each by a recursion of its own. *)

(* The argument list as the loop leaves it. *)
Fixpoint wire_args (callbackIx : nat) (args : list value) : list value :=
  match args with
  | [] => []
  | arg :: rest =>
      if is_function arg
      then VString (callbackName (S callbackIx)) :: wire_args (S callbackIx) rest
      else arg :: wire_args callbackIx rest
  end.

(* The map a loop over args builds when it stores [g i arg] under the
   channel name of each function [arg] at index [i]. *)
Fixpoint channel_map {V} (g : nat → value → V) (i callbackIx : nat) (args : list value)
    (m : gmap string V) : gmap string V :=
  match args with
  | [] => m
  | arg :: rest =>
      if is_function arg
      then channel_map g (S i) (S callbackIx) rest (<[callbackName (S callbackIx) := g i arg]> m)
      else channel_map g (S i) callbackIx rest m
  end.

End ArgumentVocabulary.

Section WireVocabulary.
Import JS Restorer.

(* The wire object of a thrown value whose typeof is "object". *)
Definition wire_of (thrown : value) : props :=
  delete "stack"
    (assign_from
       (assign_from {[_affinity_rethrow := (true, VBool true)]}
          (if instanceofError thrown
           then VObject CObject {["message" := (true, Get thrown "message")]}
           else VObject CObject ∅))
       thrown).

End WireVocabulary.

Section ExposureVocabulary.
Import JS SharedLib.

(* A method the code exposes: a property that is not the constructor, does
   not begin with a privacy marker, and whose value is callable. *)
Definition exposed_method (api : ApiInstance) (name : string) : Prop :=
  name ≠ "constructor" ∧ has_privacy_prefix name = false ∧
  typeof (chain_get (api_chain api) name) = "function".

Definition exposed_method_names (api : ApiInstance) : list string :=
  filter (exposed_method api) (getPropertyNames (api_chain api)).

(* The method set as C5 words it: every property below the universal base
   object whose name does not begin with a privacy marker and whose value
   is callable. *)
Definition claimed_method (api : ApiInstance) (name : string) : Prop :=
  has_privacy_prefix name = false ∧
  typeof (chain_get (api_chain api) name) = "function".

Definition claimed_method_names (api : ApiInstance) : list string :=
  filter (claimed_method api) (getPropertyNames (api_chain api)).

(* installHandler as a log of its calls, oldest first. *)
Definition logHandler (ipcName : string) (method : value)
    (log : list (string * value)) : list (string * value) :=
  log ++ [(ipcName, method)].

(* The handler exposeApi installs for a method of the API. *)
Definition handler_of (apiClassName : string) (api : ApiInstance) (name : string)
    : string * value :=
  (toIpcName apiClassName name, chain_get (api_chain api) name).

(* An instance of [class Foo { state = 1; ping() {...}; _reset() {...} }]. *)
Definition Foo : ApiInstance :=
  {| api_chain := [ [("state", VNumber 1)];
                    [("constructor", VFunction "Function" "Foo" 0);
                     ("ping", VFunction "Function" "ping" 1);
                     ("_reset", VFunction "Function" "_reset" 2)] ] |}.

(* An instance of [class B extends A] where both classes define ping. *)
Definition B_extends_A : ApiInstance :=
  {| api_chain := [ [("state", VNumber 1)];
                    [("constructor", VFunction "Function" "B" 0);
                     ("ping", VFunction "Function" "ping" 1)];
                    [("constructor", VFunction "Function" "A" 2);
                     ("ping", VFunction "Function" "ping" 3)] ] |}.

(* A host for the examples: objects convert to "[object Object]" and a
   replaced prototype supplies nothing. *)
Definition sample_host : WindowLib.Host :=
  {| WindowLib.object_string := λ _, "[object Object]";
     WindowLib.registry_through := λ _ _, WindowLib.NoNames;
     WindowLib.cache_through := λ _ _, false |}.

End ExposureVocabulary.

Section ChannelVocabulary.
(* The name holds no colon. *)
Fixpoint colon_free (s : string) : bool :=
  match s with
  | EmptyString => true
  | String a s' => negb (String.eqb (String a "") ":") && colon_free s'
  end.
End ChannelVocabulary.

Section RetryVocabulary.
Import SharedLib.
Context `{Process P}.
Context (others : nat → P → P) (attemptFunc : P → result bool * P).

(* The state of the process when check k of a chain of retries starts:
   every earlier check ran attemptFunc and left the process to the others. *)
Fixpoint state_at_check (k : nat) (p : P) : P :=
  match k with
  | O => p
  | S k => others k (attemptFunc (state_at_check k p)).2
  end.

(* The binding timeout as configured when check k compares against it. *)
Definition timeout_at_check (k : nat) (p : P) : Z :=
  _bindingTimeoutMillis (attemptFunc (state_at_check k p)).2.

(* The elapsed time check k has accumulated. *)
Definition elapsed_at_check (k : nat) : Z := (Z.of_nat k * _RETRY_MILLIS)%Z.

(* Check n is the first whose elapsed time reaches the configured timeout. *)
Definition first_timeout_check (n : nat) (p : P) : Prop :=
  (timeout_at_check n p ≤ elapsed_at_check n)%Z ∧
  ∀ k : nat, (k < n)%nat → (elapsed_at_check k < timeout_at_check k p)%Z.
End RetryVocabulary.

Section RetryExamples.
Import SharedLib WindowLib.

(* An attempt that never succeeds and changes nothing. *)
Definition never_bound (r : renderer) : result bool * renderer := (Ok false, r).

(* An application that, while each timer is pending, sets the binding
   timeout past the elapsed time of the next check. *)
Definition keeps_raising (k : nat) (r : renderer) : renderer :=
  setIpcBindingTimeout (elapsed_at_check (S (S k))) r.

(* An application that does nothing while the timers are pending. *)
Definition idle (k : nat) (r : renderer) : renderer := r.

(* An application that lowers the timeout while the first timer is
   pending and receives the registration of Api while the second is. *)
Definition lowers_then_receives (k : nat) (r : renderer) : renderer :=
  match k with
  | 0%nat => setIpcBindingTimeout 100 r
  | 1%nat => on_API_RESPONSE_IPC {| reg_className := "Api";
                                    reg_methodNames := Some ["ping"] |} r
  | _ => r
  end.
End RetryExamples.

Section BindingVocabulary.
Import JS SharedLib WindowLib.

(* No settled promise and no pending timer refers to a promise that is yet
   to be allocated. *)
Definition allocated_below (r : renderer) : Prop :=
  (∀ p, is_Some (promises r !! p) → (p < nextObject r)%nat) ∧
  Forall (λ t, (timer_resolve t < nextObject r)%nat) (timers r).

(* No bind for the API name is waiting on a timer. *)
Definition no_bind_pending (apiClassName : string) (r : renderer) : Prop :=
  Forall (λ t, timer_apiClassName t ≠ apiClassName) (timers r).

(* The discovery request bindMainApi sends for an API name. *)
Definition discovery_request (apiClassName : string) : string * payload :=
  (API_REQUEST_IPC, ApiName apiClassName).

(* The proxy a bind builds from the method names it finds. *)
Definition new_proxy (id : nat) (apiClassName : string) (methodNames : list string)
    (restorer : option RestorerFunction) : MainApiBinding :=
  {| binding_id := id; binding_apiClassName := apiClassName;
     binding_methodNames := methodNames; binding_restorer := restorer |}.

(* The renderer once a bind has built a proxy, cached it and resolved its
   promise with it. *)
Definition bound_with (p : nat) (apiClassName : string) (boundApi : MainApiBinding)
    (r : renderer) : renderer :=
  resolve p (Proxy boundApi)
    (with_boundMainApis (dict_set (λ _, true) apiClassName boundApi (_boundMainApis r))
       (with_nextObject (S (nextObject r)) r)).

(* The timer a bind sets to retry. *)
Definition retry_timer (elapsed : Z) (apiClassName : string)
    (restorer : option RestorerFunction) (p : nat) : timer :=
  {| timer_elapsedMillis := elapsed; timer_apiClassName := apiClassName;
     timer_restorer := restorer; timer_resolve := p;
     timer_timeoutMessage := timeoutMessage apiClassName |}.

(* Every pending timer retries for a promise of its own that is not yet
   settled, with the timeout message of its API name. *)
Definition timers_wait (r : renderer) : Prop :=
  NoDup (timer_resolve <$> timers r) ∧
  Forall (λ t, promises r !! timer_resolve t = None ∧
               timer_timeoutMessage t = timeoutMessage (timer_apiClassName t))
    (timers r).

(* The promise has been returned, is not settled, and no timer retries
   for it. *)
Definition abandoned (p : nat) (r : renderer) : Prop :=
  (p < nextObject r)%nat ∧ promises r !! p = None ∧ p ∉ timer_resolve <$> timers r.

(* Every cached proxy is a proxy of the API it is cached for. *)
Definition cache_named (r : renderer) : Prop :=
  ∀ k boundApi, entries (_boundMainApis r) !! k = Some boundApi →
                binding_apiClassName boundApi = k.


(* The name a value that resolves a promise goes with: the API of a proxy,
   the name under which anything else was found in the cache. *)
Definition bound_name (v : bound) : string :=
  match v with
  | Proxy boundApi => binding_apiClassName boundApi
  | Member name => name
  | Found _ name => name
  end.

(* The promise was returned by a bind for the API name: it is resolved
   with what goes with that name, or rejected, or every timer that retries
   for it retries for that API. *)
Definition bound_for (p : nat) (apiClassName : string) (r : renderer) : Prop :=
  (p < nextObject r)%nat ∧
  match promises r !! p with
  | Some (Resolved v) => bound_name v = apiClassName
  | Some (Rejected _) => True
  | None => Forall (λ t, timer_resolve t = p → timer_apiClassName t = apiClassName)
              (timers r)
  end.

(* The event is a call of bindMainApi. *)
Definition is_bind (e : event) : bool :=
  match e with
  | CallBindMainApi _ _ => true
  | _ => false
  end.

(* The registration of Api with one method, as received. *)
Definition Api_registration : ApiRegistration :=
  {| reg_className := "Api"; reg_methodNames := Some ["ping"] |}.

End BindingVocabulary.

Section EipcVocabulary.
Import JS EipcRestorer.

(* What restoreValue makes of the wire value, once its [__eipc_thrown]
   property is deleted, owns no property named __proto__. *)
Definition restores_plain (wire : value) (restorer : option RestorerFunction) : Prop :=
  ∀ w1 w2, deleteProp wire __eipc_thrown = Ok w1 →
           restoreValue w1 restorer = Ok w2 →
           own_props w2 !! "__proto__" = None.
End EipcVocabulary.

Section CollectorVocabulary.
Import MainUtil.

(* A run of verifyTest calls, each given by the test name and the
   assertion function; a call that throws leaves the collector as it was. *)
Definition verify_calls (calls : list (string * (Result → option string)))
    (c : ResultCollector) : ResultCollector :=
  foldl (λ c call, match verifyTest call.1 call.2 c with
                   | Passed c' => c'
                   | Failed _ => c
                   end) c calls.
End CollectorVocabulary.

(** * Properties *)

(** ** Property tables *)

Section PropertyTables.
Import JS.

Lemma assigned_props_lookup (target : props) (source : value) (k : string) :
  k ≠ "__proto__" → assigned_props target source !! k = own_props source !! k.
Proof.
  intros Hk. unfold assigned_props.
  destruct (target !! "__proto__"); [reflexivity|].
  apply lookup_delete_ne. congruence.
Qed.

Lemma assign_from_lookup (target : props) (source : value) (k : string) :
  k ≠ "__proto__" →
  assign_from target source !! k =
    match own_props source !! k with
    | Some (true, x) =>
        Some (match target !! k with Some (e, _) => (e, x) | None => (true, x) end)
    | _ => target !! k
    end.
Proof.
  intros Hk. unfold assign_from. rewrite lookup_merge, assigned_props_lookup by exact Hk.
  destruct (target !! k) as [[e y]|], (own_props source !! k) as [[[] x]|]; reflexivity.
Qed.

(* A target that owns no __proto__ property gains none. *)
Lemma assign_from_lookup_proto (target : props) (source : value) :
  target !! "__proto__" = None → assign_from target source !! "__proto__" = None.
Proof.
  intros Ht. unfold assign_from, assigned_props. rewrite lookup_merge, Ht.
  rewrite lookup_delete_eq. reflexivity.
Qed.

(* A source that does not own [k] leaves [k] alone. *)
Lemma assign_from_lookup_absent (target : props) (source : value) (k : string) :
  own_props source !! k = None → assign_from target source !! k = target !! k.
Proof.
  intros Hs. unfold assign_from. rewrite lookup_merge.
  assert (assigned_props target source !! k = None) as ->.
  { unfold assigned_props. destruct (target !! "__proto__"); [exact Hs|].
    destruct (decide ("__proto__" = k)) as [<-|Hne];
      [apply lookup_delete_eq | rewrite lookup_delete_ne by exact Hne; exact Hs]. }
  destruct (target !! k) as [[e y]|]; reflexivity.
Qed.

Lemma set_prop_lookup_eq (k : string) (x : value) (ps : props) :
  ∃ e, set_prop k x ps !! k = Some (e, x).
Proof.
  unfold set_prop. destruct (ps !! k) as [[e y]|]; eexists; apply lookup_insert_eq.
Qed.

Lemma set_prop_lookup_ne (k k' : string) (x : value) (ps : props) :
  k ≠ k' → set_prop k x ps !! k' = ps !! k'.
Proof.
  intros Hne. unfold set_prop.
  destruct (ps !! k) as [[e y]|]; apply lookup_insert_ne; exact Hne.
Qed.

Lemma String_eqb_neq (s1 s2 : string) : s1 ≠ s2 → String.eqb s1 s2 = false.
Proof. intros Hne. apply String.eqb_neq. exact Hne. Qed.

(* Reading the class name of an object that owns no constructor property. *)
Lemma constructor_name_class (c : cls) (ps : props) :
  ps !! "constructor" = None →
  constructor_name (VObject c ps) = Ok (VString (cls_name c)).
Proof. intros Hc. unfold constructor_name. rewrite Hc. reflexivity. Qed.

End PropertyTables.

(** ** The relay tag *)

Section RelayTag.
Import JS Restorer.

Lemma inherited_marker (v : value) (k : string) :
  k ≠ "message" → k ≠ "name" → inherited v k = VUndefined.
Proof.
  intros H1 H2. unfold inherited.
  rewrite (String_eqb_neq _ _ H1), (String_eqb_neq _ _ H2).
  destruct (instanceofError v); reflexivity.
Qed.

Lemma nullish_own_props (v : value) (k : string) :
  nullish v = true → own_props v !! k = None.
Proof. destruct v; try discriminate; intros _; apply lookup_empty. Qed.

Lemma wasThrownValue_true_iff (v : value) :
  wasThrownValue v = VBool true ↔
  ∃ e, own_props v !! _affinity_rethrow = Some (e, VBool true).
Proof.
  unfold wasThrownValue, Get.
  destruct (nullish v) eqn:Hn; simpl.
  - split; [discriminate|]. intros [e He].
    rewrite nullish_own_props in He by exact Hn. discriminate.
  - destruct (own_props v !! _affinity_rethrow) as [[e x]|] eqn:Hk.
    + split; [intros ->; eauto | intros [e' [= _ ->]]; reflexivity].
    + rewrite inherited_marker by discriminate.
      split; [discriminate | intros [e' ?]; discriminate].
Qed.

(** C9, as the code has it: [wasThrownValue] returns [true] exactly when
    the relay-tag marker is present on the value and holds [true]. *)
Theorem C9_wasThrownValue_true_iff (v : value) :
  wasThrownValue v = VBool true ↔
  ∃ e, own_props v !! _affinity_rethrow = Some (e, VBool true).
Proof. exact (wasThrownValue_true_iff v). Qed.

(** C9 as stated fails: a value on which the marker is present with the
    value [false] is not reported as thrown; the result is not even truthy. *)
Lemma C9_marker_present_not_thrown :
  let v := VObject CObject {[_affinity_rethrow := (true, VBool false)]} in
  marker_present v ∧ wasThrownValue v = VBool false ∧ truthy (wasThrownValue v) = false.
Proof. split; [eexists; reflexivity | split; reflexivity]. Qed.

(* The result is truthy exactly when the marker holds a truthy value. *)
Lemma wasThrownValue_truthy_iff (v : value) :
  truthy (wasThrownValue v) = true ↔
  ∃ e x, own_props v !! _affinity_rethrow = Some (e, x) ∧ truthy x = true.
Proof.
  unfold wasThrownValue, Get.
  destruct (nullish v) eqn:Hn; simpl.
  - split; [discriminate|]. intros (e & x & He & _).
    rewrite nullish_own_props in He by exact Hn. discriminate.
  - destruct (own_props v !! _affinity_rethrow) as [[e x]|] eqn:Hk.
    + split; [eauto | intros (e' & x' & [= _ <-] & Hx); exact Hx].
    + rewrite inherited_marker by discriminate. simpl.
      split; [discriminate | intros (e' & x' & ? & _); discriminate].
Qed.

(* What makeRethrownReturnValue returns for a value whose typeof is
   "object", when it returns. *)
Lemma makeRethrownReturnValue_object (thrown : value) :
  typeof thrown = "object" →
  makeRethrownReturnValue thrown =
    info ← makeRestorationInfo thrown;
    Ok (VObject CObject
          (delete "stack"
             (assign_from
                (assign_from {[_affinity_rethrow := (true, VBool true)]}
                   (if instanceofError thrown
                    then VObject CObject {["message" := (true, Get thrown "message")]}
                    else VObject CObject ∅))
                thrown)), info).
Proof.
  intros Hty. unfold makeRethrownReturnValue. rewrite Hty.
  change (negb (String.eqb "object" "object")) with false. cbv iota.
  destruct (makeRestorationInfo thrown); reflexivity.
Qed.

(* What makeRethrownReturnValue returns for any other value. *)
Lemma makeRethrownReturnValue_non_object (thrown : value) :
  typeof thrown ≠ "object" →
  makeRethrownReturnValue thrown =
    Ok (__ThrownNonObject thrown,
        Some {| argIndex := None; className := VString "__ThrownNonObject";
                isError := false; isCallback := false |}).
Proof.
  intros Hty. unfold makeRethrownReturnValue.
  rewrite (String_eqb_neq _ _ Hty). reflexivity.
Qed.

(* makeRethrownReturnValue throws only what makeRestorationInfo throws. *)
Lemma makeRethrownReturnValue_returns (t : value) :
  class_readable t → ∃ w info, makeRethrownReturnValue t = Ok (w, info).
Proof.
  intros [info Hinfo].
  destruct (decide (typeof t = "object")) as [Hty|Hty].
  - rewrite makeRethrownReturnValue_object, Hinfo by exact Hty. eauto.
  - rewrite makeRethrownReturnValue_non_object by exact Hty. eauto.
Qed.



(* A thrown object whose [constructor] is null: reading its class name
   throws a TypeError, so no wire value is returned at all. *)
Example rethrow_of_unreadable_constructor :
  let t := VObject CObject
             (<["constructor" := (true, VNull)]> {["code" := (true, VNumber 7)]}) in
  own_props t !! _affinity_rethrow = None ∧
  makeRethrownReturnValue t = Raise TypeError.
Proof. split; reflexivity. Qed.

End RelayTag.

(** ** Thrown values and restoration *)

Section ThrownValues.
Import JS Restorer.
Context (objectToString : value → string) (capturedStack : string).

Local Abbreviation restoreThrownValue :=
  (restoreThrownValue objectToString capturedStack).
Local Abbreviation restoreValue := (restoreValue objectToString).
Local Abbreviation names_wrapper := (names_wrapper objectToString).
Local Abbreviation ToString := (ToString objectToString).

(* Every thrown value whose typeof is not "object" comes back as it was,
   whatever the restorer. *)
Lemma non_object_round_trip (t : value) (restorer : option RestorerFunction) :
  typeof t ≠ "object" →
  ∃ info, makeRethrownReturnValue t = Ok (__ThrownNonObject t, info) ∧
          restoreThrownValue (__ThrownNonObject t) info restorer = Ok t.
Proof.
  intros Hty. rewrite makeRethrownReturnValue_non_object by exact Hty.
  eexists. split; reflexivity.
Qed.

(** C2, where the code departs from it: a thrown [null] has typeof
    "object", so it is not boxed; the wire value is the bare tag with no
    restoration info, and restoring it fails with a TypeError instead of
    returning [null]. *)
Theorem C2_thrown_null_not_returned (restorer : option RestorerFunction) :
  makeRethrownReturnValue VNull
    = Ok (VObject CObject {[_affinity_rethrow := (true, VBool true)]}, None) ∧
  restoreThrownValue (VObject CObject {[_affinity_rethrow := (true, VBool true)]}) None
    restorer = Raise TypeError.
Proof. split; reflexivity. Qed.

(* A value whose class name is not the wrapper's comes back unchanged
   from restoreValue, with no restorer and with genericRestorer bound to
   any class map in which the lookup of that name finds nothing. *)
Lemma restoreValue_unregistered (v : value) (info : RestorationInfo) :
  names_wrapper (className info) = false →
  restoreValue v (Some info) None = Ok v ∧
  ∀ restorableClassMap : gmap string RestorableClass,
    map_get restorableClassMap (ToString (className info)) = Absent →
    restoreValue v (Some info) (Some (genericRestorer objectToString restorableClassMap))
      = Ok v.
Proof.
  intros Hname. unfold Restorer.restoreValue. rewrite Hname. split; [reflexivity|].
  intros restorableClassMap Hmap. unfold genericRestorer. rewrite Hmap. reflexivity.
Qed.

(** X24.  A value whose class name can be read and is not taken for the
    wrapper's comes back unchanged from [restoreValue] given the
    restoration info [makeRestorationInfo] computes for it: with no
    restorer, and with [genericRestorer] bound to any class map in which
    the lookup of that class name finds nothing. *)
Theorem unregistered_class_unchanged (v : value) (info : RestorationInfo)
    (restorableClassMap : gmap string RestorableClass) :
  makeRestorationInfo v = Ok (Some info) →
  names_wrapper (className info) = false →
  map_get restorableClassMap (ToString (className info)) = Absent →
  restoreValue v (Some info) None = Ok v ∧
  restoreValue v (Some info) (Some (genericRestorer objectToString restorableClassMap))
    = Ok v.
Proof.
  intros _ Hname Hmap.
  destruct (restoreValue_unregistered v info Hname) as [Hnone Hgeneric].
  split; [exact Hnone | exact (Hgeneric restorableClassMap Hmap)].
Qed.

(** C3, where the code departs from it: an instance of a class named
    toString gets a restoration info bearing that name; the class map
    holding Catter alone has no entry of that name, yet the lookup finds
    the member every object inherits, and [restoreValue] with
    [genericRestorer] bound to that map fails with a TypeError instead of
    returning the value.  With no restorer the value comes back unchanged. *)
Theorem C3_inherited_name_not_unchanged :
  let v := instance_of_toString in
  let info := {| argIndex := None; className := VString "toString";
                 isError := false; isCallback := false |} in
  makeRestorationInfo v = Ok (Some info) ∧
  Catter_map !! "toString" = None ∧
  restoreValue v (Some info) None = Ok v ∧
  restoreValue v (Some info) (Some (genericRestorer objectToString Catter_map))
    = Raise TypeError.
Proof. repeat split. Qed.

(** *** Error relay *)





End ThrownValues.

Lemma unregistered_class_unchanged_witness :
  let v := VObject (CNamed "Point" false) {["x" := (true, VNumber 1)]} in
  let info := {| argIndex := None; className := VString "Point";
                 isError := false; isCallback := false |} in
  (Restorer.makeRestorationInfo v = Ok (Some info) ∧
   Restorer.names_wrapper (λ _, "[object Object]") (className info) = false ∧
   JS.map_get Catter_map "Point" = JS.Absent) ∧
  Restorer.restoreValue (λ _, "[object Object]") v (Some info) None = Ok v ∧
  Restorer.restoreValue (λ _, "[object Object]") v (Some info)
    (Some (genericRestorer (λ _, "[object Object]") Catter_map)) = Ok v.
Proof.
  cbv zeta. split; [repeat split|].
  exact (unregistered_class_unchanged (λ _, "[object Object]")
           (VObject (CNamed "Point" false) {["x" := (true, VNumber 1)]})
           {| argIndex := None; className := VString "Point";
              isError := false; isCallback := false |}
           Catter_map eq_refl eq_refl eq_refl).
Defined.


(** ** Argument lists *)

Section ArgumentLists.
Import JS Restorer.
Context (objectToString : value → string).

Local Abbreviation restoreValue := (restoreValue objectToString).
Local Abbreviation restoreArgs := (restoreArgs objectToString).
Local Abbreviation restoreArgs_from := (restoreArgs_from objectToString).

Lemma makeRestorationInfo_isCallback (arg : value) (info : RestorationInfo) :
  makeRestorationInfo arg = Ok (Some info) → isCallback info = is_function arg.
Proof.
  unfold makeRestorationInfo, is_function.
  destruct arg as [| | | | | | c ps |]; cbn -[constructor_name];
    try (intros [= <-]; reflexivity); try discriminate.
  destruct (constructor_name (VObject c ps)); cbn; [intros [= <-]; reflexivity|].
  discriminate.
Qed.

Lemma makeRestorationInfo_None (arg : value) :
  makeRestorationInfo arg = Ok None → is_function arg = false.
Proof.
  unfold makeRestorationInfo, is_function. destruct arg; simpl; try congruence.
Qed.

(* The arguments given a restoration info are the objects and the functions. *)
Lemma makeRestorationInfo_Some (arg : value) (oi : option RestorationInfo) :
  makeRestorationInfo arg = Ok oi → is_Some oi ↔ is_object_or_function arg = true.
Proof.
  unfold makeRestorationInfo.
  destruct arg as [| | | | | | c ps |]; cbn -[constructor_name];
    try (intros [= <-]; split; [intros [? ?]; discriminate | discriminate]);
    try (intros [= <-]; split; eauto).
  destruct (constructor_name (VObject c ps)); cbn; [|discriminate].
  intros [= <-]. split; eauto.
Qed.

(* A function always gets a restoration info. *)
Lemma makeRestorationInfo_function (arg : value) :
  is_function arg = true → ∃ info, makeRestorationInfo arg = Ok (Some info).
Proof.
  unfold is_function. destruct arg; try discriminate. intros _. eexists. reflexivity.
Qed.

Lemma set_argIndex_isCallback (i : nat) (info : RestorationInfo) :
  isCallback (set_argIndex i info) = isCallback info.
Proof. reflexivity. Qed.

Lemma makeArgsRestorable_from_eq (args : list value) :
  ∀ i callbackIx callbacks infos,
    Forall class_readable args →
    makeArgsRestorable_from i args callbackIx callbacks infos
    = (callbackIx + functions_in args,
       Ok (wire_args callbackIx args,
           channel_map (λ _ arg, arg) i callbackIx args callbacks,
           infos ++ infos_from i args)).
Proof.
  induction args as [|arg rest IH]; intros i ix cbs infos Hok;
    cbn [makeArgsRestorable_from].
  - cbn. rewrite Nat.add_0_r, app_nil_r. reflexivity.
  - apply Forall_cons in Hok as [[oi Harg] Hok].
    cbn [wire_args channel_map functions_in infos_from]. unfold info_at. rewrite Harg.
    destruct oi as [info|].
    + rewrite set_argIndex_isCallback, (makeRestorationInfo_isCallback _ _ Harg).
      destruct (is_function arg); rewrite IH, <- app_assoc by exact Hok;
        cbn [app Nat.add mbind result_bind];
        rewrite ?Nat.add_succ_r; reflexivity.
    + rewrite (makeRestorationInfo_None _ Harg), IH by exact Hok. reflexivity.
Qed.

(* A call that returns has read the class name of every argument. *)
Lemma makeArgsRestorable_from_readable (args : list value) :
  ∀ i callbackIx callbacks infos ix' done,
    makeArgsRestorable_from i args callbackIx callbacks infos = (ix', Ok done) →
    Forall class_readable args.
Proof.
  induction args as [|arg rest IH]; intros i ix cbs infos ix' done;
    cbn [makeArgsRestorable_from]; [constructor|].
  destruct (makeRestorationInfo arg) as [oi|e] eqn:Harg; [|discriminate].
  assert (Hnext : ∀ ix cbs infos (k : list value * gmap string value * list RestorationInfo
                                        → result (list value * gmap string value
                                                  * list RestorationInfo)),
    (let '(ix1, rest1) := makeArgsRestorable_from (S i) rest ix cbs infos in
     (ix1, mbind k rest1)) = (ix', Ok done) → Forall class_readable rest).
  { intros ix0 cbs0 infos0 k.
    destruct (makeArgsRestorable_from (S i) rest ix0 cbs0 infos0) as [ix1 [d|e]] eqn:Hrec;
      [|discriminate].
    intros _. exact (IH _ _ _ _ _ _ Hrec). }
  intros Hdone. constructor; [eexists; exact Harg|].
  destruct oi as [info|]; [destruct (isCallback (set_argIndex i info))|];
    exact (Hnext _ _ _ _ Hdone).
Qed.

(* The counter never goes back, and a call that throws has allocated
   names up to the counter it leaves. *)
Lemma makeArgsRestorable_from_counter (args : list value) :
  ∀ i callbackIx callbacks infos,
    (callbackIx ≤ (makeArgsRestorable_from i args callbackIx callbacks infos).1
     ≤ callbackIx + functions_in args)%nat.
Proof.
  induction args as [|arg rest IH]; intros i ix cbs infos;
    cbn [makeArgsRestorable_from functions_in]; [cbn; lia|].
  destruct (makeRestorationInfo arg) as [[info|]|e] eqn:Harg; [| |cbn; lia].
  - rewrite set_argIndex_isCallback, (makeRestorationInfo_isCallback _ _ Harg).
    destruct (is_function arg).
    + specialize (IH (S i) (S ix) (<[callbackName (S ix) := arg]> cbs)
                    (infos ++ [set_argIndex i info])).
      destruct (makeArgsRestorable_from _ _ _ _ _) as [ix1 r1]. cbn [fst] in *. lia.
    + specialize (IH (S i) ix cbs (infos ++ [set_argIndex i info])).
      destruct (makeArgsRestorable_from _ _ _ _ _) as [ix1 r1]. cbn [fst] in *. lia.
  - specialize (IH (S i) ix cbs infos).
    destruct (makeArgsRestorable_from _ _ _ _ _) as [ix1 r1]. cbn [fst] in *.
    destruct (is_function arg); lia.
Qed.

Lemma callbackName_inj (n1 n2 : nat) : callbackName n1 = callbackName n2 → n1 = n2.
Proof.
  unfold callbackName. intros Heq.
  apply (inj (String.app _)) in Heq. apply (inj pretty) in Heq. exact Heq.
Qed.

Lemma callbackName_not_proto (n : nat) : String.eqb (callbackName n) "__proto__" = false.
Proof.
  apply String_eqb_neq. unfold callbackName. intros Heq.
  assert (Hcons : ∀ a s t, String a s +:+ t = String a (s +:+ t)) by reflexivity.
  rewrite !Hcons in Heq. discriminate.
Qed.

Lemma wire_args_length (args : list value) :
  ∀ callbackIx, length (wire_args callbackIx args) = length args.
Proof.
  induction args as [|arg rest IH]; intros ix; cbn [wire_args]; [reflexivity|].
  destruct (is_function arg); cbn [length]; rewrite IH; reflexivity.
Qed.

Lemma wire_args_lookup (args : list value) :
  ∀ callbackIx j arg,
    args !! j = Some arg →
    wire_args callbackIx args !! j
    = Some (if is_function arg then VString (channel_of callbackIx args j) else arg).
Proof.
  unfold channel_of, counter_of.
  induction args as [|a rest IH]; intros ix j arg Hj; [discriminate|].
  cbn [wire_args]. destruct j as [|j].
  - injection Hj as ->. cbn [take functions_in]. rewrite Nat.add_1_r.
    destruct (is_function arg); reflexivity.
  - cbn [lookup list_lookup] in Hj. cbn [take functions_in].
    destruct (is_function a); cbn [lookup list_lookup]; rewrite (IH _ _ _ Hj);
      cbn [Nat.add]; rewrite ?Nat.add_succ_r; reflexivity.
Qed.

(* What a channel map holds: the entries it started with, whose names the
   loop does not allocate, and one entry per function argument. *)
Lemma channel_map_lookup {V} (g : nat → value → V) (args : list value) :
  ∀ (i callbackIx : nat) (m : gmap string V) name v,
    (∀ k, is_Some (m !! k) → ∃ n : nat, (n ≤ callbackIx)%nat ∧ k = callbackName n) →
    channel_map g i callbackIx args m !! name = Some v ↔
    m !! name = Some v ∨
    ∃ j arg, args !! j = Some arg ∧ is_function arg = true ∧
             name = channel_of callbackIx args j ∧ v = g (i + j) arg.
Proof.
  unfold channel_of, counter_of.
  induction args as [|a rest IH]; intros i ix m name v Hm; cbn [channel_map].
  - split; [auto|]. intros [H|(j & arg & Hj & _)]; [exact H | discriminate].
  - destruct (is_function a) eqn:Ha.
    + rewrite IH; clear IH.
      2:{ intros k [x Hk]. destruct (decide (k = callbackName (S ix))) as [->|Hne].
          - exists (S ix). split; [lia | reflexivity].
          - rewrite lookup_insert_ne in Hk by congruence.
            destruct (Hm k) as (n & Hn & ->); [eauto|]. exists n. split; [lia|reflexivity]. }
      split.
      * intros [H|(j & arg & Hj & Hf & -> & ->)].
        -- destruct (decide (name = callbackName (S ix))) as [->|Hne].
           ++ rewrite lookup_insert_eq in H. injection H as <-.
              right. exists 0, a. cbn [take functions_in]. rewrite !Nat.add_0_r, Nat.add_1_r.
              auto.
           ++ rewrite lookup_insert_ne in H by congruence. auto.
        -- right. exists (S j), arg. cbn [take functions_in]. rewrite Ha.
           split; [exact Hj|]. split; [exact Hf|].
           split; f_equal; lia.
      * intros [H|(j & arg & Hj & Hf & -> & ->)].
        -- left. rewrite lookup_insert_ne; [exact H|].
           intros <-. destruct (Hm (callbackName (S ix))) as (n & Hn & Heq); [eauto|].
           apply callbackName_inj in Heq. lia.
        -- destruct j as [|j].
           ++ injection Hj as ->. left. cbn [take functions_in].
              rewrite !Nat.add_0_r, Nat.add_1_r. apply lookup_insert_eq.
           ++ right. exists j, arg. cbn [take functions_in]. rewrite Ha.
              split; [exact Hj|]. split; [exact Hf|]. split; f_equal; lia.
    + rewrite IH by exact Hm. clear IH.
      split; (intros [H|(j & arg & Hj & Hf & -> & ->)]; [left; exact H|right]).
      * exists (S j), arg. cbn [take functions_in]. rewrite Ha.
        split; [exact Hj|]. split; [exact Hf|]. split; f_equal; lia.
      * destruct j as [|j]; [injection Hj as ->; congruence|].
        exists j, arg. cbn [take functions_in]. rewrite Ha.
        split; [exact Hj|]. split; [exact Hf|]. split; f_equal; lia.
Qed.

Lemma infos_from_head_index (args : list value) :
  ∀ i info, head (infos_from i args) = Some info →
            ∃ k : nat, argIndex info = Some k ∧ (i ≤ k)%nat.
Proof.
  induction args as [|arg rest IH]; intros i info; cbn [infos_from]; [discriminate|].
  unfold info_at. destruct (makeRestorationInfo arg) as [[x|]|e].
  - intros [= <-]. exists i. split; [reflexivity | lia].
  - intros H. destruct (IH _ _ H) as (k & Hk & Hle). exists k. split; [exact Hk | lia].
  - intros H. destruct (IH _ _ H) as (k & Hk & Hle). exists k. split; [exact Hk | lia].
Qed.

(* An argument with no info of its own is not given the info of a later one. *)
Lemma no_info_here (rest : list value) (pre : list RestorationInfo) (i : nat) :
  match (pre ++ infos_from (S i) rest) !! length pre with
  | Some x => if argIndex_is x i then Some x else None
  | None => None
  end = None.
Proof.
  destruct ((pre ++ infos_from (S i) rest) !! length pre) as [x|] eqn:Hx; [|reflexivity].
  rewrite lookup_app_r, Nat.sub_diag in Hx by lia.
  destruct (infos_from_head_index rest (S i) x) as (k & Hk & Hle).
  { destruct (infos_from (S i) rest); [discriminate | exact Hx]. }
  unfold argIndex_is. rewrite Hk, bool_decide_eq_false_2; [reflexivity|].
  intros [= ->]. lia.
Qed.

Lemma restoreArgs_from_wire (rest : list value) :
  ∀ (i callbackIx : nat) (pre : list RestorationInfo) (found : gmap string nat),
    Forall class_readable rest →
    Forall (λ arg, passes_for_wrapper objectToString arg = false) rest →
    restoreArgs_from i (wire_args callbackIx rest)
      (pre ++ infos_from i rest) (length pre) None found
    = Ok (wire_args callbackIx rest, channel_map (λ j _, j) i callbackIx rest found).
Proof.
  induction rest as [|arg rest IH]; intros i ix pre found Hread Hok; [reflexivity|].
  apply Forall_cons in Hok as [Harg Hok].
  apply Forall_cons in Hread as [[oi Hinfo] Hread].
  cbn [wire_args infos_from channel_map]. unfold info_at. rewrite Hinfo.
  unfold passes_for_wrapper in Harg. rewrite Hinfo in Harg.
  destruct oi as [info|].
  - rewrite <- (makeRestorationInfo_isCallback _ _ Hinfo).
    set (tagged := set_argIndex i info).
    assert (Hstep : ∀ a' rest',
      restoreArgs_from i (a' :: rest') (pre ++ tagged :: infos_from (S i) rest)
        (length pre) None found
      = ('(rest1, found1) ← restoreArgs_from (S i) rest'
                                ((pre ++ [tagged]) ++ infos_from (S i) rest)
                                (length (pre ++ [tagged])) None
                                (if isCallback info
                                 then set_callback (ToString objectToString a') i found
                                 else found);
         Ok (a' :: rest1, found1))).
    { intros a' rest'. cbn [Restorer.restoreArgs_from].
      rewrite lookup_app_r by lia. rewrite Nat.sub_diag. cbn [lookup list_lookup].
      unfold argIndex_is. rewrite bool_decide_eq_true_2 by reflexivity.
      unfold Restorer.restoreValue.
      change (className tagged) with (className info).
      change (isCallback tagged) with (isCallback info).
      rewrite Harg. cbn [mbind result_bind].
      rewrite length_app, Nat.add_1_r, <- app_assoc. reflexivity. }
    destruct (isCallback info); rewrite Hstep, IH by assumption;
      cbn [mbind result_bind ToString]; [|reflexivity].
    unfold set_callback. rewrite callbackName_not_proto. reflexivity.
  - rewrite (makeRestorationInfo_None _ Hinfo).
    cbn [Restorer.restoreArgs_from].
    rewrite no_info_here. cbn [Restorer.restoreValue mbind result_bind].
    rewrite IH by assumption. reflexivity.
Qed.

Lemma functions_in_take_lt (args : list value) :
  ∀ (j1 j2 : nat) f1,
    args !! j1 = Some f1 → is_function f1 = true → (j1 < j2)%nat →
    (functions_in (take j1 args) < functions_in (take j2 args))%nat.
Proof.
  induction args as [|a rest IH]; intros j1 j2 f1 Hj1 Hf1 Hlt; [discriminate|].
  destruct j2 as [|j2]; [lia|]. destruct j1 as [|j1].
  - injection Hj1 as ->. cbn [take functions_in]. rewrite Hf1. lia.
  - cbn [take functions_in]. cbn [lookup list_lookup] in Hj1.
    specialize (IH j1 j2 f1 Hj1 Hf1). lia.
Qed.

Lemma makeArgsRestorable_eq (callbackIx : nat) (args : list value) :
  Forall class_readable args →
  makeArgsRestorable callbackIx args
  = (callbackIx + functions_in args,
     Ok (wire_args callbackIx args ++ [VInfos (infos_from 0 args)],
         channel_map (λ _ arg, arg) 0 callbackIx args ∅)).
Proof.
  intros Hok. unfold makeArgsRestorable. rewrite makeArgsRestorable_from_eq by exact Hok.
  reflexivity.
Qed.

Lemma makeArgsRestorable_readable (callbackIx ix' : nat) (args : list value)
    (done : list value * gmap string value) :
  makeArgsRestorable callbackIx args = (ix', Ok done) → Forall class_readable args.
Proof.
  unfold makeArgsRestorable.
  destruct (makeArgsRestorable_from 0 args callbackIx ∅ []) as [ix1 [d|e]] eqn:Hrec;
    [|discriminate].
  intros _. exact (makeArgsRestorable_from_readable _ _ _ _ _ _ _ Hrec).
Qed.

Lemma restoreArgs_wire (callbackIx : nat) (args : list value) :
  Forall class_readable args →
  Forall (λ arg, passes_for_wrapper objectToString arg = false) args →
  restoreArgs (wire_args callbackIx args ++ [VInfos (infos_from 0 args)]) None
  = Ok (wire_args callbackIx args, channel_map (λ j _, j) 0 callbackIx args ∅).
Proof.
  intros Hread Hok. unfold Restorer.restoreArgs, pop. rewrite removelast_last, last_snoc.
  apply (restoreArgs_from_wire args 0 callbackIx [] ∅ Hread Hok).
Qed.

(** C4, as the code has it.  When the class name of every argument can be
    read, [makeArgsRestorable] appends the ordered list of restoration
    infos as a last element, puts in place of each function argument the
    channel name of a strictly increasing counter (so no two function
    arguments get the same name) and returns the map from those names to
    the functions.  When moreover no argument's class name is taken for
    that of the internal wrapper, [restoreArgs] with no restorer pops the
    info list, leaves the arguments as they crossed (every non-function
    argument equal to the original) and returns the map from each channel
    name to the index of the argument that holds it. *)
Theorem C4_args_marshalling (callbackIx : nat) (args : list value) :
  Forall class_readable args →
  ∃ args' callbacks,
    makeArgsRestorable callbackIx args
    = (callbackIx + functions_in args,
       Ok (args' ++ [VInfos (infos_from 0 args)], callbacks)) ∧
    length (infos_from 0 args)
    = length (filter (λ arg, is_object_or_function arg = true) args) ∧
    length args' = length args ∧
    (∀ j arg, args !! j = Some arg →
       args' !! j = Some (if is_function arg
                          then VString (channel_of callbackIx args j) else arg)) ∧
    (∀ j1 j2 f1 f2,
       args !! j1 = Some f1 → args !! j2 = Some f2 →
       is_function f1 = true → is_function f2 = true → (j1 < j2)%nat →
       (callbackIx < counter_of callbackIx args j1 < counter_of callbackIx args j2)%nat ∧
       channel_of callbackIx args j1 ≠ channel_of callbackIx args j2) ∧
    (∀ name f, callbacks !! name = Some f ↔
               ∃ j, args !! j = Some f ∧ is_function f = true ∧
                    name = channel_of callbackIx args j) ∧
    (Forall (λ arg, passes_for_wrapper objectToString arg = false) args →
     ∃ found,
       restoreArgs (args' ++ [VInfos (infos_from 0 args)]) None = Ok (args', found) ∧
       (∀ name j, found !! name = Some j ↔
                  ∃ f, args !! j = Some f ∧ is_function f = true ∧
                       name = channel_of callbackIx args j)).
Proof.
  intros Hread.
  exists (wire_args callbackIx args), (channel_map (λ _ arg, arg) 0 callbackIx args ∅).
  split; [apply makeArgsRestorable_eq; exact Hread|].
  split.
  { clear callbackIx. generalize 0. induction Hread as [|arg rest [oi Harg] _ IH];
      intros i; [reflexivity|].
    cbn [infos_from]. unfold info_at. rewrite Harg, filter_cons.
    pose proof (makeRestorationInfo_Some arg oi Harg) as Hsome.
    destruct oi as [info|].
    - rewrite decide_True by (apply Hsome; eauto). cbn [length]. f_equal. apply IH.
    - rewrite decide_False by (intros Hobj; apply Hsome in Hobj as [? ?]; discriminate).
      apply IH. }
  split; [apply wire_args_length|].
  split; [apply wire_args_lookup|].
  split.
  { intros j1 j2 f1 f2 H1 H2 Hf1 Hf2 Hlt.
    pose proof (functions_in_take_lt args j1 j2 f1 H1 Hf1 Hlt) as Hcount.
    unfold channel_of, counter_of. split; [lia|].
    intros Heq. apply callbackName_inj in Heq. lia. }
  split.
  { intros name f. rewrite channel_map_lookup.
    - rewrite lookup_empty. split.
      + intros [?|(j & arg & Hj & Hf & -> & ->)]; [discriminate|]. eauto.
      + intros (j & Hj & Hf & ->). right. exists j, f. auto.
    - intros k [x Hk]. rewrite lookup_empty in Hk. discriminate. }
  intros Hok. exists (channel_map (λ j _, j) 0 callbackIx args ∅).
  split; [apply restoreArgs_wire; assumption|].
  intros name j. rewrite channel_map_lookup.
  - rewrite lookup_empty. split.
    + intros [?|(j' & arg & Hj & Hf & -> & ->)]; [discriminate|]. eauto.
    + intros (f & Hj & Hf & ->). right. exists j, f. auto.
  - intros k [x Hk]. rewrite lookup_empty in Hk. discriminate.
Qed.

(** C4 as stated fails for an argument whose class is named like the
    internal wrapper: [restoreArgs] replaces it by a fresh wrapper, which is
    not the original argument.  It fails too for an argument that owns a
    [constructor] property holding null: [makeArgsRestorable] throws on
    reading its class name and appends nothing. *)
Lemma C4_arguments_not_marshalled :
  let arg := VObject (CNamed "__ThrownNonObject" false) {["a" := (true, VNumber 1)]} in
  let arg' := VObject CObject {["constructor" := (true, VNull)]} in
  (∃ wire callbacks,
     makeArgsRestorable 0 [arg] = (0, Ok (wire, callbacks)) ∧
     Restorer.restoreArgs (λ _, "[object Object]") wire None
     = Ok ([__ThrownNonObject VUndefined], ∅) ∧
     __ThrownNonObject VUndefined ≠ arg) ∧
  makeArgsRestorable 0 [arg'] = (0, Raise TypeError).
Proof.
  split; [|reflexivity].
  eexists _, _. split; [reflexivity|].
  split; [vm_compute; reflexivity | discriminate].
Qed.
End ArgumentLists.

Lemma C4_witness :
  let args := [VNumber 1; VFunction "Function" "onDone" 7; VObject CObject ∅;
               VFunction "AsyncFunction" "" 8] in
  let infos := VInfos (infos_from 0 args) in
  Forall class_readable args ∧
  ∃ args' callbacks found,
    Restorer.makeArgsRestorable 3 args = (5, Ok (args' ++ [infos], callbacks)) ∧
    args' !! 0 = Some (VNumber 1) ∧
    args' !! 1 = Some (VString "_affinity_event_callback_4") ∧
    callbacks !! "_affinity_event_callback_4" = Some (VFunction "Function" "onDone" 7) ∧
    Restorer.restoreArgs (λ _, "[object Object]") (args' ++ [infos]) None
    = Ok (args', found) ∧
    found !! "_affinity_event_callback_5" = Some 3.
Proof.
  cbv zeta.
  assert (Hok : Forall class_readable
                  [VNumber 1; VFunction "Function" "onDone" 7; VObject CObject ∅;
                   VFunction "AsyncFunction" "" 8])
    by (repeat constructor; eexists; reflexivity).
  split; [exact Hok|].
  destruct (C4_args_marshalling (λ _, "[object Object]") 3 _ Hok)
    as (args' & callbacks & Hmake & _ & _ & Hlookup & _ & Hcallbacks & Hrestore).
  destruct Hrestore as (found & Hrestore & Hfound); [repeat constructor|].
  exists args', callbacks, found.
  split; [exact Hmake|].
  split; [exact (Hlookup 0 (VNumber 1) eq_refl)|].
  split; [exact (Hlookup 1 (VFunction "Function" "onDone" 7) eq_refl)|].
  split; [apply Hcallbacks; exists 1; repeat split|].
  split; [exact Hrestore|].
  apply Hfound. exists (VFunction "AsyncFunction" "" 8). repeat split.
Defined.

(** ** Restoring argument lists, further *)

Section ArgumentRestoration.
Import JS Restorer.
Context (objectToString : value → string).

Local Abbreviation restoreValue := (restoreValue objectToString).
Local Abbreviation restoreArgs := (restoreArgs objectToString).
Local Abbreviation restoreArgs_from := (restoreArgs_from objectToString).

(* restoreValue reads nothing of the info but its class name. *)
Lemma restoreValue_className (obj : value) (info1 info2 : RestorationInfo)
    (restorer : option RestorerFunction) :
  className info1 = className info2 →
  restoreValue obj (Some info1) restorer = restoreValue obj (Some info2) restorer.
Proof. intros Hcn. unfold Restorer.restoreValue. rewrite Hcn. reflexivity. Qed.

Lemma restoreArgs_from_aligned (rest : list value) :
  ∀ (i callbackIx : nat) (pre : list RestorationInfo) (found : gmap string nat)
    (restorer : option RestorerFunction),
    Forall class_readable rest →
    fst <$> restoreArgs_from i (wire_args callbackIx rest)
              (pre ++ infos_from i rest) (length pre) restorer found
    = mapM (λ aw, info ← makeRestorationInfo aw.1; restoreValue aw.2 info restorer)
        (zip rest (wire_args callbackIx rest)).
Proof.
  induction rest as [|arg rest IH]; intros i ix pre found restorer Hread; [reflexivity|].
  apply Forall_cons in Hread as [[oi Hinfo] Hread].
  cbn [wire_args infos_from]. unfold info_at. rewrite Hinfo.
  destruct oi as [info|].
  - rewrite <- (makeRestorationInfo_isCallback _ _ Hinfo).
    set (tagged := set_argIndex i info).
    assert (Hstep : ∀ w,
      fst <$> restoreArgs_from i
                (w :: wire_args (if isCallback info then S ix else ix) rest)
                (pre ++ tagged :: infos_from (S i) rest) (length pre) restorer found
      = mapM (λ aw, info ← makeRestorationInfo aw.1; restoreValue aw.2 info restorer)
          ((arg, w) :: zip rest (wire_args (if isCallback info then S ix else ix) rest))).
    { intros w. cbn [Restorer.restoreArgs_from mapM fst snd].
      rewrite lookup_app_r by lia. rewrite Nat.sub_diag. cbn [lookup list_lookup].
      unfold argIndex_is. rewrite bool_decide_eq_true_2 by reflexivity.
      rewrite Hinfo. cbn [mbind result_bind]. subst tagged.
      rewrite (restoreValue_className w (set_argIndex i info) info restorer eq_refl).
      destruct (Restorer.restoreValue objectToString w (Some info) restorer) as [arg'|e];
        cbn [mbind result_bind]; [|reflexivity].
      rewrite <- (IH (S i) (if isCallback info then S ix else ix)
                    (pre ++ [set_argIndex i info])
                    (if isCallback (set_argIndex i info)
                     then set_callback (ToString objectToString arg') i found
                     else found) restorer Hread).
      rewrite length_app, Nat.add_1_r, <- app_assoc. cbn [app].
      destruct (Restorer.restoreArgs_from _ _ _ _ _ _ _) as [[rest' found']|e];
        reflexivity. }
    destruct (isCallback info); apply Hstep.
  - rewrite (makeRestorationInfo_None _ Hinfo).
    cbn [Restorer.restoreArgs_from zip zip_with mapM fst snd]. rewrite Hinfo.
    rewrite no_info_here. cbn [Restorer.restoreValue mbind result_bind].
    rewrite <- (IH (S i) ix pre found restorer Hread).
    destruct (Restorer.restoreArgs_from _ _ _ _ _ _ _) as [[rest' found']|e];
      reflexivity.
Qed.

(** X1.  When [makeArgsRestorable] returns, every argument is restored
    with the restoration info that [makeRestorationInfo] computes for the
    original argument at its own position, in argument order, the first
    failure ending the call: the walk over the info list never gives an
    argument the info of another, and gives none to an argument that is
    neither an object nor a function. *)
Theorem restoreArgs_aligns_infos (callbackIx callbackIx' : nat) (args wire : list value)
    (callbacks : gmap string value) (restorer : option RestorerFunction) :
  makeArgsRestorable callbackIx args = (callbackIx', Ok (wire, callbacks)) →
  length wire = S (length args) ∧
  fst <$> restoreArgs wire restorer
  = mapM (λ aw, info ← makeRestorationInfo aw.1; restoreValue aw.2 info restorer)
      (zip args wire).
Proof.
  intros Hmade. pose proof (makeArgsRestorable_readable _ _ _ _ Hmade) as Hread.
  rewrite makeArgsRestorable_eq in Hmade by exact Hread.
  injection Hmade as _ <- _.
  split; [rewrite length_app, wire_args_length; cbn; lia|].
  unfold Restorer.restoreArgs, pop. rewrite removelast_last, last_snoc.
  rewrite (restoreArgs_from_aligned args 0 callbackIx [] ∅ restorer Hread).
  f_equal.
  rewrite <- (zip_with_take_r pair args (wire_args callbackIx args ++ _)).
  rewrite <- (wire_args_length args callbackIx), take_app_length. reflexivity.
Qed.

(* The names the loop has allocated when it ends lie between the counter
   before and the counter after. *)
Lemma makeArgsRestorable_from_range (args : list value) :
  ∀ i callbackIx callbacks infos ix' wire callbacks' infos' name f,
    makeArgsRestorable_from i args callbackIx callbacks infos
    = (ix', Ok (wire, callbacks', infos')) →
    callbacks' !! name = Some f →
    callbacks !! name = Some f ∨
    ∃ n : nat, (callbackIx < n ≤ ix')%nat ∧ name = callbackName n.
Proof.
  induction args as [|arg rest IH];
    intros i ix cbs infos ix' wire cbs' infos' name f; cbn [makeArgsRestorable_from].
  - intros [= <- <- <- <-]. auto.
  - destruct (makeRestorationInfo arg) as [[info|]|e] eqn:Harg; [| |discriminate].
    + destruct (isCallback (set_argIndex i info)).
      * destruct (makeArgsRestorable_from (S i) rest (S ix) _ _)
          as [ix1 [[[w1 c1] i1]|e]] eqn:Hrec; [|discriminate].
        cbn [mbind result_bind]. intros [= <- <- <- <-] Hname.
        pose proof (makeArgsRestorable_from_counter rest (S i) (S ix)
                      (<[callbackName (S ix) := arg]> cbs)
                      (infos ++ [set_argIndex i info])) as Hc.
        rewrite Hrec in Hc. cbn [fst] in Hc.
        destruct (IH _ _ _ _ _ _ _ _ _ _ Hrec Hname) as [Hold|(n & Hn & ->)].
        -- destruct (decide (name = callbackName (S ix))) as [->|Hne].
           ++ right. exists (S ix). split; [lia | reflexivity].
           ++ rewrite lookup_insert_ne in Hold by congruence. auto.
        -- right. exists n. split; [lia | reflexivity].
      * destruct (makeArgsRestorable_from (S i) rest ix _ _)
          as [ix1 [[[w1 c1] i1]|e]] eqn:Hrec; [|discriminate].
        cbn [mbind result_bind]. intros [= <- <- <- <-] Hname.
        exact (IH _ _ _ _ _ _ _ _ _ _ Hrec Hname).
    + destruct (makeArgsRestorable_from (S i) rest ix _ _)
        as [ix1 [[[w1 c1] i1]|e]] eqn:Hrec; [|discriminate].
      cbn [mbind result_bind]. intros [= <- <- <- <-] Hname.
      exact (IH _ _ _ _ _ _ _ _ _ _ Hrec Hname).
Qed.

(* The names a call returns lie between the counter before and after. *)
Lemma makeArgsRestorable_callbacks_range (callbackIx : nat) (args : list value)
    (name : string) (f : value) :
  callbacks_of (makeArgsRestorable callbackIx args) !! name = Some f →
  ∃ n : nat, (callbackIx < n ≤ (makeArgsRestorable callbackIx args).1)%nat ∧
             name = callbackName n.
Proof.
  unfold callbacks_of, makeArgsRestorable.
  destruct (makeArgsRestorable_from 0 args callbackIx ∅ [])
    as [ix1 [[[w1 c1] i1]|e]] eqn:Hrec; cbn [fst snd mbind result_bind].
  - intros Hname.
    destruct (makeArgsRestorable_from_range _ _ _ _ _ _ _ _ _ _ _ Hrec Hname)
      as [Hold|Hnew]; [rewrite lookup_empty in Hold; discriminate | exact Hnew].
  - rewrite lookup_empty. discriminate.
Qed.

(** X2.  No channel name is allocated twice: the callbacks of a call and those
    of any later call, made once the counter has reached or passed the
    value the first call left, have no name in common. *)
Theorem callback_channels_never_reused (callbackIx callbackIx' : nat)
    (args1 args2 : list value) :
  ((makeArgsRestorable callbackIx args1).1 ≤ callbackIx')%nat →
  callbacks_of (makeArgsRestorable callbackIx args1)
    ##ₘ callbacks_of (makeArgsRestorable callbackIx' args2).
Proof.
  intros Hle. apply map_disjoint_spec. intros name f1 f2 H1 H2.
  apply makeArgsRestorable_callbacks_range in H1 as (n1 & Hn1 & ->).
  apply makeArgsRestorable_callbacks_range in H2 as (n2 & Hn2 & Heq).
  apply callbackName_inj in Heq. subst n2. lia.
Qed.
End ArgumentRestoration.

Lemma restoreArgs_aligns_infos_witness :
  let args := [VFunction "AsyncFunction" "" 1; VNumber 2;
               VObject (CNamed "Point" false) {["x" := (true, VNumber 1)]}] in
  let wire := [VString "_affinity_event_callback_1"; VNumber 2;
               VObject (CNamed "Point" false) {["x" := (true, VNumber 1)]};
               VInfos (infos_from 0 args)] in
  length wire = 4 ∧
  fst <$> Restorer.restoreArgs (λ _, "[object Object]") wire None
  = mapM (λ aw, info ← Restorer.makeRestorationInfo aw.1;
                Restorer.restoreValue (λ _, "[object Object]") aw.2 info None)
      (zip args wire).
Proof.
  cbv zeta.
  apply (restoreArgs_aligns_infos (λ _, "[object Object]") 0 1
           [VFunction "AsyncFunction" "" 1; VNumber 2;
            VObject (CNamed "Point" false) {["x" := (true, VNumber 1)]}]
           _ {["_affinity_event_callback_1" := VFunction "AsyncFunction" "" 1]} None).
  reflexivity.
Defined.

Lemma callback_channels_never_reused_witness :
  let args := [VFunction "Function" "a" 1; VNumber 2; VFunction "Function" "b" 3] in
  ((Restorer.makeArgsRestorable 0 args).1 ≤ 2)%nat ∧
  callbacks_of (Restorer.makeArgsRestorable 0 args)
    ##ₘ callbacks_of (Restorer.makeArgsRestorable 2 [VFunction "Function" "c" 4]).
Proof.
  split; [vm_compute; lia|].
  apply (callback_channels_never_reused 0 2); vm_compute; lia.
Defined.

(** ** Thrown objects *)

Section ThrownObjects.
Import JS Restorer.
Context (objectToString : value → string) (capturedStack : string).

Local Abbreviation restoreThrownValue :=
  (restoreThrownValue objectToString capturedStack).

(* Object.assign from a source that owns no __proto__ property. *)
Lemma assign_from_lookup_plain (target : props) (source : value) (k : string) :
  own_props source !! "__proto__" = None →
  assign_from target source !! k =
    match own_props source !! k with
    | Some (true, x) =>
        Some (match target !! k with Some (e, _) => (e, x) | None => (true, x) end)
    | _ => target !! k
    end.
Proof.
  intros Hp. destruct (decide (k = "__proto__")) as [->|Hk].
  - rewrite assign_from_lookup_absent, Hp by exact Hp. reflexivity.
  - apply assign_from_lookup. exact Hk.
Qed.

(* What the wire object of a thrown object owns. *)
Lemma wire_lookup (thrown : value) (k : string) :
  own_props thrown !! "__proto__" = None →
  wire_of thrown !! k
  = if bool_decide (k = "stack") then None
    else match enumerable_own thrown k with
         | Some x => Some (true, x)
         | None =>
             if bool_decide (k = _affinity_rethrow) then Some (true, VBool true)
             else if bool_decide (k = "message") && instanceofError thrown
                  then Some (true, Get thrown "message")
                  else None
         end.
Proof.
  intros Hproto. unfold wire_of.
  destruct (decide (k = "stack")) as [->|Hk].
  - rewrite bool_decide_eq_true_2 by reflexivity. apply lookup_delete_eq.
  - rewrite bool_decide_eq_false_2 by exact Hk.
    rewrite lookup_delete_ne by congruence.
    rewrite (assign_from_lookup_plain _ thrown) by exact Hproto.
    rewrite assign_from_lookup_plain
      by (destruct (instanceofError thrown); reflexivity).
    unfold enumerable_own.
    destruct (decide (k = _affinity_rethrow)) as [->|Hm].
    + rewrite lookup_singleton_eq.
      assert (own_props (if instanceofError thrown
                         then VObject CObject {["message" := (true, Get thrown "message")]}
                         else VObject CObject ∅) !! _affinity_rethrow = None) as ->
        by (destruct (instanceofError thrown); reflexivity).
      destruct (own_props thrown !! _affinity_rethrow) as [[[] x]|]; reflexivity.
    + rewrite bool_decide_eq_false_2 by exact Hm.
      rewrite lookup_singleton_ne by congruence.
      destruct (decide (k = "message")) as [->|Hmsg].
      * destruct (instanceofError thrown); cbn [own_props andb bool_decide].
        -- rewrite lookup_singleton_eq.
           destruct (own_props thrown !! "message") as [[[] x]|]; reflexivity.
        -- rewrite lookup_empty.
           destruct (own_props thrown !! "message") as [[[] x]|]; reflexivity.
      * rewrite bool_decide_eq_false_2 by exact Hmsg. cbn [andb].
        assert (own_props (if instanceofError thrown
                           then VObject CObject {["message" := (true, Get thrown "message")]}
                           else VObject CObject ∅) !! k = None) as ->.
        { destruct (instanceofError thrown); cbn [own_props];
            [apply lookup_singleton_ne; congruence | apply lookup_empty]. }
        destruct (own_props thrown !! k) as [[[] x]|]; reflexivity.
Qed.

(* What makeRethrownReturnValue returns for an object whose class name
   can be read. *)
Lemma makeRethrownReturnValue_readable (thrown : value) (name : value) :
  typeof thrown = "object" → thrown ≠ VNull →
  constructor_name thrown = Ok name →
  makeRethrownReturnValue thrown
  = Ok (VObject CObject (wire_of thrown),
        Some {| argIndex := None; className := name;
                isError := instanceofError thrown; isCallback := false |}).
Proof.
  intros Hty Hnull Hname. rewrite makeRethrownReturnValue_object by exact Hty.
  unfold makeRestorationInfo. rewrite Hty, Hname.
  destruct thrown; try congruence; reflexivity.
Qed.

(** X3.  A thrown object that is not an Error, whose class name can be
    read and is not taken for the wrapper's, and which owns no property
    named __proto__, comes back, with no restorer, as a plain object
    holding exactly the own enumerable properties of the thrown object
    other than [stack] and [_affinity_rethrow]: its class and its other
    properties do not cross. *)
Theorem thrown_object_round_trip (thrown name : value) :
  typeof thrown = "object" → thrown ≠ VNull →
  instanceofError thrown = false →
  constructor_name thrown = Ok name →
  names_wrapper objectToString name = false →
  own_props thrown !! "__proto__" = None →
  ∃ w info qs,
    makeRethrownReturnValue thrown = Ok (w, info) ∧
    restoreThrownValue w info None = Ok (VObject CObject qs) ∧
    qs !! "stack" = None ∧ qs !! _affinity_rethrow = None ∧
    ∀ k, k ≠ "stack" → k ≠ _affinity_rethrow →
         qs !! k = pair true <$> enumerable_own thrown k.
Proof.
  intros Hty Hnull Herr Hname Hwrap Hproto.
  pose proof (λ k, wire_lookup thrown k Hproto) as Hwire.
  rewrite (makeRethrownReturnValue_readable _ _ Hty Hnull Hname). rewrite Herr in *.
  set (ps := wire_of thrown) in *.
  eexists _, _, (delete _affinity_rethrow ps). split; [reflexivity|].
  split; [|split; [|split]].
  - unfold Restorer.restoreThrownValue. cbn [deleteProp mbind result_bind].
    unfold restoreValue. cbn [className]. rewrite Hwrap. reflexivity.
  - rewrite lookup_delete_ne by discriminate. unfold ps. apply lookup_delete_eq.
  - apply lookup_delete_eq.
  - intros k Hk Hm. rewrite lookup_delete_ne by congruence.
    rewrite Hwire.
    rewrite bool_decide_eq_false_2 by exact Hk.
    rewrite bool_decide_eq_false_2 by exact Hm.
    rewrite andb_false_r. destruct (enumerable_own thrown k); reflexivity.
Qed.
End ThrownObjects.

Lemma thrown_object_round_trip_witness :
  let thrown := VObject (CNamed "Failure" false)
                  (<["code" := (true, VNumber 7)]>
                     (<["stack" := (true, VString "at api.js:3")]>
                        {["hidden" := (false, VNumber 1)]})) in
  (JS.typeof thrown = "object" ∧ thrown ≠ VNull ∧ JS.instanceofError thrown = false ∧
   JS.constructor_name thrown = Ok (VString "Failure")) ∧
  ∃ w info qs,
    Restorer.makeRethrownReturnValue thrown = Ok (w, info) ∧
    Restorer.restoreThrownValue (λ _, "[object Object]") "" w info None
    = Ok (VObject CObject qs) ∧
    qs !! "stack" = None ∧ qs !! "hidden" = None ∧
    qs !! "code" = Some (true, VNumber 7).
Proof.
  cbv zeta. split; [repeat split; discriminate|].
  destruct (thrown_object_round_trip (λ _, "[object Object]") ""
              (VObject (CNamed "Failure" false)
                  (<["code" := (true, VNumber 7)]>
                     (<["stack" := (true, VString "at api.js:3")]>
                        {["hidden" := (false, VNumber 1)]})))
              (VString "Failure"))
    as (w & info & qs & Hmade & Hres & Hstack & _ & Hprops);
    [reflexivity | discriminate | reflexivity | reflexivity | reflexivity | reflexivity |].
  exists w, info, qs. split; [exact Hmade|]. split; [exact Hres|]. split; [exact Hstack|].
  split; [rewrite Hprops by discriminate; reflexivity|].
  rewrite Hprops by discriminate. reflexivity.
Defined.

(** ** Calls through a bound main API *)

Section BoundCalls.
Import JS Restorer SharedLib BoundMethod.
Context (objectToString : value → string) (capturedStack : string).

Local Abbreviation restoreThrownValue :=
  (restoreThrownValue objectToString capturedStack).
Local Abbreviation restoreValue := (restoreValue objectToString).
Local Abbreviation boundApi_method := (boundApi_method objectToString capturedStack).

(* The settlement of a call, from the response on: a call that cannot
   make its arguments restorable rejects with what that throws. *)
Lemma boundApi_method_response (response : value * option RestorationInfo)
    (apiClassName methodName : string) (restorer : option RestorerFunction)
    (callbackIx : nat) (args : list value) :
  (boundApi_method (λ _ _, Ok response) apiClassName methodName restorer
     callbackIx args).2
  = match (makeArgsRestorable callbackIx args).2 with
    | Raise e => Raise e
    | Ok _ =>
        if truthy (wasThrownValue response.1) then
          thrown ← restoreThrownValue response.1 response.2 restorer; Raise (Thrown thrown)
        else restoreValue response.1 response.2 restorer
    end.
Proof.
  unfold BoundMethod.boundApi_method.
  destruct (makeArgsRestorable callbackIx args) as [ix [[wire callbacks]|e]];
    [|reflexivity].
  destruct response as [returnValue info]. reflexivity.
Qed.

Lemma makeArgsRestorable_returns (callbackIx : nat) (args : list value) :
  Forall class_readable args → ∃ done, (makeArgsRestorable callbackIx args).2 = Ok done.
Proof. intros Hread. rewrite makeArgsRestorable_eq by exact Hread. eauto. Qed.

(** X4.  A value that is not an object, thrown by the method in the main
    process and returned as [makeRethrownReturnValue] packs it, is the
    value the call rejects with, whatever the restorer; only a call that
    throws while making its own arguments restorable rejects with that
    exception instead. *)
Theorem bound_call_rejects_with_thrown_primitive (t : value)
    (apiClassName methodName : string) (restorer : option RestorerFunction)
    (callbackIx : nat) (args : list value) :
  typeof t ≠ "object" →
  ∃ response,
    makeRethrownReturnValue t = Ok response ∧
    (boundApi_method (λ _ _, Ok response) apiClassName methodName
       restorer callbackIx args).2
    = match (makeArgsRestorable callbackIx args).2 with
      | Raise e => Raise e
      | Ok _ => Raise (Thrown t)
      end.
Proof.
  intros Hty.
  destruct (non_object_round_trip objectToString capturedStack t restorer Hty)
    as (info & Hmade & Hrt).
  eexists. split; [exact Hmade|].
  rewrite boundApi_method_response. cbn [fst snd].
  change (truthy (wasThrownValue (__ThrownNonObject t))) with true.
  cbv iota. rewrite Hrt. reflexivity.
Qed.

(* The Error rebuilt, with no restorer, from the wire pair of an Error. *)
Lemma restoreThrownValue_plain_error (e : value) (m : string) :
  instanceofError e = true →
  Get e "message" = VString m →
  own_props e !! "constructor" = None →
  own_props e !! "__proto__" = None →
  class_name e ≠ "__ThrownNonObject" →
  ∃ w info qs,
    makeRethrownReturnValue e = Ok (w, info) ∧
    own_props w = wire_of e ∧
    restoreThrownValue w info None = Ok (VObject CError qs) ∧
    qs !! "message" = Some (false, VString m) ∧
    qs !! "stack" = Some (false, VString (syntheticStack "Error" m)) ∧
    qs !! _affinity_rethrow = None ∧
    ∀ k, k ≠ "stack" → k ≠ "message" → k ≠ _affinity_rethrow →
         qs !! k = pair true <$> enumerable_own e k.
Proof.
  intros Hie Hm Hctor Hproto Hname.
  assert (Hty : typeof e = "object") by (destruct e; try discriminate; reflexivity).
  assert (Hnull : e ≠ VNull) by (intros ->; discriminate).
  assert (Hcn : constructor_name e = Ok (VString (class_name e))).
  { destruct e; try discriminate. apply constructor_name_class. exact Hctor. }
  pose proof (λ k, wire_lookup e k Hproto) as Hwire.
  rewrite (makeRethrownReturnValue_readable _ _ Hty Hnull Hcn). rewrite Hie, Hm in *.
  set (ps := wire_of e) in *.
  assert (Hmsg : ∃ fl, ps !! "message" = Some (fl, VString m)).
  { rewrite Hwire. cbn [bool_decide decide_rel andb]. rewrite bool_decide_eq_false_2 by discriminate.
    rewrite bool_decide_eq_false_2 by discriminate. rewrite bool_decide_eq_true_2 by reflexivity.
    unfold enumerable_own. unfold Get in Hm.
    destruct (own_props e !! "message") as [[[] x]|]; [subst x|..]; eauto. }
  destruct Hmsg as [fl Hmsg].
  exists (VObject CObject ps),
    (Some {| argIndex := None; className := VString (class_name e);
             isError := true; isCallback := false |}).
  cut (∃ qs,
    restoreThrownValue (VObject CObject ps)
      (Some {| argIndex := None; className := VString (class_name e);
               isError := true; isCallback := false |}) None = Ok (VObject CError qs) ∧
    qs !! "message" = Some (false, VString m) ∧
    qs !! "stack" = Some (false, VString (syntheticStack "Error" m)) ∧
    qs !! _affinity_rethrow = None ∧
    ∀ k, k ≠ "stack" → k ≠ "message" → k ≠ _affinity_rethrow →
         qs !! k = pair true <$> enumerable_own e k).
  { intros (qs & Hq). exists qs. split; [reflexivity|]. split; [reflexivity|]. exact Hq. }
  unfold Restorer.restoreThrownValue. cbn [deleteProp mbind result_bind].
  unfold Restorer.restoreValue. cbn [className names_wrapper].
  unfold __ThrownNonObject_name.
  rewrite (String_eqb_neq _ _ Hname).
  cbn [mbind result_bind instanceofThrownNonObject instanceofError cls_isError negb isError].
  unfold getProp. cbn [nullish mbind result_bind deleteProp].
  assert (Hget : Get (VObject CObject (delete _affinity_rethrow ps)) "message" = VString m).
  { unfold Get. cbn [own_props]. rewrite lookup_delete_ne by discriminate.
    rewrite Hmsg. reflexivity. }
  rewrite Hget.
  cbn [mbind result_bind newError ToString Object_assign foldl instanceofError
       cls_isError].
  set (qs0 := assign_from _ _).
  assert (Hq0 : ∀ k, qs0 !! k =
    match (if bool_decide (k = "message") || bool_decide (k = _affinity_rethrow)
           then None else ps !! k) with
    | Some (true, x) =>
        Some (match (<["message" := (false, VString m)]>
                       ({["stack" := (false, VString capturedStack)]} : props)) !! k with
              | Some (fl', _) => (fl', x) | None => (true, x) end)
    | _ => (<["message" := (false, VString m)]>
              ({["stack" := (false, VString capturedStack)]} : props)) !! k
    end).
  { intros k. unfold qs0. rewrite assign_from_lookup_plain.
    2:{ cbn [own_props]. rewrite !lookup_delete_ne by discriminate.
        rewrite Hwire. cbn [bool_decide decide_rel andb].
        unfold enumerable_own. rewrite Hproto.
        rewrite !bool_decide_eq_false_2 by discriminate. reflexivity. }
    cbn [own_props].
    destruct (decide (k = "message")) as [->|Hk1].
    - rewrite lookup_delete_eq. reflexivity.
    - rewrite lookup_delete_ne by congruence. rewrite (bool_decide_eq_false_2 _ Hk1).
      destruct (decide (k = _affinity_rethrow)) as [->|Hk2].
      + rewrite lookup_delete_eq. reflexivity.
      + rewrite lookup_delete_ne by congruence. rewrite (bool_decide_eq_false_2 _ Hk2).
        reflexivity. }
  assert (Hqm : qs0 !! "message" = Some (false, VString m)).
  { rewrite Hq0. reflexivity. }
  assert (Hqc : qs0 !! "constructor" = None).
  { rewrite Hq0. cbn [bool_decide decide_rel orb]. rewrite Hwire.
    cbn [bool_decide decide_rel andb]. unfold enumerable_own. rewrite Hctor.
    rewrite !bool_decide_eq_false_2 by discriminate. reflexivity. }
  rewrite constructor_name_class by exact Hqc. cbn [mbind result_bind].
  assert (Hmsg' : Get (VObject CError qs0) "message" = VString m).
  { unfold Get. cbn [own_props]. rewrite Hqm. reflexivity. }
  rewrite Hmsg'. cbn [ToString setProp cls_name].
  eexists. split; [reflexivity|]. split; [|split; [|split]].
  - rewrite set_prop_lookup_ne by discriminate. exact Hqm.
  - unfold set_prop.
    assert (Hqs : qs0 !! "stack" = Some (false, VString capturedStack)).
    { rewrite Hq0. cbn [bool_decide decide_rel orb]. rewrite Hwire. reflexivity. }
    rewrite Hqs. apply lookup_insert_eq.
  - rewrite set_prop_lookup_ne by discriminate. rewrite Hq0. reflexivity.
  - intros k Hk1 Hk2 Hk3. rewrite set_prop_lookup_ne by congruence.
    rewrite Hq0. rewrite (bool_decide_eq_false_2 _ Hk2), (bool_decide_eq_false_2 _ Hk3).
    cbn [orb]. rewrite Hwire.
    rewrite (bool_decide_eq_false_2 _ Hk1), (bool_decide_eq_false_2 _ Hk2),
      (bool_decide_eq_false_2 _ Hk3). cbn [andb].
    rewrite lookup_insert_ne by congruence. rewrite lookup_singleton_ne by congruence.
    destruct (enumerable_own e k); reflexivity.
Qed.

(** X5.  An Error, owning no property named constructor or __proto__ and
    of a class not named like the wrapper, thrown by the method in the
    main process and returned as [makeRethrownReturnValue] packs it makes
    the call, bound with no restorer and given arguments whose class names
    can be read, reject with a built-in Error: it carries the message of
    the thrown error, the synthetic stack built from "Error" and that
    message, no relay tag, and the own enumerable properties of the thrown
    error. *)
Theorem bound_call_rejects_with_rebuilt_error (e : value) (m : string)
    (apiClassName methodName : string) (callbackIx : nat) (args : list value) :
  instanceofError e = true →
  Get e "message" = VString m →
  own_props e !! "constructor" = None →
  own_props e !! "__proto__" = None →
  class_name e ≠ "__ThrownNonObject" →
  enumerable_own e _affinity_rethrow = None →
  Forall class_readable args →
  ∃ response qs,
    makeRethrownReturnValue e = Ok response ∧
    (boundApi_method (λ _ _, Ok response) apiClassName methodName
       None callbackIx args).2 = Raise (Thrown (VObject CError qs)) ∧
    qs !! "message" = Some (false, VString m) ∧
    qs !! "stack" = Some (false, VString (syntheticStack "Error" m)) ∧
    qs !! _affinity_rethrow = None ∧
    ∀ k, k ≠ "stack" → k ≠ "message" → k ≠ _affinity_rethrow →
         qs !! k = pair true <$> enumerable_own e k.
Proof.
  intros Hie Hm Hctor Hproto Hname Hmark Hread.
  destruct (restoreThrownValue_plain_error e m Hie Hm Hctor Hproto Hname)
    as (w & info & qs & Hmade & Hw & Hres & Hfacts).
  exists (w, info), qs. split; [exact Hmade|]. split; [|exact Hfacts].
  rewrite boundApi_method_response. cbn [fst snd].
  destruct (makeArgsRestorable_returns callbackIx args Hread) as [done ->].
  rewrite Hres.
  assert (Htag : truthy (wasThrownValue w) = true).
  { apply wasThrownValue_truthy_iff. exists true, (VBool true).
    rewrite Hw, (wire_lookup e _ Hproto), Hmark. split; reflexivity. }
  rewrite Htag. reflexivity.
Qed.

(** X6.  With no restorer, a call whose response is the pair of a value and
    the restoration info [makeRestorationInfo] gives it, with a class name
    not taken for the wrapper's, resolves to that very value exactly when
    the value owns no [_affinity_rethrow] property holding a truthy value;
    a value that owns one is taken for a thrown value and the call
    rejects. *)
Theorem bound_call_returns_unless_tagged (v : value) (info : option RestorationInfo)
    (apiClassName methodName : string) (callbackIx : nat) (args : list value) :
  makeRestorationInfo v = Ok info →
  passes_for_wrapper objectToString v = false →
  Forall class_readable args →
  (boundApi_method (λ _ _, Ok (v, info)) apiClassName methodName
     None callbackIx args).2 = Ok v
  ↔ ¬ ∃ e x, own_props v !! _affinity_rethrow = Some (e, x) ∧ truthy x = true.
Proof.
  intros Hinfo Hname Hread. rewrite boundApi_method_response. cbn [fst snd].
  destruct (makeArgsRestorable_returns callbackIx args Hread) as [done ->].
  rewrite <- wasThrownValue_truthy_iff.
  destruct (truthy (wasThrownValue v)) eqn:Htag.
  - split; [|intros Hno; destruct Hno; reflexivity].
    destruct (restoreThrownValue v info None); discriminate.
  - split; [intros _; discriminate|]. intros _.
    unfold Restorer.restoreValue. unfold passes_for_wrapper in Hname.
    rewrite Hinfo in Hname.
    destruct info as [info|]; [|reflexivity]. rewrite Hname. reflexivity.
Qed.
End BoundCalls.

Lemma bound_call_rejects_with_thrown_primitive_witness :
  JS.typeof (VNumber 42) ≠ "object" ∧
  ∃ response,
    Restorer.makeRethrownReturnValue (VNumber 42) = Ok response ∧
    (BoundMethod.boundApi_method (λ _, "[object Object]") ""
       (λ _ _, Ok response) "Api" "ping" None 0 [VString "a"]).2
    = Raise (Thrown (VNumber 42)).
Proof.
  split; [discriminate|].
  apply (bound_call_rejects_with_thrown_primitive (λ _, "[object Object]") ""
           (VNumber 42) "Api" "ping" None 0 [VString "a"]).
  discriminate.
Defined.

Lemma bound_call_rejects_with_rebuilt_error_witness :
  let e := VObject (CNamed "AuthError" true)
             (<["message" := (false, VString "bad creds")]>
                (<["stack" := (false, VString "AuthError: bad creds at api.js:3")]>
                   {["code" := (true, VNumber 7)]})) in
  (JS.instanceofError e = true ∧ JS.Get e "message" = VString "bad creds" ∧
   JS.class_name e ≠ "__ThrownNonObject" ∧
   enumerable_own e Restorer._affinity_rethrow = None) ∧
  ∃ response qs,
    Restorer.makeRethrownReturnValue e = Ok response ∧
    (BoundMethod.boundApi_method (λ _, "[object Object]") "at window.js:1"
       (λ _ _, Ok response) "Api" "login"
       None 0 [VString "user"]).2 = Raise (Thrown (VObject CError qs)) ∧
    qs !! "message" = Some (false, VString "bad creds") ∧
    qs !! "stack"
    = Some (false, VString (Restorer.syntheticStack "Error" "bad creds")) ∧
    qs !! "code" = Some (true, VNumber 7).
Proof.
  cbv zeta. split; [repeat split; discriminate|].
  destruct (bound_call_rejects_with_rebuilt_error (λ _, "[object Object]") "at window.js:1"
              (VObject (CNamed "AuthError" true)
                 (<["message" := (false, VString "bad creds")]>
                    (<["stack" := (false, VString "AuthError: bad creds at api.js:3")]>
                       {["code" := (true, VNumber 7)]})))
              "bad creds" "Api" "login" 0 [VString "user"])
    as (response & qs & Hmade & Hres & Hmsg & Hstack & _ & Hprops);
    [reflexivity | reflexivity | reflexivity | reflexivity | discriminate | reflexivity
    | repeat constructor; eexists; reflexivity |].
  exists response, qs. split; [exact Hmade|]. split; [exact Hres|].
  split; [exact Hmsg|]. split; [exact Hstack|].
  rewrite Hprops by discriminate. reflexivity.
Defined.

Lemma bound_call_returns_unless_tagged_witness :
  let v := VObject (CNamed "Point" false) {["x" := (true, VNumber 1)]} in
  let info := Some {| argIndex := None; className := VString "Point";
                      isError := false; isCallback := false |} in
  Restorer.makeRestorationInfo v = Ok info ∧
  (BoundMethod.boundApi_method (λ _, "[object Object]") ""
     (λ _ _, Ok (v, info)) "Api" "origin" None 0 []).2 = Ok v.
Proof.
  cbv zeta. split; [reflexivity|].
  apply bound_call_returns_unless_tagged;
    [reflexivity | reflexivity | constructor |].
  intros (e & x & Hk & _). discriminate.
Defined.

(** ** Exposing an API *)

Ltac fields :=
  cbn [WindowLib.with_bindingTimeoutMillis WindowLib.with_mainApiMap
       WindowLib.with_boundMainApis WindowLib.with_windowApiMap
       WindowLib.with_listeningForIPC WindowLib.with_sent WindowLib.with_listeners
       WindowLib.with_timers WindowLib.with_promises
       WindowLib.with_uncaught WindowLib.with_nextObject
       WindowLib.bindingTimeoutMillis WindowLib._mainApiMap WindowLib._boundMainApis
       WindowLib._windowApiMap WindowLib._listeningForIPC
       WindowLib.sent WindowLib.listeners WindowLib.timers WindowLib.promises
       WindowLib.uncaught WindowLib.nextObject
       WindowLib.send WindowLib.resolve WindowLib.reject WindowLib.setTimeout] in *.

Section Exposure.
Import JS SharedLib.
Context (objectToString : value → string).
Context {H : Type} (installHandler : string → value → H → H).

Lemma exposeApi_step_spec (apiClassName : string) (api : ApiInstance)
    (acc : list string * H) (name : string) :
  exposeApi_step installHandler apiClassName api acc name
  = if decide (exposed_method api name)
    then (acc.1 ++ [name],
          installHandler (toIpcName apiClassName name)
            (chain_get (api_chain api) name) acc.2)
    else acc.
Proof.
  unfold exposeApi_step, exposed_method.
  destruct (String.eqb_spec name "constructor") as [->|Hc]; cbn [negb andb].
  - rewrite decide_False; [reflexivity|]. intros [Hne _]. congruence.
  - destruct (has_privacy_prefix name) eqn:Hp; cbn [negb].
    + rewrite decide_False; [reflexivity|]. intros (_ & Hf & _). discriminate.
    + destruct (String.eqb_spec (typeof (chain_get (api_chain api) name)) "function")
        as [Hf|Hf].
      * rewrite decide_True; [reflexivity|]. auto.
      * rewrite decide_False; [reflexivity|]. intros (_ & _ & Hf'). congruence.
Qed.

Lemma exposeApi_loop (apiClassName : string) (api : ApiInstance) (names : list string) :
  ∀ (acc : list string) (h : H),
    foldl (exposeApi_step installHandler apiClassName api) (acc, h) names
    = (acc ++ filter (exposed_method api) names,
       foldl (λ h name, installHandler (toIpcName apiClassName name)
                          (chain_get (api_chain api) name) h)
         h (filter (exposed_method api) names)).
Proof.
  induction names as [|name names IH]; intros acc h; cbn [foldl].
  - rewrite app_nil_r. reflexivity.
  - rewrite exposeApi_step_spec, filter_cons.
    destruct (decide (exposed_method api name)); cbn [fst snd foldl].
    + rewrite IH, <- app_assoc. reflexivity.
    + apply IH.
Qed.

(* exposeApi, by what the lookup of the class name finds. *)
Lemma exposeApi_new (apiMap : gmap string (list string)) (api : ApiInstance) (h : H)
    (name : value) :
  api_constructor_name api = Ok name →
  map_get apiMap (ToString objectToString name) = Absent →
  exposeApi objectToString installHandler apiMap api h
  = Ok (<[ToString objectToString name := exposed_method_names api]> apiMap,
        foldl (λ h methodName,
                 installHandler (toIpcName (ToString objectToString name) methodName)
                   (chain_get (api_chain api) methodName) h)
          h (exposed_method_names api)).
Proof.
  intros Hname Hnew. unfold exposeApi. rewrite Hname. cbn [mbind result_bind].
  rewrite Hnew, exposeApi_loop. reflexivity.
Qed.

Lemma exposeApi_again (apiMap : gmap string (list string)) (api : ApiInstance) (h : H)
    (name : value) :
  api_constructor_name api = Ok name →
  map_get apiMap (ToString objectToString name) ≠ Absent →
  exposeApi objectToString installHandler apiMap api h = Ok (apiMap, h).
Proof.
  intros Hname Hold. unfold exposeApi. rewrite Hname. cbn [mbind result_bind].
  destruct (map_get apiMap (ToString objectToString name)); congruence.
Qed.

(** C5, as the code has it.  When the lookup of the class name in the map
    finds nothing, [exposeApi] registers under that name, in enumeration
    order, exactly the names [getPropertyNames] returns that are not
    "constructor", do not begin with a privacy marker and whose value is
    callable, and calls [installHandler] with the IPC name and the method
    once per registered entry; when the class name is already registered,
    nothing changes and no handler is installed. *)
Theorem C5_exposeApi (apiMap : gmap string (list string)) (api : ApiInstance) (h : H)
    (name : value) :
  api_constructor_name api = Ok name →
  (map_get apiMap (ToString objectToString name) = Absent →
   exposeApi objectToString installHandler apiMap api h
   = Ok (<[ToString objectToString name := exposed_method_names api]> apiMap,
         foldl (λ h methodName,
                  installHandler (toIpcName (ToString objectToString name) methodName)
                    (chain_get (api_chain api) methodName) h)
           h (exposed_method_names api))) ∧
  (is_Some (apiMap !! ToString objectToString name) →
   exposeApi objectToString installHandler apiMap api h = Ok (apiMap, h)).
Proof.
  intros Hname. split.
  - apply exposeApi_new. exact Hname.
  - intros [names Hold]. apply (exposeApi_again _ _ _ name Hname).
    unfold map_get. rewrite Hold. discriminate.
Qed.
End Exposure.

Section ExposureFacts.
Import JS SharedLib.

(* Unless an object of the chain owns "hasOwnProperty" itself, the walk
   collects the own property names of every object below the base. *)
Lemma getPropertyNames_all (chain : list (list (string * value))) :
  Forall (λ obj, "hasOwnProperty" ∉ getOwnPropertyNames obj) chain →
  getPropertyNames chain = concat (getOwnPropertyNames <$> chain).
Proof.
  induction 1 as [|obj proto Hobj _ IH]; cbn [getPropertyNames fmap list_fmap concat];
    [reflexivity|].
  rewrite bool_decide_eq_false_2 by exact Hobj. rewrite IH. reflexivity.
Qed.

(** C5 as stated fails: the constructor is reachable through the chain,
    its name begins with no privacy marker and its value is callable, yet
    it is not registered and gets no handler. *)
Lemma C5_constructor_not_registered :
  exposeApi (λ _, "[object Object]") logHandler ∅ Foo []
  = Ok ({["Foo" := ["ping"]]}, [("Foo:ping", VFunction "Function" "ping" 1)]) ∧
  claimed_method_names Foo = ["constructor"; "ping"].
Proof. split; reflexivity. Qed.

(* A class named toString is taken for exposed already: the lookup of its
   name finds the member every object inherits, and nothing is registered. *)
Example exposeApi_inherited_name_not_registered :
  let api := {| api_chain := [ [];
                               [("constructor", VFunction "Function" "toString" 0);
                                ("ping", VFunction "Function" "ping" 1)] ] |} in
  exposeApi (λ _, "[object Object]") logHandler ∅ api [] = Ok (∅, []).
Proof. reflexivity. Qed.

Lemma C5_witness :
  api_constructor_name Foo = Ok (VString "Foo") ∧
  exposeApi (λ _, "[object Object]") logHandler ∅ Foo []
  = Ok ({["Foo" := ["ping"]]}, [("Foo:ping", VFunction "Function" "ping" 1)]) ∧
  exposeApi (λ _, "[object Object]") logHandler {["Foo" := ["ping"]]} Foo
    [("Foo:ping", VFunction "Function" "ping" 1)]
  = Ok ({["Foo" := ["ping"]]}, [("Foo:ping", VFunction "Function" "ping" 1)]).
Proof.
  split; [reflexivity|]. split.
  - exact (proj1 (C5_exposeApi (λ _, "[object Object]") logHandler ∅ Foo []
                    (VString "Foo") eq_refl) eq_refl).
  - apply (proj2 (C5_exposeApi (λ _, "[object Object]") logHandler
                    {["Foo" := ["ping"]]} Foo
                    [("Foo:ping", VFunction "Function" "ping" 1)]
                    (VString "Foo") eq_refl)).
    eexists. reflexivity.
Defined.
End ExposureFacts.

(** ** IPC names and property names *)

Section Channels.
Import JS SharedLib.

(** X7.  Two methods share an IPC name only if they are the same method of the
    same class, as long as class names hold no colon. *)
Theorem toIpcName_inj (apiClassName1 apiClassName2 methodName1 methodName2 : string) :
  colon_free apiClassName1 = true → colon_free apiClassName2 = true →
  toIpcName apiClassName1 methodName1 = toIpcName apiClassName2 methodName2 →
  apiClassName1 = apiClassName2 ∧ methodName1 = methodName2.
Proof.
  unfold toIpcName.
  revert apiClassName2.
  assert (Hnil : ∀ t, "" +:+ t = t) by reflexivity.
  assert (Hcons : ∀ a s t, String a s +:+ t = String a (s +:+ t)) by reflexivity.
  induction apiClassName1 as [|a c1 IH]; intros [|b c2] H1 H2 Heq;
    rewrite ?Hnil, ?Hcons, ?Hnil in Heq; cbn [colon_free] in H1, H2.
  - injection Heq as ->. auto.
  - injection Heq as <- _. discriminate.
  - injection Heq as -> _. discriminate.
  - injection Heq as -> Heq.
    apply andb_prop in H1 as [_ H1]. apply andb_prop in H2 as [_ H2].
    destruct (IH c2 H1 H2 Heq) as [-> ->]. auto.
Qed.

Lemma toIpcName_inj_witness :
  (colon_free "Api" = true ∧ colon_free "Api" = true ∧
   toIpcName "Api" "ping" = toIpcName "Api" "ping") ∧
  "Api" = "Api" ∧ "ping" = "ping".
Proof.
  split; [repeat split|].
  apply (toIpcName_inj "Api" "Api" "ping" "ping"); reflexivity.
Defined.

(** X8.  The walk of [getPropertyNames] ends at the first object of the chain
    that owns a property named "hasOwnProperty": it reports the own
    property names of the objects before it, and nothing of that object
    or of those behind it. *)
Theorem getPropertyNames_stops (before after : list (list (string * value)))
    (obj : list (string * value)) :
  Forall (λ o, "hasOwnProperty" ∉ getOwnPropertyNames o) before →
  "hasOwnProperty" ∈ getOwnPropertyNames obj →
  getPropertyNames (before ++ obj :: after) = concat (getOwnPropertyNames <$> before).
Proof.
  intros Hbefore Hobj.
  induction Hbefore as [|o before Ho _ IH]; cbn [app getPropertyNames fmap list_fmap concat].
  - rewrite bool_decide_eq_true_2 by exact Hobj. reflexivity.
  - rewrite bool_decide_eq_false_2 by exact Ho. rewrite IH. reflexivity.
Qed.
End Channels.

Lemma getPropertyNames_stops_witness :
  let before := [[("state", VNumber 1)];
                 [("constructor", VFunction "Function" "Api" 0);
                  ("ping", VFunction "Function" "ping" 1)]] in
  let obj := [("hasOwnProperty", VFunction "Function" "hasOwnProperty" 2);
              ("pong", VFunction "Function" "pong" 3)] in
  let after := [[("peng", VFunction "Function" "peng" 4)]] in
  (Forall (λ o, "hasOwnProperty" ∉ SharedLib.getOwnPropertyNames o) before ∧
   "hasOwnProperty" ∈ SharedLib.getOwnPropertyNames obj) ∧
  SharedLib.getPropertyNames (before ++ obj :: after) = ["state"; "constructor"; "ping"].
Proof.
  cbv zeta.
  assert (Hbefore : Forall (λ o, "hasOwnProperty" ∉ SharedLib.getOwnPropertyNames o)
                      [[("state", VNumber 1)];
                       [("constructor", VFunction "Function" "Api" 0);
                        ("ping", VFunction "Function" "ping" 1)]]).
  { repeat constructor; cbn; intros Hin;
      repeat (apply elem_of_cons in Hin as [Hin|Hin]; [discriminate|]);
      apply elem_of_nil in Hin; exact Hin. }
  assert (Hobj : "hasOwnProperty"
                 ∈ SharedLib.getOwnPropertyNames
                     [("hasOwnProperty", VFunction "Function" "hasOwnProperty" 2);
                      ("pong", VFunction "Function" "pong" 3)])
    by (cbn; left).
  split; [split; assumption|].
  exact (getPropertyNames_stops _ [[("peng", VFunction "Function" "peng" 4)]] _
           Hbefore Hobj).
Defined.

(** ** Exposed window APIs *)

Section WindowApis.
Import JS SharedLib WindowLib.
Context `{Host}.

Lemma _installIpcListeners_fields (r : renderer) :
  _installIpcListeners r = with_listeningForIPC true r.
Proof. unfold _installIpcListeners. destruct r as [? ? ? ? []]; reflexivity. Qed.

(* The listeners exposeWindowApi installs, in order. *)
Lemma install_listeners (apiClassName : string) (api : ApiInstance) (names : list string) :
  ∀ ls : list (string * value),
    foldl (λ ls name, ls ++ [handler_of apiClassName api name]) ls names
    = ls ++ (handler_of apiClassName api <$> names).
Proof.
  induction names as [|name names IH]; intros ls; cbn [foldl fmap list_fmap].
  - rewrite app_nil_r. reflexivity.
  - rewrite IH, <- app_assoc. reflexivity.
Qed.

Lemma exposeWindowApi_new (windowApi : ApiInstance) (r : renderer) (name : value) :
  api_constructor_name windowApi = Ok name →
  map_get (_windowApiMap r) (ToString object_string name) = Absent →
  exposeWindowApi windowApi r
  = (None,
     with_listeners
       (listeners r ++ (handler_of (ToString object_string name) windowApi
                          <$> exposed_method_names windowApi))
       (with_windowApiMap
          (<[ToString object_string name := exposed_method_names windowApi]>
             (_windowApiMap r))
          (with_listeningForIPC true r))).
Proof.
  intros Hname Hnew. unfold exposeWindowApi.
  rewrite _installIpcListeners_fields. fields.
  rewrite (exposeApi_new _ _ _ _ _ name Hname Hnew).
  pose proof (install_listeners (ToString object_string name) windowApi
                (exposed_method_names windowApi) (listeners r)) as Hl.
  unfold handler_of in Hl |- *. rewrite Hl. reflexivity.
Qed.

Lemma exposeWindowApi_again (windowApi : ApiInstance) (r : renderer) (name : value) :
  api_constructor_name windowApi = Ok name →
  map_get (_windowApiMap r) (ToString object_string name) ≠ Absent →
  exposeWindowApi windowApi r = (None, with_listeningForIPC true r).
Proof.
  intros Hname Hold. unfold exposeWindowApi.
  rewrite _installIpcListeners_fields. fields.
  rewrite (exposeApi_again _ _ _ _ _ name Hname Hold).
  destruct r; reflexivity.
Qed.

Lemma exposeWindowApi_throws (windowApi : ApiInstance) (r : renderer) (e : exn) :
  api_constructor_name windowApi = Raise e →
  exposeWindowApi windowApi r = (Some e, with_listeningForIPC true r).
Proof.
  intros Hname. unfold exposeWindowApi, exposeApi.
  rewrite _installIpcListeners_fields. fields. rewrite Hname. reflexivity.
Qed.

(** X9.  Only one instance of a class is ever exposed: once a window API has
    been exposed, exposing an API whose class bears the same name, the same
    instance or another, changes nothing: no method is registered and no
    listener installed. *)
Theorem exposeWindowApi_once (first second : ApiInstance) (r : renderer) :
  api_constructor_name second = api_constructor_name first →
  exposeWindowApi second (exposeWindowApi first r).2 = exposeWindowApi first r.
Proof.
  intros Hname.
  destruct (api_constructor_name first) as [name|e] eqn:Hfirst.
  - assert (Hold : map_get (_windowApiMap (exposeWindowApi first r).2)
                     (ToString object_string name) ≠ Absent).
    { destruct (map_get (_windowApiMap r) (ToString object_string name)) eqn:Hget.
      1-3: rewrite (exposeWindowApi_again first r name Hfirst) by (rewrite Hget; discriminate);
           cbn [snd]; fields; rewrite Hget; discriminate.
      rewrite (exposeWindowApi_new first r name Hfirst Hget). cbn [snd]. fields.
      unfold map_get. rewrite lookup_insert_eq. discriminate. }
    rewrite (exposeWindowApi_again second _ name Hname Hold).
    destruct (map_get (_windowApiMap r) (ToString object_string name)) eqn:Hget.
    1-3: rewrite (exposeWindowApi_again first r name Hfirst) by (rewrite Hget; discriminate);
         reflexivity.
    rewrite (exposeWindowApi_new first r name Hfirst Hget). reflexivity.
  - rewrite (exposeWindowApi_throws first r e Hfirst). cbn [snd].
    rewrite (exposeWindowApi_throws second _ e Hname). reflexivity.
Qed.

(** X10.  Once a window API has been exposed, under a class name whose
    lookup in the map of window APIs found nothing before, a request for
    that class name is answered with one message on the response channel
    that carries the class name and the names of the exposed methods; each
    of them is served by a listener on its own IPC name. *)
Theorem api_request_answered (windowApi : ApiInstance) (r : renderer) (name : value) :
  api_constructor_name windowApi = Ok name →
  map_get (_windowApiMap r) (ToString object_string name) = Absent →
  ∃ r1,
    exposeWindowApi windowApi r = (None, r1) ∧
    listeners r1
    = listeners r ++ (handler_of (ToString object_string name) windowApi
                        <$> exposed_method_names windowApi) ∧
    sent (step r1 (ReceiveApiRequest (ToString object_string name)))
    = sent r ++ [(API_RESPONSE_IPC,
                  Registration (ToString object_string name)
                    (Own (exposed_method_names windowApi)))].
Proof.
  intros Hname Hnew. rewrite (exposeWindowApi_new _ _ _ Hname Hnew).
  eexists. split; [reflexivity|]. split; [reflexivity|].
  cbn [step]. fields. unfold on_API_REQUEST_IPC. fields.
  unfold map_get. rewrite lookup_insert_eq. reflexivity.
Qed.
End WindowApis.

Lemma exposeWindowApi_once_witness :
  SharedLib.api_constructor_name Foo = SharedLib.api_constructor_name Foo ∧
  WindowLib.exposeWindowApi (H := sample_host) Foo
    (WindowLib.exposeWindowApi (H := sample_host) Foo WindowLib.initial).2
  = WindowLib.exposeWindowApi (H := sample_host) Foo WindowLib.initial.
Proof.
  split; [reflexivity|]. apply exposeWindowApi_once. reflexivity.
Defined.

Lemma api_request_answered_witness :
  SharedLib.api_constructor_name Foo = Ok (VString "Foo") ∧
  ∃ r1,
    WindowLib.exposeWindowApi (H := sample_host) Foo WindowLib.initial = (None, r1) ∧
    WindowLib.listeners r1 = [("Foo:ping", VFunction "Function" "ping" 1)] ∧
    WindowLib.sent (WindowLib.step (H := sample_host) r1 (WindowLib.ReceiveApiRequest "Foo"))
    = [(SharedLib.API_RESPONSE_IPC, WindowLib.Registration "Foo" (JS.Own ["ping"]))].
Proof.
  split; [reflexivity|].
  exact (api_request_answered (H := sample_host) Foo WindowLib.initial (VString "Foo")
           eq_refl eq_refl).
Defined.

(** ** Overridden methods *)

Section Overrides.
Import JS SharedLib.
Context (objectToString : value → string).

Lemma toIpcName_method_inj (apiClassName methodName1 methodName2 : string) :
  toIpcName apiClassName methodName1 = toIpcName apiClassName methodName2 →
  methodName1 = methodName2.
Proof.
  unfold toIpcName. intros Heq.
  apply (inj (String.app _)) in Heq. apply (inj (String.app _)) in Heq. exact Heq.
Qed.

(* The entries a name contributes to the registered names and to the
   handlers installed. *)
Lemma exposed_entries (apiClassName : string) (api : ApiInstance) (name : string)
    (names : list string) :
  exposed_method api name →
  length (filter (λ x, x = name) (filter (exposed_method api) names))
  = length (filter (λ x, x = name) names) ∧
  filter (λ e, e.1 = toIpcName apiClassName name)
    (handler_of apiClassName api <$> filter (exposed_method api) names)
  = replicate (length (filter (λ x, x = name) names)) (handler_of apiClassName api name).
Proof.
  intros Hname.
  induction names as [|x names [IH1 IH2]]; [split; reflexivity|].
  rewrite (filter_cons (λ x, x = name)), (filter_cons (exposed_method api)).
  destruct (decide (x = name)) as [->|Hne].
  - rewrite decide_True by exact Hname. cbn [fmap list_fmap].
    rewrite !filter_cons, !decide_True by reflexivity.
    cbn [length replicate]. split; [rewrite IH1 | rewrite IH2]; reflexivity.
  - destruct (decide (exposed_method api x)) as [Hx|Hx]; [|split; assumption].
    cbn [fmap list_fmap]. rewrite !filter_cons.
    rewrite decide_False by exact Hne.
    rewrite decide_False; [split; assumption|].
    cbn [fst handler_of]. intros Heq. apply toIpcName_method_inj in Heq. congruence.
Qed.

(** X11.  When the lookup of the class name in the map finds nothing, a
    method is registered, and given a handler, once for every object of
    the prototype chain that owns a property of its name: a method that a
    subclass overrides is registered twice and gets two handlers on the
    same IPC name, both for the overriding method. *)
Theorem exposeApi_registers_per_owner (apiMap : gmap string (list string))
    (api : ApiInstance) (name : value) (methodName : string) :
  api_constructor_name api = Ok name →
  map_get apiMap (ToString objectToString name) = Absent →
  exposed_method api methodName →
  ∃ apiMap' log names,
    exposeApi objectToString logHandler apiMap api [] = Ok (apiMap', log) ∧
    apiMap' !! ToString objectToString name = Some names ∧
    length (filter (λ x, x = methodName) names)
    = length (filter (λ x, x = methodName) (getPropertyNames (api_chain api))) ∧
    filter (λ e, e.1 = toIpcName (ToString objectToString name) methodName) log
    = replicate (length (filter (λ x, x = methodName) (getPropertyNames (api_chain api))))
        (handler_of (ToString objectToString name) api methodName).
Proof.
  intros Hname Hnew Hmethod.
  rewrite (exposeApi_new _ _ _ _ _ name Hname Hnew).
  unfold logHandler.
  pose proof (install_listeners (ToString objectToString name) api
                (exposed_method_names api) []) as Hl.
  unfold handler_of in Hl. rewrite Hl. cbn [app]. fold (handler_of (ToString objectToString name) api).
  destruct (exposed_entries (ToString objectToString name) api methodName
              (getPropertyNames (api_chain api)) Hmethod) as [Hnames Hlog].
  eexists _, _, _. split; [reflexivity|].
  split; [apply lookup_insert_eq|]. split; [exact Hnames | exact Hlog].
Qed.
End Overrides.

Lemma exposeApi_registers_per_owner_witness :
  (SharedLib.api_constructor_name B_extends_A = Ok (VString "B") ∧
   exposed_method B_extends_A "ping") ∧
  ∃ apiMap' log names,
    SharedLib.exposeApi (λ _, "[object Object]") logHandler ∅ B_extends_A []
    = Ok (apiMap', log) ∧
    apiMap' !! "B" = Some names ∧
    length (filter (λ x, x = "ping") names) = 2%nat ∧
    filter (λ e, e.1 = "B:ping") log
    = [("B:ping", VFunction "Function" "ping" 1);
       ("B:ping", VFunction "Function" "ping" 1)].
Proof.
  assert (Hping : exposed_method B_extends_A "ping") by (repeat split; discriminate).
  split; [split; [reflexivity | exact Hping]|].
  exact (exposeApi_registers_per_owner (λ _, "[object Object]") ∅ B_extends_A
           (VString "B") "ping" eq_refl eq_refl Hping).
Defined.

(** ** Retrying until timeout *)

Section Retry.
Import SharedLib.
Context `{Process P}.
Context (others : nat → P → P) (attemptFunc : P → result bool * P)
  (timeoutMessage : string).

Local Abbreviation chain := retry_chain.
Local Abbreviation state_at := (state_at_check others attemptFunc).
Local Abbreviation timeout_at := (timeout_at_check others attemptFunc).

(* As long as attempts fail and the timeout is not reached, the chain goes on. *)
Lemma retry_chain_pending (p : P) (fuel : nat) :
  ∀ k : nat,
    (∀ j : nat, (k ≤ j < k + fuel)%nat → (attemptFunc (state_at j p)).1 = Ok false) →
    (∀ j : nat, (k ≤ j < k + fuel)%nat → (elapsed_at_check j < timeout_at j p)%Z) →
    chain fuel others k (elapsed_at_check k) attemptFunc timeoutMessage (state_at k p)
    = (Rescheduled (elapsed_at_check (k + fuel)), state_at (k + fuel) p).
Proof.
  induction fuel as [|fuel IH]; intros k Hfalse Hlt; cbn [retry_chain].
  - rewrite Nat.add_0_r. reflexivity.
  - unfold retryUntilTimeout.
    specialize (Hfalse k ltac:(lia)) as Hk. specialize (Hlt k ltac:(lia)) as Hk'.
    unfold timeout_at_check in Hk'.
    destruct (attemptFunc (state_at k p)) as [ok p'] eqn:Hatt. cbn [fst snd] in *.
    subst ok. cbn [negb]. rewrite bool_decide_eq_false_2 by lia.
    replace (elapsed_at_check k + _RETRY_MILLIS)%Z with (elapsed_at_check (S k))
      by (unfold elapsed_at_check, _RETRY_MILLIS; lia).
    replace (others k p') with (state_at (S k) p) by (cbn [state_at_check]; rewrite Hatt; reflexivity).
    rewrite IH.
    + replace (S k + fuel)%nat with (k + S fuel)%nat by lia. reflexivity.
    + intros j Hj. apply Hfalse. lia.
    + intros j Hj. apply Hlt. lia.
Qed.

Lemma retry_chain_timed_out (p : P) (n fuel : nat) :
  (∀ k : nat, (k ≤ n)%nat → (attemptFunc (state_at k p)).1 = Ok false) →
  first_timeout_check others attemptFunc n p →
  (n < fuel)%nat →
  chain fuel others 0 0 attemptFunc timeoutMessage p
  = (TimedOut timeoutMessage, (attemptFunc (state_at n p)).2).
Proof.
  intros Hfalse [Hreach Hbefore] Hfuel.
  assert (Hsplit : ∀ f k,
    (∀ j : nat, (k ≤ j ≤ n)%nat → (attemptFunc (state_at j p)).1 = Ok false) →
    (k ≤ n)%nat → (n - k < f)%nat →
    chain f others k (elapsed_at_check k) attemptFunc timeoutMessage (state_at k p)
    = (TimedOut timeoutMessage, (attemptFunc (state_at n p)).2)).
  { induction f as [|f IH]; intros k Hf Hk Hlt; [lia|]. cbn [retry_chain].
    unfold retryUntilTimeout.
    pose proof (Hf k ltac:(lia)) as Hfk.
    destruct (attemptFunc (state_at k p)) as [ok p'] eqn:Hatt. cbn [fst snd] in Hfk.
    subst ok. cbn [negb].
    destruct (decide (k = n)) as [->|Hne].
    - unfold timeout_at_check in Hreach. rewrite Hatt in Hreach. cbn [snd] in Hreach.
      rewrite bool_decide_eq_true_2 by exact Hreach. rewrite Hatt. reflexivity.
    - pose proof (Hbefore k ltac:(lia)) as Hb. unfold timeout_at_check in Hb.
      rewrite Hatt in Hb. cbn [snd] in Hb.
      rewrite bool_decide_eq_false_2 by lia.
      replace (elapsed_at_check k + _RETRY_MILLIS)%Z with (elapsed_at_check (S k))
        by (unfold elapsed_at_check, _RETRY_MILLIS; lia).
      replace (others k p') with (state_at (S k) p)
        by (cbn [state_at_check]; rewrite Hatt; reflexivity).
      apply IH; [intros j Hj; apply Hf; lia | lia | lia]. }
  apply (Hsplit fuel 0%nat); [intros j Hj; apply Hfalse; lia | lia | lia].
Qed.

(* A bounded configuration is reached by the elapsed time at some first check. *)
Lemma first_timeout_check_exists (p : P) (bound : Z) :
  (∀ k, timeout_at k p ≤ bound)%Z →
  ∃ n, first_timeout_check others attemptFunc n p.
Proof.
  intros Hbound.
  assert (Hex : ∃ n, (timeout_at n p ≤ elapsed_at_check n)%Z).
  { exists (Z.to_nat bound). specialize (Hbound (Z.to_nat bound)).
    unfold elapsed_at_check, _RETRY_MILLIS. lia. }
  destruct Hex as [m Hm].
  assert (Hscan : ∀ m' : nat,
    (∀ k : nat, (k < m')%nat → (elapsed_at_check k < timeout_at k p)%Z) ∨
    ∃ n, first_timeout_check others attemptFunc n p).
  { induction m' as [|m' [IH|IH]]; [left; intros k Hk; lia | | right; exact IH].
    destruct (decide (timeout_at m' p ≤ elapsed_at_check m')%Z) as [Hr|Hr].
    - right. exists m'. split; assumption.
    - left. intros k Hk. destruct (decide (k = m')) as [->|Hne]; [lia|].
      apply IH. lia. }
  destruct (Hscan m) as [Hnone|Hsome]; [|exact Hsome].
  exists m. split; assumption.
Qed.
(* With the default never changed, the check that has accumulated 4000 ms
   is the first to reach it. *)
Lemma first_timeout_check_default (p : P) :
  (∀ k, timeout_at k p = _bindingTimeoutMillis_default) →
  first_timeout_check others attemptFunc 80 p.
Proof.
  intros Hdefault. split.
  - rewrite Hdefault. unfold elapsed_at_check, _RETRY_MILLIS, _bindingTimeoutMillis_default.
    lia.
  - intros k Hk. rewrite Hdefault.
    unfold elapsed_at_check, _RETRY_MILLIS, _bindingTimeoutMillis_default. lia.
Qed.

(* What setIpcBindingTimeout stores while timer k is pending is what check
   k + 1 compares against. *)
Lemma timeout_at_check_after_set (p : P) (k : nat) (millis : Z) (before : P → P) :
  (∀ q, _bindingTimeoutMillis (attemptFunc q).2 = _bindingTimeoutMillis q) →
  (∀ q, others k q = setIpcBindingTimeout millis (before q)) →
  timeout_at (S k) p = millis.
Proof.
  intros Hkeep Hset. unfold timeout_at_check. rewrite Hkeep. cbn [state_at_check].
  rewrite Hset. unfold setIpcBindingTimeout. apply bindingTimeoutMillis_set.
Qed.

(** C6, as the code has it.  When every attempt returns false, the chain
    started by [retryUntilTimeout 0 attemptFunc timeoutMessage] throws an
    Error with the given message at the first check whose accumulated
    elapsed time (50 ms per retry) reaches the binding timeout as
    configured at that check, and is still pending before; such a check
    exists, so that the Error is thrown in the end, whenever the
    configured values stay bounded; it is the one at 4000 ms when the
    default is never changed; and the value a [setIpcBindingTimeout] call
    stores while a timer is pending is the one the next check reads. *)
Theorem C6_retry_until_timeout (p : P) :
  (∀ k, (attemptFunc (state_at k p)).1 = Ok false) →
  (∀ n, first_timeout_check others attemptFunc n p →
     (∀ fuel, (n < fuel)%nat →
        chain fuel others 0 0 attemptFunc timeoutMessage p
        = (TimedOut timeoutMessage, (attemptFunc (state_at n p)).2)) ∧
     (∀ fuel, (fuel ≤ n)%nat →
        chain fuel others 0 0 attemptFunc timeoutMessage p
        = (Rescheduled (elapsed_at_check fuel), state_at fuel p))) ∧
  (∀ bound, (∀ k, timeout_at k p ≤ bound)%Z →
     ∃ n, first_timeout_check others attemptFunc n p) ∧
  ((∀ k, timeout_at k p = _bindingTimeoutMillis_default) →
     first_timeout_check others attemptFunc 80 p) ∧
  (∀ k millis before,
     (∀ q, _bindingTimeoutMillis (attemptFunc q).2 = _bindingTimeoutMillis q) →
     (∀ q, others k q = setIpcBindingTimeout millis (before q)) →
     timeout_at (S k) p = millis).
Proof.
  intros Hfalse. split; [|split; [|split]].
  - intros n Hfirst. split; intros fuel Hfuel.
    + apply retry_chain_timed_out; [intros k _; apply Hfalse | exact Hfirst | exact Hfuel].
    + apply (retry_chain_pending p fuel 0).
      * intros j _. apply Hfalse.
      * intros j Hj. apply Hfirst. lia.
  - apply first_timeout_check_exists.
  - apply first_timeout_check_default.
  - apply timeout_at_check_after_set.
Qed.
End Retry.

Section RetrySuccess.
Import SharedLib.
Context `{Process P}.
Context (others : nat → P → P) (attemptFunc : P → result bool * P)
  (timeoutMessage : string).

Local Abbreviation state_at := (state_at_check others attemptFunc).
Local Abbreviation timeout_at := (timeout_at_check others attemptFunc).

(** X12.  The chain of retries ends at the first attempt that succeeds, without
    an error, with the state that attempt left, provided no earlier check
    had reached the binding timeout.  The attempt is made before the elapsed
    time is looked at: a success at the very check at which the timeout is
    reached still counts. *)
Theorem retry_attains_at_first_success (p : P) (n : nat) :
  (attemptFunc (state_at n p)).1 = Ok true →
  (∀ k : nat, (k < n)%nat →
     (attemptFunc (state_at k p)).1 = Ok false ∧
     (elapsed_at_check k < timeout_at k p)%Z) →
  ∀ fuel : nat, (n < fuel)%nat →
    retry_chain fuel others 0 0 attemptFunc timeoutMessage p
    = (Attained, (attemptFunc (state_at n p)).2).
Proof.
  intros Hok Hbefore fuel Hfuel.
  assert (Hgo : ∀ f k,
    (k ≤ n)%nat → (n - k < f)%nat →
    retry_chain f others k (elapsed_at_check k) attemptFunc timeoutMessage (state_at k p)
    = (Attained, (attemptFunc (state_at n p)).2)).
  { induction f as [|f IH]; intros k Hk Hlt; [lia|]. cbn [retry_chain].
    unfold retryUntilTimeout.
    destruct (decide (k = n)) as [->|Hne].
    - destruct (attemptFunc (state_at n p)) as [ok p'] eqn:Hatt. cbn [fst snd] in *.
      subst ok. reflexivity.
    - destruct (Hbefore k ltac:(lia)) as [Hfail Hlt']. unfold timeout_at_check in Hlt'.
      destruct (attemptFunc (state_at k p)) as [ok p'] eqn:Hatt. cbn [fst snd] in *.
      subst ok. cbn [negb]. rewrite bool_decide_eq_false_2 by lia.
      replace (elapsed_at_check k + _RETRY_MILLIS)%Z with (elapsed_at_check (S k))
        by (unfold elapsed_at_check, _RETRY_MILLIS; lia).
      replace (others k p') with (state_at (S k) p)
        by (cbn [state_at_check]; rewrite Hatt; reflexivity).
      apply IH; lia. }
  apply (Hgo fuel 0%nat); lia.
Qed.
End RetrySuccess.

Section RetryFacts.
Import SharedLib WindowLib.

(* With nothing else going on, the renderer stays as it started while a
   bind for an API that is never exposed retries. *)
Lemma state_at_check_idle (p : nat) (k : nat) :
  state_at_check idle (_attemptBindMainApi (H := sample_host) "Api" None p)
    k initial = initial.
Proof.
  induction k as [|k IH]; [reflexivity|]. cbn [state_at_check]. rewrite IH. reflexivity.
Qed.

(* While the application keeps raising the timeout, check k finds it set
   past its own elapsed time. *)
Lemma keeps_raising_timeout (k : nat) :
  (elapsed_at_check k < timeout_at_check keeps_raising never_bound k initial)%Z.
Proof.
  unfold timeout_at_check, never_bound. cbn [snd].
  destruct k as [|k]; [vm_compute; reflexivity|].
  cbn [state_at_check snd]. unfold keeps_raising, setIpcBindingTimeout.
  rewrite bindingTimeoutMillis_set. unfold elapsed_at_check, _RETRY_MILLIS. lia.
Qed.

(** C6 as stated fails: every attempt returns false, and yet no Error is
    ever thrown when the application keeps raising the binding timeout
    while the bind retries: however many checks are made, the chain is
    left with its next call pending. *)
Lemma C6_timeout_raised_never_throws :
  (∀ k, (never_bound (state_at_check keeps_raising never_bound k initial)).1 = Ok false) ∧
  ∀ fuel,
    retry_chain fuel keeps_raising 0 0 never_bound (timeoutMessage "Api") initial
    = (Rescheduled (elapsed_at_check fuel),
       state_at_check keeps_raising never_bound fuel initial).
Proof.
  split; [reflexivity|]. intros fuel.
  apply (retry_chain_pending keeps_raising never_bound (timeoutMessage "Api")
           initial fuel 0).
  - reflexivity.
  - intros j _. apply keeps_raising_timeout.
Qed.
End RetryFacts.

Lemma C6_witness :
  let attempt := WindowLib._attemptBindMainApi (H := sample_host) "Api" None 0 in
  (∀ k, (attempt (state_at_check idle attempt k WindowLib.initial)).1 = Ok false) ∧
  SharedLib.retry_chain 81 idle 0 0 attempt (WindowLib.timeoutMessage "Api")
    WindowLib.initial
  = (SharedLib.TimedOut "Timed out waiting to bind main API 'Api'", WindowLib.initial) ∧
  SharedLib.retry_chain 80 idle 0 0 attempt (WindowLib.timeoutMessage "Api")
    WindowLib.initial
  = (SharedLib.Rescheduled 4000, WindowLib.initial).
Proof.
  cbv zeta.
  assert (Hfalse : ∀ k, (WindowLib._attemptBindMainApi (H := sample_host) "Api" None 0
                           (state_at_check idle
                              (WindowLib._attemptBindMainApi (H := sample_host) "Api" None 0)
                              k WindowLib.initial)).1 = Ok false)
    by (intros k; rewrite state_at_check_idle; reflexivity).
  split; [exact Hfalse|].
  destruct (C6_retry_until_timeout idle
              (WindowLib._attemptBindMainApi (H := sample_host) "Api" None 0)
              (WindowLib.timeoutMessage "Api") WindowLib.initial Hfalse)
    as (Hthrow & _ & Hdefault & _).
  assert (Hfirst : first_timeout_check idle
                     (WindowLib._attemptBindMainApi (H := sample_host) "Api" None 0)
                     80 WindowLib.initial).
  { apply Hdefault. intros k. unfold timeout_at_check. rewrite state_at_check_idle.
    reflexivity. }
  destruct (Hthrow 80%nat Hfirst) as [Hout Hpending].
  split.
  - rewrite (Hout 81%nat) by lia. rewrite state_at_check_idle. reflexivity.
  - rewrite (Hpending 80%nat) by lia. rewrite state_at_check_idle. reflexivity.
Defined.

Lemma retry_attains_at_first_success_witness :
  let attempt := WindowLib._attemptBindMainApi (H := sample_host) "Api" None 0 in
  let others := lowers_then_receives in
  ((attempt (state_at_check others attempt 2 WindowLib.initial)).1 = Ok true ∧
   (∀ k : nat, (k < 2)%nat →
      (attempt (state_at_check others attempt k WindowLib.initial)).1 = Ok false ∧
      (elapsed_at_check k < timeout_at_check others attempt k WindowLib.initial)%Z) ∧
   (timeout_at_check others attempt 2 WindowLib.initial ≤ elapsed_at_check 2)%Z) ∧
  SharedLib.retry_chain 3 others 0 0 attempt (WindowLib.timeoutMessage "Api")
    WindowLib.initial
  = (SharedLib.Attained, (attempt (state_at_check others attempt 2 WindowLib.initial)).2).
Proof.
  cbv zeta.
  set (attempt := WindowLib._attemptBindMainApi (H := sample_host) "Api" None 0).
  assert (Hok : (attempt (state_at_check lowers_then_receives attempt 2
                            WindowLib.initial)).1 = Ok true)
    by (vm_compute; reflexivity).
  assert (Hbefore : ∀ k : nat, (k < 2)%nat →
    (attempt (state_at_check lowers_then_receives attempt k WindowLib.initial)).1
    = Ok false ∧
    (elapsed_at_check k
     < timeout_at_check lowers_then_receives attempt k WindowLib.initial)%Z).
  { intros k Hk. destruct k as [|[|k]]; [split; vm_compute; reflexivity.. | lia]. }
  split; [split; [exact Hok | split; [exact Hbefore | vm_compute; discriminate]]|].
  apply (retry_attains_at_first_success lowers_then_receives attempt
           (WindowLib.timeoutMessage "Api") WindowLib.initial 2 Hok Hbefore 3).
  lia.
Defined.

(** ** Binding to a main API *)

Section Binding.
Import JS SharedLib WindowLib.
Context `{Host}.

(* What one check of a bind does. *)
Lemma retry_bind_cases (apiClassName : string) (restorer : option RestorerFunction)
    (p : nat) (elapsed : Z) (message : string) (r : renderer) :
  (∃ methodNames,
     registry_lookup r apiClassName = Names methodNames ∧
     retryUntilTimeout elapsed (_attemptBindMainApi apiClassName restorer p) message r
     = (Attained,
        bound_with p apiClassName
          (new_proxy (nextObject r) apiClassName methodNames restorer) r)) ∨
  (registry_lookup r apiClassName = NoNames ∧
   (bindingTimeoutMillis r ≤ elapsed)%Z ∧
   retryUntilTimeout elapsed (_attemptBindMainApi apiClassName restorer p) message r
   = (TimedOut message, r)) ∨
  (registry_lookup r apiClassName = NoNames ∧
   (elapsed < bindingTimeoutMillis r)%Z ∧
   retryUntilTimeout elapsed (_attemptBindMainApi apiClassName restorer p) message r
   = (Rescheduled (elapsed + _RETRY_MILLIS), r)) ∨
  (registry_lookup r apiClassName = NotIterable ∧
   retryUntilTimeout elapsed (_attemptBindMainApi apiClassName restorer p) message r
   = (Threw TypeError, r)).
Proof.
  unfold retryUntilTimeout, _attemptBindMainApi.
  destruct (registry_lookup r apiClassName) as [|methodNames|] eqn:Hm.
  - right. cbn [negb _bindingTimeoutMillis renderer_process].
    destruct (decide (bindingTimeoutMillis r ≤ elapsed)%Z) as [Hle|Hgt].
    + left. rewrite bool_decide_eq_true_2 by exact Hle. auto.
    + right. left. rewrite bool_decide_eq_false_2 by exact Hgt. split; [reflexivity|].
      split; [lia | reflexivity].
  - left. exists methodNames. split; reflexivity.
  - right. right. right. split; reflexivity.
Qed.

Lemma cache_lookup_eq (r r' : renderer) (apiClassName : string) :
  _boundMainApis r' = _boundMainApis r →
  cache_lookup r' apiClassName = cache_lookup r apiClassName.
Proof. intros Heq. unfold cache_lookup. rewrite Heq. reflexivity. Qed.

Lemma registry_lookup_eq (r r' : renderer) (apiClassName : string) :
  _mainApiMap r' = _mainApiMap r →
  registry_lookup r' apiClassName = registry_lookup r apiClassName.
Proof. intros Heq. unfold registry_lookup. rewrite Heq. reflexivity. Qed.

(* An entry of the cache is what the lookup of its name finds. *)
Lemma cache_lookup_own (r : renderer) (apiClassName : string) (boundApi : MainApiBinding) :
  entries (_boundMainApis r) !! apiClassName = Some boundApi →
  cache_lookup r apiClassName = Some (Proxy boundApi).
Proof. intros Hc. unfold cache_lookup, dict_get. rewrite Hc. reflexivity. Qed.

(* bindMainApi, by what it finds. *)
Lemma bindMainApi_cases (apiClassName : string) (restorer : option RestorerFunction)
    (r : renderer) :
  let p := nextObject r in
  let r0 := with_nextObject (S p) (with_listeningForIPC true r) in
  let r1 := send API_REQUEST_IPC (ApiName apiClassName) r0 in
  (bindMainApi apiClassName restorer r).1 = p ∧
  ((∃ cached,
      cache_lookup r apiClassName = Some cached ∧
      (bindMainApi apiClassName restorer r).2 = resolve p cached r0) ∨
   (cache_lookup r apiClassName = None ∧
    ∃ methodNames,
      registry_lookup r apiClassName = Names methodNames ∧
      (bindMainApi apiClassName restorer r).2
      = bound_with p apiClassName (new_proxy (S p) apiClassName methodNames restorer) r1) ∨
   (cache_lookup r apiClassName = None ∧
    registry_lookup r apiClassName = NoNames ∧ (bindingTimeoutMillis r ≤ 0)%Z ∧
    (bindMainApi apiClassName restorer r).2
    = reject p (TimeoutError (timeoutMessage apiClassName)) r1) ∨
   (cache_lookup r apiClassName = None ∧
    registry_lookup r apiClassName = NotIterable ∧
    (bindMainApi apiClassName restorer r).2 = reject p (Exception TypeError) r1) ∨
   (cache_lookup r apiClassName = None ∧
    registry_lookup r apiClassName = NoNames ∧ (0 < bindingTimeoutMillis r)%Z ∧
    (bindMainApi apiClassName restorer r).2
    = setTimeout (retry_timer _RETRY_MILLIS apiClassName restorer p) r1)).
Proof.
  cbv zeta. unfold bindMainApi. rewrite _installIpcListeners_fields. fields.
  rewrite (cache_lookup_eq r _ apiClassName) by reflexivity.
  destruct (cache_lookup r apiClassName) as [cached|]; [split; [reflexivity|]; left; eauto|].
  match goal with |- context [retryUntilTimeout ?el ?att ?msg ?r0] =>
    destruct (retry_bind_cases apiClassName restorer (nextObject r) el msg r0)
      as [(names & Hr & ->)|[(Hr & Ht & ->)|[(Hr & Ht & ->)|(Hr & ->)]]] end;
    cbn [fst snd]; (split; [reflexivity|]); right;
    rewrite (registry_lookup_eq r) in Hr by reflexivity; fields.
  - left. split; [reflexivity|]. exists names. split; [exact Hr | reflexivity].
  - right. left. auto.
  - right. right. right. auto.
  - right. right. left. auto.
Qed.

(* A timer that fires, by what its check finds. *)
Lemma run_timer_cases (t : timer) (r : renderer) :
  (∃ methodNames,
     registry_lookup r (timer_apiClassName t) = Names methodNames ∧
     run_timer t r
     = bound_with (timer_resolve t) (timer_apiClassName t)
         (new_proxy (nextObject r) (timer_apiClassName t) methodNames (timer_restorer t))
         r) ∨
  (registry_lookup r (timer_apiClassName t) = NoNames ∧
   (bindingTimeoutMillis r ≤ timer_elapsedMillis t)%Z ∧
   run_timer t r
   = with_uncaught (uncaught r ++ [TimeoutError (timer_timeoutMessage t)]) r) ∨
  (registry_lookup r (timer_apiClassName t) = NotIterable ∧
   run_timer t r = with_uncaught (uncaught r ++ [Exception TypeError]) r) ∨
  (registry_lookup r (timer_apiClassName t) = NoNames ∧
   (timer_elapsedMillis t < bindingTimeoutMillis r)%Z ∧
   ∃ elapsed,
     run_timer t r
     = setTimeout {| timer_elapsedMillis := elapsed;
                     timer_apiClassName := timer_apiClassName t;
                     timer_restorer := timer_restorer t;
                     timer_resolve := timer_resolve t;
                     timer_timeoutMessage := timer_timeoutMessage t |} r).
Proof.
  unfold run_timer.
  destruct (retry_bind_cases (timer_apiClassName t) (timer_restorer t) (timer_resolve t)
              (timer_elapsedMillis t) (timer_timeoutMessage t) r)
    as [(names & Hr & ->)|[(Hr & Ht & ->)|[(Hr & Ht & ->)|(Hr & ->)]]]; eauto 10.
Qed.

Lemma resolve_promises (p : nat) (v : bound) (r : renderer) (q : nat) :
  q ≠ p → promises (resolve p v r) !! q = promises r !! q.
Proof.
  intros Hq. unfold resolve. destruct (promises r !! p); fields; [reflexivity|].
  apply lookup_insert_ne. congruence.
Qed.

Lemma resolve_frame (p : nat) (v : bound) (r : renderer) :
  timers (resolve p v r) = timers r ∧
  nextObject (resolve p v r) = nextObject r ∧
  sent (resolve p v r) = sent r ∧
  uncaught (resolve p v r) = uncaught r ∧
  _mainApiMap (resolve p v r) = _mainApiMap r ∧
  _boundMainApis (resolve p v r) = _boundMainApis r.
Proof. unfold resolve. destruct (promises r !! p); fields; auto 10. Qed.

Lemma reject_promises (p : nat) (e : failure) (r : renderer) (q : nat) :
  q ≠ p → promises (reject p e r) !! q = promises r !! q.
Proof.
  intros Hq. unfold reject. destruct (promises r !! p); fields; [reflexivity|].
  apply lookup_insert_ne. congruence.
Qed.

Lemma reject_frame (p : nat) (e : failure) (r : renderer) :
  timers (reject p e r) = timers r ∧
  nextObject (reject p e r) = nextObject r ∧
  sent (reject p e r) = sent r ∧
  uncaught (reject p e r) = uncaught r ∧
  _mainApiMap (reject p e r) = _mainApiMap r ∧
  _boundMainApis (reject p e r) = _boundMainApis r.
Proof. unfold reject. destruct (promises r !! p); fields; auto 10. Qed.

(* What resolve and reject do to the promise they are given. *)
Lemma resolve_own (p : nat) (v : bound) (r : renderer) :
  promises (resolve p v r) !! p
  = match promises r !! p with
    | Some s => Some s
    | None => Some (Resolved v)
    end.
Proof.
  unfold resolve. destruct (promises r !! p) eqn:Hp; fields; [exact Hp|].
  apply lookup_insert_eq.
Qed.

Lemma reject_own (p : nat) (e : failure) (r : renderer) :
  promises (reject p e r) !! p
  = match promises r !! p with
    | Some s => Some s
    | None => Some (Rejected e)
    end.
Proof.
  unfold reject. destruct (promises r !! p) eqn:Hp; fields; [exact Hp|].
  apply lookup_insert_eq.
Qed.

Lemma is_Some_resolve (p : nat) (v : bound) (r : renderer) (q : nat) :
  is_Some (promises (resolve p v r) !! q) → is_Some (promises r !! q) ∨ q = p.
Proof.
  destruct (decide (q = p)) as [->|Hne]; [auto|].
  rewrite resolve_promises by exact Hne. auto.
Qed.

Lemma is_Some_reject (p : nat) (e : failure) (r : renderer) (q : nat) :
  is_Some (promises (reject p e r) !! q) → is_Some (promises r !! q) ∨ q = p.
Proof.
  destruct (decide (q = p)) as [->|Hne]; [auto|].
  rewrite reject_promises by exact Hne. auto.
Qed.

(* What the renderer is after a bind has built its proxy. *)
Lemma bound_with_frame (p : nat) (apiClassName : string) (boundApi : MainApiBinding)
    (r : renderer) :
  let r' := bound_with p apiClassName boundApi r in
  timers r' = timers r ∧ nextObject r' = S (nextObject r) ∧ sent r' = sent r ∧
  uncaught r' = uncaught r ∧ _mainApiMap r' = _mainApiMap r ∧
  _boundMainApis r' = dict_set (λ _, true) apiClassName boundApi (_boundMainApis r) ∧
  (∀ q, q ≠ p → promises r' !! q = promises r !! q) ∧
  promises r' !! p = match promises r !! p with
                     | Some s => Some s
                     | None => Some (Resolved (Proxy boundApi))
                     end.
Proof.
  cbv zeta. unfold bound_with.
  match goal with |- context [resolve p ?v ?r0] =>
    destruct (resolve_frame p v r0) as (-> & -> & -> & -> & -> & ->);
    pose proof (resolve_own p v r0) as Hown;
    pose proof (resolve_promises p v r0) as Hothers end.
  fields. repeat split; auto.
Qed.

(* Exposing a window API touches neither the binds nor the messages. *)
Lemma exposeWindowApi_frame (windowApi : ApiInstance) (r : renderer) :
  let r' := (exposeWindowApi windowApi r).2 in
  timers r' = timers r ∧ nextObject r' = nextObject r ∧ sent r' = sent r ∧
  uncaught r' = uncaught r ∧ _mainApiMap r' = _mainApiMap r ∧
  _boundMainApis r' = _boundMainApis r ∧ promises r' = promises r ∧
  bindingTimeoutMillis r' = bindingTimeoutMillis r.
Proof.
  cbv zeta. unfold exposeWindowApi. rewrite _installIpcListeners_fields. fields.
  destruct (exposeApi _ _ _ _ _) as [[apiMap ls]|e]; cbn [snd]; fields; auto 10.
Qed.

(* A timer callback leaves the registry and the messages sent alone, keeps
   the pending timers and settles no promise but its own. *)
Lemma run_timer_frame (t : timer) (r : renderer) :
  let r' := run_timer t r in
  _mainApiMap r' = _mainApiMap r ∧ sent r' = sent r ∧
  (∃ new, timers r' = timers r ++ new ∧
          Forall (λ t', timer_resolve t' = timer_resolve t) new) ∧
  (nextObject r ≤ nextObject r')%nat ∧
  (∀ q, q ≠ timer_resolve t → promises r' !! q = promises r !! q) ∧
  (∀ q, is_Some (promises r' !! q) → is_Some (promises r !! q) ∨ q = timer_resolve t).
Proof.
  cbv zeta.
  destruct (run_timer_cases t r)
    as [(names & _ & ->)|[(_ & _ & ->)|[(_ & ->)|(_ & _ & elapsed & ->)]]].
  - match goal with |- context [bound_with ?p ?n ?b r] =>
      destruct (bound_with_frame p n b r) as (Ht & Hn & Hs & _ & Hm & _ & Hp & Hown) end.
    rewrite Ht, Hn, Hs, Hm. repeat split; auto.
    + exists []. rewrite app_nil_r. auto.
    + intros q Hq. destruct (decide (q = timer_resolve t)) as [->|Hne]; [auto|].
      rewrite Hp in Hq by exact Hne. auto.
  - fields. repeat split; auto. exists []. rewrite app_nil_r. auto.
  - fields. repeat split; auto. exists []. rewrite app_nil_r. auto.
  - fields. repeat split; auto. eexists. split; [reflexivity|].
    constructor; [reflexivity | constructor].
Qed.

(* bindMainApi, when the cache holds something for the name. *)
Lemma bindMainApi_cached (apiClassName : string) (restorer : option RestorerFunction)
    (r : renderer) (cached : bound) :
  cache_lookup r apiClassName = Some cached →
  bindMainApi apiClassName restorer r
  = (nextObject r,
     resolve (nextObject r) cached
       (with_nextObject (S (nextObject r)) (with_listeningForIPC true r))).
Proof.
  intros Hc. unfold bindMainApi. rewrite _installIpcListeners_fields. fields.
  rewrite (cache_lookup_eq r _ apiClassName) by reflexivity. rewrite Hc. reflexivity.
Qed.


Lemma allocated_below_step (r : renderer) (e : event) :
  allocated_below r → allocated_below (step r e).
Proof.
  intros [Hp Ht].
  assert (Hgrow : ∀ r' : renderer,
    (nextObject r ≤ nextObject r')%nat →
    Forall (λ t, (timer_resolve t < nextObject r')%nat) (timers r)).
  { intros r' Hle. eapply Forall_impl; [exact Ht|]. cbn. intros; lia. }
  destruct e as [name restorer|api|millis| |name|api]; cbn [step].
  - (* bindMainApi *)
    pose proof (bindMainApi_cases name restorer r) as [_ Hcases]. cbv zeta in Hcases.
    destruct Hcases as [(c & _ & ->)|[(_ & n & _ & ->)|[(_ & _ & _ & ->)
                       |[(_ & _ & ->)|(_ & _ & _ & ->)]]]].
    + match goal with |- allocated_below (resolve ?p ?v ?r0) =>
        destruct (resolve_frame p v r0) as (Htm & Hn & _);
        pose proof (is_Some_resolve p v r0) as Hq end.
      split; rewrite ?Htm, Hn; fields.
      * intros q Hq'. destruct (Hq q Hq') as [Hold| ->]; [specialize (Hp q Hold)|]; lia.
      * eapply Forall_impl; [exact Ht|]. cbn. intros; lia.
    + match goal with |- allocated_below (bound_with ?p ?k ?b ?r0) =>
        destruct (bound_with_frame p k b r0) as (Htm & Hn & _ & _ & _ & _ & Hothers & _)
      end.
      split; rewrite ?Htm, Hn; fields.
      * intros q Hq'. destruct (decide (q = nextObject r)) as [->|Hne]; [lia|].
        rewrite Hothers in Hq' by exact Hne. fields. specialize (Hp q Hq'). lia.
      * eapply Forall_impl; [exact Ht|]. cbn. intros; lia.
    + match goal with |- allocated_below (reject ?p ?v ?r0) =>
        destruct (reject_frame p v r0) as (Htm & Hn & _);
        pose proof (is_Some_reject p v r0) as Hq end.
      split; rewrite ?Htm, Hn; fields.
      * intros q Hq'. destruct (Hq q Hq') as [Hold| ->]; [specialize (Hp q Hold)|]; lia.
      * eapply Forall_impl; [exact Ht|]. cbn. intros; lia.
    + match goal with |- allocated_below (reject ?p ?v ?r0) =>
        destruct (reject_frame p v r0) as (Htm & Hn & _);
        pose proof (is_Some_reject p v r0) as Hq end.
      split; rewrite ?Htm, Hn; fields.
      * intros q Hq'. destruct (Hq q Hq') as [Hold| ->]; [specialize (Hp q Hold)|]; lia.
      * eapply Forall_impl; [exact Ht|]. cbn. intros; lia.
    + split; fields.
      * intros q Hq'. specialize (Hp q Hq'). lia.
      * apply Forall_app. split.
        -- eapply Forall_impl; [exact Ht|]. cbn. intros; lia.
        -- constructor; [cbn; lia | constructor].
  - (* exposeWindowApi *)
    destruct (exposeWindowApi_frame api r) as (Htm & Hn & _ & _ & _ & _ & Hpr & _).
    split; rewrite ?Htm, ?Hpr, Hn; assumption.
  - split; fields; assumption.
  - (* a timer fires *)
    destruct (timers r) as [|t pending] eqn:Htimers;
      [split; [assumption | rewrite Htimers; exact Ht]|].
    apply Forall_cons in Ht as [Ht0 Ht].
    pose proof (run_timer_frame t (with_timers pending r)) as Hframe.
    cbv zeta in Hframe. fields.
    destruct Hframe as (_ & _ & (new & Htm & Hnew) & Hn & _ & Hq).
    split.
    + intros p Hp'. destruct (Hq p Hp') as [Hold| ->]; [specialize (Hp p Hold)|]; lia.
    + rewrite Htm. apply Forall_app. split.
      * eapply Forall_impl; [exact Ht|]. cbn. intros; lia.
      * eapply Forall_impl; [exact Hnew|]. cbn. intros t' ->. lia.
  - destruct (_listeningForIPC r); [|split; assumption].
    unfold on_API_REQUEST_IPC. split; fields; assumption.
  - destruct (_listeningForIPC r); [|split; assumption].
    unfold on_API_RESPONSE_IPC. split; fields; assumption.
Qed.

Lemma allocated_below_run (events : list event) :
  ∀ r, allocated_below r → allocated_below (run r events).
Proof.
  induction events as [|e events IH]; intros r Hr; [exact Hr|].
  apply IH, allocated_below_step, Hr.
Qed.

Lemma allocated_below_initial : allocated_below initial.
Proof.
  split; [|constructor]. intros p [x Hp]. cbn in Hp. rewrite lookup_empty in Hp.
  discriminate.
Qed.

Lemma run_app (r : renderer) (events1 events2 : list event) :
  run r (events1 ++ events2) = run (run r events1) events2.
Proof. apply foldl_app. Qed.

(* Caching under a name leaves the entries of the other names alone. *)
Lemma dict_set_entries_ne {V} (is_object : V → bool) (k name : string) (v : V)
    (d : dict V) :
  k ≠ name → entries (dict_set is_object name v d) !! k = entries d !! k.
Proof.
  intros Hk. unfold dict_set.
  destruct (String.eqb name "__proto__"); [destruct (is_object v); reflexivity|].
  cbn [entries]. apply lookup_insert_ne. congruence.
Qed.


(* Once a proxy is cached for a name and no bind for that name is waiting,
   whatever happens next leaves it cached. *)
Lemma bound_stays_step (r : renderer) (e : event) (apiClassName : string)
    (boundApi : MainApiBinding) :
  entries (_boundMainApis r) !! apiClassName = Some boundApi →
  no_bind_pending apiClassName r →
  entries (_boundMainApis (step r e)) !! apiClassName = Some boundApi ∧
  no_bind_pending apiClassName (step r e).
Proof.
  unfold no_bind_pending. intros Hc Hnone.
  destruct e as [name restorer|api|millis| |name|api]; cbn [step].
  - pose proof (bindMainApi_cases name restorer r) as [_ Hcases]. cbv zeta in Hcases.
    assert (Hne : cache_lookup r name = None → name ≠ apiClassName).
    { intros Hmiss ->. rewrite (cache_lookup_own _ _ _ Hc) in Hmiss. discriminate. }
    destruct Hcases as [(c & _ & ->)|[(Hmiss & n & _ & ->)|[(_ & _ & _ & ->)
                       |[(_ & _ & ->)|(Hmiss & _ & _ & ->)]]]].
    + match goal with |- context [resolve ?p ?v ?r0] =>
        destruct (resolve_frame p v r0) as (-> & _ & _ & _ & _ & ->) end.
      fields. auto.
    + match goal with |- context [bound_with ?p ?k ?b ?r0] =>
        destruct (bound_with_frame p k b r0) as (-> & _ & _ & _ & _ & -> & _) end.
      fields. rewrite dict_set_entries_ne by (apply not_eq_sym, Hne, Hmiss). auto.
    + match goal with |- context [reject ?p ?v ?r0] =>
        destruct (reject_frame p v r0) as (-> & _ & _ & _ & _ & ->) end.
      fields. auto.
    + match goal with |- context [reject ?p ?v ?r0] =>
        destruct (reject_frame p v r0) as (-> & _ & _ & _ & _ & ->) end.
      fields. auto.
    + fields. split; [exact Hc|].
      apply Forall_app. split; [exact Hnone|].
      constructor; [exact (Hne Hmiss) | constructor].
  - destruct (exposeWindowApi_frame api r) as (-> & _ & _ & _ & _ & -> & _). auto.
  - cbn. auto.
  - destruct (timers r) as [|t pending] eqn:Htimers; [rewrite Htimers; auto|].
    apply Forall_cons in Hnone as [Hne Hnone].
    destruct (run_timer_cases t (with_timers pending r))
      as [(names & _ & ->)|[(_ & _ & ->)|[(_ & ->)|(_ & _ & elapsed & ->)]]].
    + match goal with |- context [bound_with ?p ?k ?b ?r0] =>
        destruct (bound_with_frame p k b r0) as (-> & _ & _ & _ & _ & -> & _) end.
      fields. rewrite dict_set_entries_ne by congruence. auto.
    + fields. auto.
    + fields. auto.
    + fields. split; [exact Hc|].
      apply Forall_app. split; [exact Hnone|]. constructor; [exact Hne | constructor].
  - destruct (_listeningForIPC r); [|auto]. unfold on_API_REQUEST_IPC. fields. auto.
  - destruct (_listeningForIPC r); [|auto]. unfold on_API_RESPONSE_IPC. fields. auto.
Qed.

Lemma bound_stays (events : list event) :
  ∀ (r : renderer) (apiClassName : string) (boundApi : MainApiBinding),
    entries (_boundMainApis r) !! apiClassName = Some boundApi →
    no_bind_pending apiClassName r →
    entries (_boundMainApis (run r events)) !! apiClassName = Some boundApi.
Proof.
  induction events as [|e events IH]; intros r name boundApi Hc Hnone; [exact Hc|].
  destruct (bound_stays_step r e name boundApi Hc Hnone) as [Hc' Hnone'].
  exact (IH _ _ _ Hc' Hnone').
Qed.





(* A bind for a name under which a proxy is cached. *)
Lemma rebind_cached (events : list event) (apiClassName : string)
    (restorer : option RestorerFunction) (boundApi : MainApiBinding) :
  let r := run initial events in
  entries (_boundMainApis r) !! apiClassName = Some boundApi →
  let '(p, r') := bindMainApi apiClassName restorer r in
  promises r' !! p = Some (Resolved (Proxy boundApi)) ∧
  sent r' = sent r ∧
  _boundMainApis r' = _boundMainApis r ∧
  _mainApiMap r' = _mainApiMap r ∧
  timers r' = timers r.
Proof.
  intros r Hc.
  rewrite (bindMainApi_cached _ _ _ _ (cache_lookup_own _ _ _ Hc)).
  pose proof (allocated_below_run events initial allocated_below_initial) as [Hp _].
  fold r in Hp. unfold resolve. fields.
  destruct (promises r !! nextObject r) eqn:Hn.
  - specialize (Hp (nextObject r) ltac:(eauto)). lia.
  - fields. rewrite lookup_insert_eq. repeat split; reflexivity.
Qed.

(** C8, as the code has it.  In every state the renderer can reach in
    which a proxy is cached for an API name, a [bindMainApi] call for that
    name resolves its promise at once with that very proxy, sends nothing,
    and leaves the cache, the registry and the pending timers as they
    were; and unless another bind for that name is still waiting on a
    timer, the same proxy stays cached whatever happens later, and every
    later call for that name is resolved with it, sends nothing and leaves
    the cache as it was. *)
Theorem C8_rebind_returns_cached (events : list event) (apiClassName : string)
    (restorer : option RestorerFunction) (boundApi : MainApiBinding) :
  let r := run initial events in
  entries (_boundMainApis r) !! apiClassName = Some boundApi →
  (let '(p, r') := bindMainApi apiClassName restorer r in
   promises r' !! p = Some (Resolved (Proxy boundApi)) ∧
   sent r' = sent r ∧
   _boundMainApis r' = _boundMainApis r ∧
   _mainApiMap r' = _mainApiMap r ∧
   timers r' = timers r) ∧
  (no_bind_pending apiClassName r →
   ∀ (later : list event) (restorer' : option RestorerFunction),
     let '(p, r') := bindMainApi apiClassName restorer' (run r later) in
     promises r' !! p = Some (Resolved (Proxy boundApi)) ∧
     sent r' = sent (run r later) ∧
     _boundMainApis r' = _boundMainApis (run r later) ∧
     entries (_boundMainApis r') !! apiClassName = Some boundApi).
Proof.
  intros r Hc. split; [exact (rebind_cached events apiClassName restorer boundApi Hc)|].
  intros Hnone later restorer'.
  pose proof (bound_stays later r _ _ Hc Hnone) as Hstays.
  pose proof (rebind_cached (events ++ later) apiClassName restorer' boundApi) as Hre.
  cbv zeta in Hre. rewrite run_app in Hre. fold r in Hre. specialize (Hre Hstays).
  destruct (bindMainApi apiClassName restorer' (run r later)) as [p r'].
  destruct Hre as (Hp & Hs & Hb & _).
  split; [exact Hp|]. split; [exact Hs|]. split; [exact Hb|].
  rewrite Hb. exact Hstays.
Qed.




End Binding.

Section BindingFacts.
Import JS SharedLib WindowLib.


(** C8 as stated fails: two binds for "Api" are waiting when the registry
    entry arrives; the first succeeds and caches its proxy, and a later
    call, made once the second has succeeded too, is resolved with the
    proxy of the second, which has replaced the first in the cache. *)
Lemma C8_pending_bind_replaces_cached :
  let r := run (H := sample_host) initial
             [CallBindMainApi "Api" None; CallBindMainApi "Api" None;
              ReceiveApiResponse Api_registration; TimerFires] in
  let first := new_proxy 2 "Api" ["ping"] None in
  let second := new_proxy 3 "Api" ["ping"] None in
  promises r !! 0%nat = Some (Resolved (Proxy first)) ∧
  entries (_boundMainApis r) !! "Api" = Some first ∧
  (let '(p, r') := bindMainApi (H := sample_host) "Api" None
                     (run (H := sample_host) r [TimerFires]) in
   promises r' !! p = Some (Resolved (Proxy second)) ∧
   entries (_boundMainApis r') !! "Api" = Some second) ∧
  first ≠ second.
Proof.
  cbv zeta. split; [vm_compute; reflexivity|]. split; [vm_compute; reflexivity|].
  split; [vm_compute; split; reflexivity | discriminate].
Qed.

(* The same, event by event: the first check is made by bindMainApi itself,
   and the error, whose message names the API, is thrown when the timer
   fires for the eightieth time. *)
Example bind_times_out_after_default :
  uncaught (run (H := sample_host) initial
              (CallBindMainApi "Api" None :: replicate 79 TimerFires)) = [] ∧
  uncaught (run (H := sample_host) initial
              (CallBindMainApi "Api" None :: replicate 80 TimerFires))
  = [TimeoutError "Timed out waiting to bind main API 'Api'"].
Proof. split; vm_compute; reflexivity. Qed.

(* A timeout set while the bind is in progress is the one its next check
   uses. *)
Example bind_times_out_after_new_timeout :
  uncaught (run (H := sample_host) initial
              [CallBindMainApi "Api" None; CallSetIpcBindingTimeout 100;
               TimerFires]) = [] ∧
  uncaught (run (H := sample_host) initial
              [CallBindMainApi "Api" None; CallSetIpcBindingTimeout 100;
               TimerFires; TimerFires])
  = [TimeoutError "Timed out waiting to bind main API 'Api'"].
Proof. split; vm_compute; reflexivity. Qed.

(* A bind for the name of a member every object inherits is resolved at
   once with that member: no request is sent and no proxy built. *)
Example bind_of_inherited_name :
  let '(p, r) := bindMainApi (H := sample_host) "toString" None initial in
  promises r !! p = Some (Resolved (Member "toString")) ∧
  sent r = [] ∧ timers r = [].
Proof. vm_compute. repeat split. Qed.
End BindingFacts.

Lemma C8_witness :
  let r := WindowLib.run (H := sample_host) WindowLib.initial
             [WindowLib.CallBindMainApi "Api" None;
              WindowLib.ReceiveApiResponse Api_registration;
              WindowLib.TimerFires] in
  let later := [WindowLib.CallBindMainApi "Api" None;
                WindowLib.CallBindMainApi "Other" None;
                WindowLib.TimerFires] in
  let proxy := new_proxy 1 "Api" ["ping"] None in
  (JS.entries (WindowLib._boundMainApis r) !! "Api" = Some proxy ∧
   no_bind_pending "Api" r) ∧
  (let '(p, r') := WindowLib.bindMainApi (H := sample_host) "Api" None r in
   WindowLib.promises r' !! p = Some (WindowLib.Resolved (WindowLib.Proxy proxy)) ∧
   WindowLib.sent r' = WindowLib.sent r ∧
   WindowLib._boundMainApis r' = WindowLib._boundMainApis r ∧
   WindowLib._mainApiMap r' = WindowLib._mainApiMap r ∧
   WindowLib.timers r' = WindowLib.timers r) ∧
  (let '(p, r') := WindowLib.bindMainApi (H := sample_host) "Api" None
                     (WindowLib.run (H := sample_host) r later) in
   WindowLib.promises r' !! p = Some (WindowLib.Resolved (WindowLib.Proxy proxy)) ∧
   WindowLib.sent r' = WindowLib.sent (WindowLib.run (H := sample_host) r later) ∧
   WindowLib._boundMainApis r'
   = WindowLib._boundMainApis (WindowLib.run (H := sample_host) r later) ∧
   JS.entries (WindowLib._boundMainApis r') !! "Api" = Some proxy).
Proof.
  cbv zeta.
  assert (Hcached :
    JS.entries
      (WindowLib._boundMainApis
         (WindowLib.run (H := sample_host) WindowLib.initial
            [WindowLib.CallBindMainApi "Api" None;
             WindowLib.ReceiveApiResponse Api_registration;
             WindowLib.TimerFires])) !! "Api"
    = Some (new_proxy 1 "Api" ["ping"] None))
    by (vm_compute; reflexivity).
  assert (Hnone :
    no_bind_pending "Api"
      (WindowLib.run (H := sample_host) WindowLib.initial
         [WindowLib.CallBindMainApi "Api" None;
          WindowLib.ReceiveApiResponse Api_registration;
          WindowLib.TimerFires]))
    by (vm_compute; constructor).
  split; [split; assumption|].
  destruct (C8_rebind_returns_cached (H := sample_host) _ "Api" None _ Hcached)
    as [Hcall Hlater].
  split; [exact Hcall|].
  exact (Hlater Hnone
           [WindowLib.CallBindMainApi "Api" None; WindowLib.CallBindMainApi "Other" None;
            WindowLib.TimerFires] None).
Defined.


(** ** Retries that succeed, binds that time out *)

Section Timeouts.
Import JS SharedLib WindowLib.
Context `{Host}.

(** X13.  When the binding timeout is zero or less at the time of the call
    and the lookup of the API name finds nothing in the cache and nothing
    in the registry, [bindMainApi] sends its request, sets no timer and
    returns a promise that is rejected with the timeout message naming the
    API. *)
Theorem bind_rejects_when_timeout_reached_at_once (events : list event)
    (apiClassName : string) (restorer : option RestorerFunction) :
  let r := run initial events in
  cache_lookup r apiClassName = None →
  registry_lookup r apiClassName = NoNames →
  (bindingTimeoutMillis r ≤ 0)%Z →
  let '(p, r') := bindMainApi apiClassName restorer r in
  promises r' !! p = Some (Rejected (TimeoutError (timeoutMessage apiClassName))) ∧
  timers r' = timers r ∧
  uncaught r' = uncaught r ∧
  sent r' = sent r ++ [discovery_request apiClassName].
Proof.
  intros r Hc Hm Ht.
  pose proof (allocated_below_run events initial allocated_below_initial) as [Hp _].
  fold r in Hp.
  pose proof (bindMainApi_cases apiClassName restorer r) as [Hfst Hcases].
  cbv zeta in Hcases.
  rewrite (surjective_pairing (bindMainApi apiClassName restorer r)), Hfst.
  destruct Hcases as [(c & Hc' & _)|[(_ & n & Hm' & _)|[(_ & _ & _ & ->)
                     |[(_ & Hm' & _)|(_ & _ & Ht' & _)]]]];
    [congruence | congruence | | congruence | lia].
  unfold reject. fields.
  destruct (promises r !! nextObject r) eqn:Hn.
  - specialize (Hp (nextObject r) ltac:(eauto)). lia.
  - fields. rewrite lookup_insert_eq. repeat split; reflexivity.
Qed.

(* Timers keep waiting for unsettled promises of their own. *)
Lemma timers_wait_step (r : renderer) (e : event) :
  allocated_below r → timers_wait r → timers_wait (step r e).
Proof.
  intros [Hp Ht] [Hnodup Hwait].
  assert (Hold : ∀ (r' : renderer) (p : nat),
    timers r' = timers r → (nextObject r ≤ p)%nat →
    (∀ q, q ≠ p → promises r' !! q = promises r !! q) →
    timers_wait r').
  { intros r' p Htm Hfresh Hpr. split; rewrite Htm; [exact Hnodup|].
    rewrite Forall_forall in Hwait, Ht. apply Forall_forall. intros t Hin.
    destruct (Hwait t Hin) as [Hnone Hmsg]. specialize (Ht t Hin). cbn in Ht.
    split; [|exact Hmsg]. rewrite Hpr by lia. exact Hnone. }
  destruct e as [name restorer|api|millis| |name|api]; cbn [step].
  - (* bindMainApi *)
    pose proof (bindMainApi_cases name restorer r) as [_ Hcases]. cbv zeta in Hcases.
    destruct Hcases as [(c & _ & ->)|[(_ & n & _ & ->)|[(_ & _ & _ & ->)
                       |[(_ & _ & ->)|(_ & _ & _ & ->)]]]].
    + match goal with |- timers_wait (resolve ?p ?v ?r0) =>
        destruct (resolve_frame p v r0) as (Htm & _) end.
      apply (Hold _ (nextObject r)); [exact Htm | lia |].
      intros q Hq. rewrite resolve_promises by exact Hq. reflexivity.
    + match goal with |- timers_wait (bound_with ?p ?k ?b ?r0) =>
        destruct (bound_with_frame p k b r0) as (Htm & _ & _ & _ & _ & _ & Hothers & _)
      end.
      apply (Hold _ (nextObject r)); [exact Htm | lia |].
      intros q Hq. rewrite Hothers by exact Hq. reflexivity.
    + match goal with |- timers_wait (reject ?p ?m ?r0) =>
        destruct (reject_frame p m r0) as (Htm & _) end.
      apply (Hold _ (nextObject r)); [exact Htm | lia |].
      intros q Hq. rewrite reject_promises by exact Hq. reflexivity.
    + match goal with |- timers_wait (reject ?p ?m ?r0) =>
        destruct (reject_frame p m r0) as (Htm & _) end.
      apply (Hold _ (nextObject r)); [exact Htm | lia |].
      intros q Hq. rewrite reject_promises by exact Hq. reflexivity.
    + fields. split; fields.
      * rewrite fmap_app. apply NoDup_app. split; [exact Hnodup|]. split.
        -- intros q Hq Hq'. cbn in Hq'. apply list_elem_of_singleton in Hq'. subst q.
           apply list_elem_of_fmap in Hq as (t & Heq & Hin).
           rewrite Forall_forall in Ht. specialize (Ht t Hin). cbn in Ht. lia.
        -- apply NoDup_singleton.
      * apply Forall_app. split; [exact Hwait|].
        constructor; [|constructor]. cbn. split; [|reflexivity].
        destruct (promises r !! nextObject r) eqn:Hn; [|reflexivity].
        specialize (Hp (nextObject r) ltac:(eauto)). lia.
  - (* exposeWindowApi *)
    destruct (exposeWindowApi_frame api r) as (Htm & _ & _ & _ & _ & _ & Hpr & _).
    split; rewrite Htm, ?Hpr; assumption.
  - split; fields; assumption.
  - (* a timer fires *)
    destruct (timers r) as [|t pending] eqn:Htimers; [split; rewrite Htimers; assumption|].
    cbn [fmap list_fmap] in Hnodup. apply NoDup_cons in Hnodup as [Hnotin Hnodup].
    apply Forall_cons in Hwait as [[Hnone Hmsg] Hwait].
    destruct (run_timer_cases t (with_timers pending r))
      as [(names & _ & ->)|[(_ & _ & ->)|[(_ & ->)|(_ & _ & elapsed & ->)]]].
    + match goal with |- timers_wait (bound_with ?p ?k ?b ?r0) =>
        destruct (bound_with_frame p k b r0) as (Htm & _ & _ & _ & _ & _ & Hothers & _)
      end.
      split; rewrite Htm; fields; [exact Hnodup|].
      rewrite Forall_forall in Hwait. apply Forall_forall. intros t' Hin.
      destruct (Hwait t' Hin) as [Hnone' Hmsg']. split; [|exact Hmsg'].
      rewrite Hothers; [exact Hnone'|].
      intros Heq. apply Hnotin. apply list_elem_of_fmap. eauto.
    + split; fields; assumption.
    + split; fields; assumption.
    + split; fields.
      * rewrite fmap_app. apply NoDup_app. split; [exact Hnodup|]. split.
        -- intros q Hq Hq'. cbn in Hq'. apply list_elem_of_singleton in Hq'. subst q.
           exact (Hnotin Hq).
        -- apply NoDup_singleton.
      * apply Forall_app. split; [exact Hwait|].
        constructor; [|constructor]. cbn. auto.
  - destruct (_listeningForIPC r); [|split; assumption].
    unfold on_API_REQUEST_IPC. split; fields; assumption.
  - destruct (_listeningForIPC r); [|split; assumption].
    unfold on_API_RESPONSE_IPC. split; fields; assumption.
Qed.

Lemma timers_wait_reachable (events : list event) :
  timers_wait (run initial events).
Proof.
  assert (Hgen : ∀ r, allocated_below r → timers_wait r → timers_wait (run r events)).
  { induction events as [|e events IH]; intros r Ha Hw; [exact Hw|].
    apply IH; [apply allocated_below_step, Ha | apply timers_wait_step; assumption]. }
  apply Hgen; [apply allocated_below_initial|].
  split; [apply NoDup_nil_2 | constructor].
Qed.

(* A promise that no timer retries for is left alone. *)
Lemma abandoned_step (p : nat) (r : renderer) (e : event) :
  abandoned p r → abandoned p (step r e).
Proof.
  intros (Hlt & Hnone & Hnotin).
  destruct e as [name restorer|api|millis| |name|api]; cbn [step].
  - pose proof (bindMainApi_cases name restorer r) as [_ Hcases]. cbv zeta in Hcases.
    destruct Hcases as [(c & _ & ->)|[(_ & n & _ & ->)|[(_ & _ & _ & ->)
                       |[(_ & _ & ->)|(_ & _ & _ & ->)]]]].
    + match goal with |- abandoned p (resolve ?q ?b ?r0) =>
        destruct (resolve_frame q b r0) as (Htm & Hn & _) end.
      split; [rewrite Hn; fields; lia|]. split; [|rewrite Htm; exact Hnotin].
      rewrite resolve_promises by lia. exact Hnone.
    + match goal with |- abandoned p (bound_with ?q ?k ?b ?r0) =>
        destruct (bound_with_frame q k b r0) as (Htm & Hn & _ & _ & _ & _ & Hothers & _)
      end.
      split; [rewrite Hn; fields; lia|]. split; [|rewrite Htm; exact Hnotin].
      rewrite Hothers by lia. exact Hnone.
    + match goal with |- abandoned p (reject ?q ?m ?r0) =>
        destruct (reject_frame q m r0) as (Htm & Hn & _) end.
      split; [rewrite Hn; fields; lia|]. split; [|rewrite Htm; exact Hnotin].
      rewrite reject_promises by lia. exact Hnone.
    + match goal with |- abandoned p (reject ?q ?m ?r0) =>
        destruct (reject_frame q m r0) as (Htm & Hn & _) end.
      split; [rewrite Hn; fields; lia|]. split; [|rewrite Htm; exact Hnotin].
      rewrite reject_promises by lia. exact Hnone.
    + split; fields; [lia|]. split; [exact Hnone|].
      rewrite fmap_app. intros Hin. apply elem_of_app in Hin as [Hin|Hin];
        [exact (Hnotin Hin)|]. cbn in Hin. apply list_elem_of_singleton in Hin. lia.
  - destruct (exposeWindowApi_frame api r) as (Htm & Hn & _ & _ & _ & _ & Hpr & _).
    split; [rewrite Hn; exact Hlt|]. rewrite Hpr, Htm. auto.
  - split; fields; auto.
  - destruct (timers r) as [|t pending] eqn:Htimers;
      [split; [exact Hlt|]; split; [exact Hnone | rewrite Htimers; exact Hnotin]|].
    cbn [fmap list_fmap] in Hnotin. apply not_elem_of_cons in Hnotin as [Hne Hnotin].
    destruct (run_timer_cases t (with_timers pending r))
      as [(names & _ & ->)|[(_ & _ & ->)|[(_ & ->)|(_ & _ & elapsed & ->)]]].
    + match goal with |- abandoned p (bound_with ?q ?k ?b ?r0) =>
        destruct (bound_with_frame q k b r0) as (Htm & Hn & _ & _ & _ & _ & Hothers & _)
      end.
      split; [rewrite Hn; fields; lia|]. split; [|rewrite Htm; exact Hnotin].
      rewrite Hothers by exact Hne. exact Hnone.
    + split; fields; auto.
    + split; fields; auto.
    + split; fields; [exact Hlt|]. split; [exact Hnone|].
      rewrite fmap_app. intros Hin. apply elem_of_app in Hin as [Hin|Hin];
        [exact (Hnotin Hin)|]. cbn in Hin. apply list_elem_of_singleton in Hin.
      congruence.
  - destruct (_listeningForIPC r); [|split; auto].
    unfold on_API_REQUEST_IPC. split; fields; auto.
  - destruct (_listeningForIPC r); [|split; auto].
    unfold on_API_RESPONSE_IPC. split; fields; auto.
Qed.

Lemma abandoned_run (p : nat) (events : list event) :
  ∀ r, abandoned p r → abandoned p (run r events).
Proof.
  induction events as [|e events IH]; intros r Hr; [exact Hr|].
  apply IH, abandoned_step, Hr.
Qed.

(** X14.  A bind that times out on a retry never settles its promise.  When
    the oldest timer fires with its elapsed time at or past the binding
    timeout and the API still unknown, the timeout message naming the API
    is thrown out of the timer callback, and the promise [bindMainApi]
    returned is neither resolved nor rejected, then or at any later time. *)
Theorem bind_timeout_on_retry_leaves_promise_unsettled (events : list event)
    (t : timer) (pending : list timer) :
  let r := run initial events in
  timers r = t :: pending →
  registry_lookup r (timer_apiClassName t) = NoNames →
  (bindingTimeoutMillis r ≤ timer_elapsedMillis t)%Z →
  let r' := step r TimerFires in
  uncaught r' = uncaught r ++ [TimeoutError (timeoutMessage (timer_apiClassName t))] ∧
  timers r' = pending ∧
  ∀ later, promises (run r' later) !! timer_resolve t = None.
Proof.
  intros r Htimers Hm Ht r'.
  pose proof (allocated_below_run events initial allocated_below_initial) as [_ Hbelow].
  pose proof (timers_wait_reachable events) as [Hnodup Hwait].
  fold r in Hbelow, Hnodup, Hwait. rewrite Htimers in Hbelow, Hnodup, Hwait.
  apply Forall_cons in Hbelow as [Hlt _].
  cbn [fmap list_fmap] in Hnodup. apply NoDup_cons in Hnodup as [Hnotin _].
  apply Forall_cons in Hwait as [[Hnone Hmsg] _].
  assert (Hr' : r' = with_uncaught
                       (uncaught r ++ [TimeoutError (timeoutMessage (timer_apiClassName t))])
                       (with_timers pending r)).
  { subst r'. cbn [step]. rewrite Htimers, <- Hmsg.
    destruct (run_timer_cases t (with_timers pending r))
      as [(names & Hr & _)|[(_ & _ & ->)|[(Hr & _)|(_ & Hlow & _)]]];
      try (rewrite (registry_lookup_eq r) in Hr by reflexivity; congruence);
      [reflexivity|].
    exfalso. revert Hlow. fields. lia. }
  rewrite Hr'. fields. split; [reflexivity|]. split; [reflexivity|].
  intros later. apply abandoned_run. split; fields; auto.
Qed.

(* The cache holds, under each name, a proxy of that API. *)
Lemma cache_named_step (r : renderer) (e : event) :
  cache_named r → cache_named (step r e).
Proof.
  intros Hcache.
  assert (Hins : ∀ name methodNames restorer id (r0 : renderer) p,
    _boundMainApis r0 = _boundMainApis r →
    cache_named (bound_with p name (new_proxy id name methodNames restorer) r0)).
  { intros name names restorer id r0 p Heq k b'.
    match goal with |- context [bound_with p name ?b r0] =>
      destruct (bound_with_frame p name b r0) as (_ & _ & _ & _ & _ & -> & _) end.
    rewrite Heq.
    destruct (decide (k = name)) as [->|Hne].
    - unfold dict_set. destruct (String.eqb name "__proto__"); cbn [entries].
      + apply Hcache.
      + rewrite lookup_insert_eq. intros [= <-]. reflexivity.
    - rewrite dict_set_entries_ne by exact Hne. apply Hcache. }
  destruct e as [name restorer|api|millis| |name|api]; cbn [step].
  - pose proof (bindMainApi_cases name restorer r) as [_ Hcases]. cbv zeta in Hcases.
    destruct Hcases as [(c & _ & ->)|[(_ & n & _ & ->)|[(_ & _ & _ & ->)
                       |[(_ & _ & ->)|(_ & _ & _ & ->)]]]].
    + intros k b'.
      match goal with |- context [resolve ?p ?v ?r0] =>
        destruct (resolve_frame p v r0) as (_ & _ & _ & _ & _ & ->) end.
      fields. apply Hcache.
    + apply Hins. reflexivity.
    + intros k b'.
      match goal with |- context [reject ?p ?v ?r0] =>
        destruct (reject_frame p v r0) as (_ & _ & _ & _ & _ & ->) end.
      fields. apply Hcache.
    + intros k b'.
      match goal with |- context [reject ?p ?v ?r0] =>
        destruct (reject_frame p v r0) as (_ & _ & _ & _ & _ & ->) end.
      fields. apply Hcache.
    + intros k b'. fields. apply Hcache.
  - destruct (exposeWindowApi_frame api r) as (_ & _ & _ & _ & _ & Hb & _).
    intros k b'. rewrite Hb. apply Hcache.
  - intros k b'. cbn. apply Hcache.
  - destruct (timers r) as [|t pending] eqn:Htimers; [exact Hcache|].
    destruct (run_timer_cases t (with_timers pending r))
      as [(names & _ & ->)|[(_ & _ & ->)|[(_ & ->)|(_ & _ & elapsed & ->)]]].
    + apply Hins. reflexivity.
    + intros k b'. fields. apply Hcache.
    + intros k b'. fields. apply Hcache.
    + intros k b'. fields. apply Hcache.
  - destruct (_listeningForIPC r); [|exact Hcache].
    unfold on_API_REQUEST_IPC. intros k b'. fields. apply Hcache.
  - destruct (_listeningForIPC r); [|exact Hcache].
    unfold on_API_RESPONSE_IPC. intros k b'. fields. apply Hcache.
Qed.

Lemma cache_named_reachable (events : list event) : cache_named (run initial events).
Proof.
  assert (Hgen : ∀ r, cache_named r → cache_named (run r events)).
  { induction events as [|e events IH]; intros r Hr; [exact Hr|].
    apply IH, cache_named_step, Hr. }
  apply Hgen. intros k b Hk. cbn in Hk. rewrite lookup_empty in Hk. discriminate.
Qed.

(* What the cache holds under a name goes with that name. *)
Lemma cache_lookup_name (r : renderer) (apiClassName : string) (cached : bound) :
  cache_named r → cache_lookup r apiClassName = Some cached →
  bound_name cached = apiClassName.
Proof.
  intros Hcache. unfold cache_lookup, dict_get.
  destruct (entries (_boundMainApis r) !! apiClassName) as [b|] eqn:Hb.
  - intros [= <-]. apply Hcache. exact Hb.
  - destruct (replaced (_boundMainApis r)) as [proto|].
    + destruct (cache_through proto apiClassName); [|discriminate].
      intros [= <-]. reflexivity.
    + destruct (inherits apiClassName); [|discriminate]. intros [= <-]. reflexivity.
Qed.

(* A promise stays with the API it was returned for. *)
Lemma bound_for_step (p : nat) (apiClassName : string) (r : renderer) (e : event) :
  bound_for p apiClassName r → bound_for p apiClassName (step r e).
Proof.
  intros [Hlt Hp].
  destruct e as [name restorer|api|millis| |name|api]; cbn [step].
  - pose proof (bindMainApi_cases name restorer r) as [_ Hcases]. cbv zeta in Hcases.
    destruct Hcases as [(c & _ & ->)|[(_ & n & _ & ->)|[(_ & _ & _ & ->)
                       |[(_ & _ & ->)|(_ & _ & _ & ->)]]]].
    + match goal with |- bound_for p _ (resolve ?q ?b ?r0) =>
        destruct (resolve_frame q b r0) as (Htm & Hn & _) end.
      split; [rewrite Hn; fields; lia|]. rewrite resolve_promises by lia.
      rewrite Htm. exact Hp.
    + match goal with |- bound_for p _ (bound_with ?q ?k ?b ?r0) =>
        destruct (bound_with_frame q k b r0) as (Htm & Hn & _ & _ & _ & _ & Hothers & _)
      end.
      split; [rewrite Hn; fields; lia|]. rewrite Hothers by lia.
      rewrite Htm. exact Hp.
    + match goal with |- bound_for p _ (reject ?q ?m ?r0) =>
        destruct (reject_frame q m r0) as (Htm & Hn & _) end.
      split; [rewrite Hn; fields; lia|]. rewrite reject_promises by lia.
      rewrite Htm. exact Hp.
    + match goal with |- bound_for p _ (reject ?q ?m ?r0) =>
        destruct (reject_frame q m r0) as (Htm & Hn & _) end.
      split; [rewrite Hn; fields; lia|]. rewrite reject_promises by lia.
      rewrite Htm. exact Hp.
    + split; fields; [lia|].
      destruct (promises r !! p) as [[b|m]|]; [exact Hp..|].
      apply Forall_app. split; [exact Hp|].
      constructor; [|constructor]. cbn. intros Heq. lia.
  - destruct (exposeWindowApi_frame api r) as (Htm & Hn & _ & _ & _ & _ & Hpr & _).
    split; [rewrite Hn; exact Hlt|]. rewrite Hpr, Htm. exact Hp.
  - split; fields; assumption.
  - destruct (timers r) as [|t pending] eqn:Htimers; [split; [|rewrite Htimers]; assumption|].
    assert (Hpending : promises r !! p = None →
              (timer_resolve t = p → timer_apiClassName t = apiClassName) ∧
              Forall (λ t, timer_resolve t = p → timer_apiClassName t = apiClassName)
                pending).
    { intros Hnone. rewrite Hnone in Hp. apply Forall_cons in Hp. exact Hp. }
    destruct (run_timer_cases t (with_timers pending r))
      as [(names & _ & ->)|[(_ & _ & ->)|[(_ & ->)|(_ & _ & elapsed & ->)]]].
    + match goal with |- bound_for p _ (bound_with ?q ?k ?b ?r0) =>
        destruct (bound_with_frame q k b r0)
          as (Htm & Hn & _ & _ & _ & _ & Hothers & Hown) end.
      split; [rewrite Hn; fields; lia|]. rewrite Htm. fields.
      destruct (decide (timer_resolve t = p)) as [Heq|Hne].
      * subst p. rewrite Hown. fields.
        destruct (promises r !! timer_resolve t) as [[b'|m]|] eqn:Hpp;
          [exact Hp | exact I |].
        destruct (Hpending eq_refl) as [Hname _]. apply Hname. reflexivity.
      * rewrite Hothers by congruence. fields.
        destruct (promises r !! p) as [[b'|m]|] eqn:Hpp; [exact Hp | exact I |].
        apply (Hpending eq_refl).
    + split; fields; [exact Hlt|].
      destruct (promises r !! p) as [[b'|m]|] eqn:Hpp; [exact Hp | exact I |].
      apply (Hpending eq_refl).
    + split; fields; [exact Hlt|].
      destruct (promises r !! p) as [[b'|m]|] eqn:Hpp; [exact Hp | exact I |].
      apply (Hpending eq_refl).
    + split; fields; [exact Hlt|].
      destruct (promises r !! p) as [[b'|m]|] eqn:Hpp; [exact Hp | exact I |].
      destruct (Hpending eq_refl) as [Hname Hrest].
      apply Forall_app. split; [exact Hrest|]. constructor; [exact Hname | constructor].
  - destruct (_listeningForIPC r); [|split; assumption].
    unfold on_API_REQUEST_IPC. split; fields; assumption.
  - destruct (_listeningForIPC r); [|split; assumption].
    unfold on_API_RESPONSE_IPC. split; fields; assumption.
Qed.

Lemma bound_for_run (p : nat) (apiClassName : string) (events : list event) :
  ∀ r, bound_for p apiClassName r → bound_for p apiClassName (run r events).
Proof.
  induction events as [|e events IH]; intros r Hr; [exact Hr|].
  apply IH, bound_for_step, Hr.
Qed.

(** X15.  A promise returned by [bindMainApi] is never resolved with what
    belongs to another name: whatever the state the renderer had reached
    and whatever happens after the call, if the promise is resolved with a
    proxy, then with a proxy of the API named in the call, and if with
    anything else the cache holds, then with what the cache holds under
    that very name. *)
Theorem bind_resolves_to_its_own_api (events later : list event)
    (apiClassName : string) (restorer : option RestorerFunction) (v : bound) :
  let r := run initial events in
  promises (run (bindMainApi apiClassName restorer r).2 later)
    !! (bindMainApi apiClassName restorer r).1 = Some (Resolved v) →
  bound_name v = apiClassName.
Proof.
  intros r Hres.
  pose proof (allocated_below_run events initial allocated_below_initial) as [Hp Ht].
  pose proof (cache_named_reachable events) as Hcache. fold r in Hp, Ht, Hcache.
  assert (Hfresh : promises r !! nextObject r = None).
  { destruct (promises r !! nextObject r) eqn:Hn; [|reflexivity].
    specialize (Hp (nextObject r) ltac:(eauto)). lia. }
  pose proof (bindMainApi_cases apiClassName restorer r) as [Hfst Hcases].
  cbv zeta in Hcases. rewrite Hfst in Hres.
  assert (Hbound : bound_for (nextObject r) apiClassName
                     (bindMainApi apiClassName restorer r).2).
  { destruct Hcases as [(c & Hc & ->)|[(_ & n & _ & ->)|[(_ & _ & _ & ->)
                       |[(_ & _ & ->)|(_ & _ & _ & ->)]]]].
    - match goal with |- bound_for _ _ (resolve ?q ?b ?r0) =>
        destruct (resolve_frame q b r0) as (_ & Hn & _) end.
      split; [rewrite Hn; fields; lia|]. rewrite resolve_own. fields. rewrite Hfresh.
      exact (cache_lookup_name r _ _ Hcache Hc).
    - match goal with |- bound_for _ _ (bound_with ?q ?k ?b ?r0) =>
        destruct (bound_with_frame q k b r0) as (_ & Hn & _ & _ & _ & _ & _ & Hown) end.
      split; [rewrite Hn; fields; lia|]. rewrite Hown. fields. rewrite Hfresh.
      reflexivity.
    - match goal with |- bound_for _ _ (reject ?q ?m ?r0) =>
        destruct (reject_frame q m r0) as (_ & Hn & _) end.
      split; [rewrite Hn; fields; lia|]. rewrite reject_own. fields. rewrite Hfresh.
      exact I.
    - match goal with |- bound_for _ _ (reject ?q ?m ?r0) =>
        destruct (reject_frame q m r0) as (_ & Hn & _) end.
      split; [rewrite Hn; fields; lia|]. rewrite reject_own. fields. rewrite Hfresh.
      exact I.
    - split; fields; [lia|]. rewrite Hfresh.
      apply Forall_app. split.
      + eapply Forall_impl; [exact Ht|]. cbn. intros t Hlt Heq. lia.
      + constructor; [|constructor]. cbn. reflexivity. }
  destruct (bound_for_run _ _ later _ Hbound) as [_ Hfinal].
  rewrite Hres in Hfinal. exact Hfinal.
Qed.

(* The requests a step adds. *)
Lemma requests_sent_step (r : renderer) (e : event) :
  (length (requests_sent (step r e))
   ≤ length (requests_sent r) + (if is_bind e then 1 else 0))%nat.
Proof.
  unfold requests_sent.
  assert (Hsend : ∀ (r0 : renderer) m,
    (length (filter (λ m, m.1 = API_REQUEST_IPC) (sent r0 ++ [m]))
     ≤ length (filter (λ m, m.1 = API_REQUEST_IPC) (sent r0)) + 1)%nat).
  { intros r0 m. rewrite filter_app, length_app.
    pose proof (length_filter (λ m, m.1 = API_REQUEST_IPC) [m]). cbn [length] in *. lia. }
  destruct e as [name restorer|api|millis| |name|api]; cbn [step is_bind].
  - pose proof (bindMainApi_cases name restorer r) as [_ Hcases]. cbv zeta in Hcases.
    destruct Hcases as [(c & _ & ->)|[(_ & n & _ & ->)|[(_ & _ & _ & ->)
                       |[(_ & _ & ->)|(_ & _ & _ & ->)]]]].
    + match goal with |- context [resolve ?q ?b ?r0] =>
        destruct (resolve_frame q b r0) as (_ & _ & -> & _) end. fields. lia.
    + match goal with |- context [bound_with ?q ?k ?b ?r0] =>
        destruct (bound_with_frame q k b r0) as (_ & _ & -> & _) end. fields.
      apply (Hsend r).
    + match goal with |- context [reject ?q ?m ?r0] =>
        destruct (reject_frame q m r0) as (_ & _ & -> & _) end. fields.
      apply (Hsend r).
    + match goal with |- context [reject ?q ?m ?r0] =>
        destruct (reject_frame q m r0) as (_ & _ & -> & _) end. fields.
      apply (Hsend r).
    + fields. apply (Hsend r).
  - destruct (exposeWindowApi_frame api r) as (_ & _ & -> & _). lia.
  - cbn. lia.
  - destruct (timers r) as [|t pending] eqn:Htimers; [lia|].
    destruct (run_timer_frame t (with_timers pending r)) as (_ & -> & _). fields. lia.
  - destruct (_listeningForIPC r); [|lia].
    unfold on_API_REQUEST_IPC. fields. rewrite filter_app, length_app.
    rewrite filter_cons_False by discriminate. cbn. lia.
  - destruct (_listeningForIPC r); [|lia]. unfold on_API_RESPONSE_IPC. fields. lia.
Qed.

(** X16.  Retries never repeat the request: whatever happens in the renderer,
    the discovery requests it has sent number at most the calls of
    [bindMainApi] made; no timer, no exposed window API and no message
    received adds one. *)
Theorem one_request_per_bind_at_most (events : list event) :
  (length (requests_sent (run initial events)) ≤ length (filter is_bind events))%nat.
Proof.
  assert (Hgen : ∀ r,
    (length (requests_sent (run r events))
     ≤ length (requests_sent r) + length (filter is_bind events))%nat).
  { induction events as [|e events IH]; intros r; [cbn; lia|].
    cbn [run foldl]. fold (run (step r e) events).
    specialize (IH (step r e)). pose proof (requests_sent_step r e) as Hstep.
    rewrite filter_cons. destruct (decide (is_bind e)) as [He|He].
    - cbn [length]. destruct (is_bind e); lia.
    - destruct (is_bind e); [exfalso; apply He; exact I|]. lia. }
  specialize (Hgen initial). cbn in Hgen. exact Hgen.
Qed.
End Timeouts.

Lemma bind_rejects_when_timeout_reached_at_once_witness :
  let r := WindowLib.run (H := sample_host) WindowLib.initial
             [WindowLib.CallSetIpcBindingTimeout 0] in
  (WindowLib.cache_lookup (H := sample_host) r "Api" = None ∧
   WindowLib.registry_lookup (H := sample_host) r "Api" = WindowLib.NoNames ∧
   (WindowLib.bindingTimeoutMillis r ≤ 0)%Z) ∧
  let '(p, r') := WindowLib.bindMainApi (H := sample_host) "Api" None r in
  WindowLib.promises r' !! p
  = Some (WindowLib.Rejected
            (WindowLib.TimeoutError "Timed out waiting to bind main API 'Api'")) ∧
  WindowLib.timers r' = WindowLib.timers r ∧
  WindowLib.uncaught r' = WindowLib.uncaught r ∧
  WindowLib.sent r' = WindowLib.sent r ++ [discovery_request "Api"].
Proof.
  cbv zeta. split; [repeat split; vm_compute; discriminate|].
  apply (bind_rejects_when_timeout_reached_at_once (H := sample_host)
           [WindowLib.CallSetIpcBindingTimeout 0] "Api" None);
    [reflexivity | reflexivity | vm_compute; discriminate].
Defined.

Lemma bind_timeout_on_retry_leaves_promise_unsettled_witness :
  let r := WindowLib.run (H := sample_host) WindowLib.initial
             [WindowLib.CallBindMainApi "Api" None;
              WindowLib.CallSetIpcBindingTimeout 50] in
  let t := retry_timer 50 "Api" None 0 in
  (WindowLib.timers r = [t] ∧
   WindowLib.registry_lookup (H := sample_host) r "Api" = WindowLib.NoNames ∧
   (WindowLib.bindingTimeoutMillis r ≤ 50)%Z) ∧
  let r' := WindowLib.step (H := sample_host) r WindowLib.TimerFires in
  WindowLib.uncaught r'
  = [WindowLib.TimeoutError "Timed out waiting to bind main API 'Api'"] ∧
  WindowLib.timers r' = [] ∧
  ∀ later, WindowLib.promises (WindowLib.run (H := sample_host) r' later) !! 0%nat = None.
Proof.
  cbv zeta. split; [repeat split; vm_compute; discriminate|].
  exact (bind_timeout_on_retry_leaves_promise_unsettled (H := sample_host)
           [WindowLib.CallBindMainApi "Api" None; WindowLib.CallSetIpcBindingTimeout 50]
           (retry_timer 50 "Api" None 0)
           [] eq_refl eq_refl ltac:(vm_compute; discriminate)).
Defined.

Lemma bind_resolves_to_its_own_api_witness :
  let r := WindowLib.run (H := sample_host) WindowLib.initial
             [WindowLib.CallBindMainApi "Other" None] in
  let later := [WindowLib.ReceiveApiResponse Api_registration;
                WindowLib.TimerFires; WindowLib.TimerFires] in
  let proxy := new_proxy 2 "Api" ["ping"] None in
  WindowLib.promises
    (WindowLib.run (H := sample_host)
       (WindowLib.bindMainApi (H := sample_host) "Api" None r).2 later)
    !! (WindowLib.bindMainApi (H := sample_host) "Api" None r).1
  = Some (WindowLib.Resolved (WindowLib.Proxy proxy)) ∧
  bound_name (WindowLib.Proxy proxy) = "Api".
Proof.
  cbv zeta.
  assert (Hres :
    WindowLib.promises
      (WindowLib.run (H := sample_host)
         (WindowLib.bindMainApi (H := sample_host) "Api" None
            (WindowLib.run (H := sample_host) WindowLib.initial
               [WindowLib.CallBindMainApi "Other" None])).2
         [WindowLib.ReceiveApiResponse Api_registration;
          WindowLib.TimerFires; WindowLib.TimerFires])
      !! (WindowLib.bindMainApi (H := sample_host) "Api" None
            (WindowLib.run (H := sample_host) WindowLib.initial
               [WindowLib.CallBindMainApi "Other" None])).1
    = Some (WindowLib.Resolved (WindowLib.Proxy (new_proxy 2 "Api" ["ping"] None))))
    by (vm_compute; reflexivity).
  split; [exact Hres|].
  exact (bind_resolves_to_its_own_api (H := sample_host)
           [WindowLib.CallBindMainApi "Other" None] _ "Api" None _ Hres).
Defined.

(** ** restorer.ts *)

Section EipcProperties.
Import JS EipcRestorer.
Context (objectToString : value → string) (capturedStack : string).

Local Abbreviation restoreThrownError := (restoreThrownError objectToString capturedStack).

(** X17.  Whatever arrives and whatever the restorer makes of it, as long
    as it owns no property named __proto__, what [restoreThrownError]
    returns is an Error instance whose name, read from its constructor, is
    readable and whose stack is the synthetic trace built from that name
    and from its message. *)
Theorem restoreThrownError_returns_error (wire err : value)
    (restorer : option RestorerFunction) :
  restores_plain wire restorer →
  restoreThrownError wire restorer = Ok err →
  instanceofError err = true ∧
  ∃ name,
    constructor_name err = Ok name ∧
    Get err "stack"
    = VString (Restorer.syntheticStack (ToString objectToString name)
                 (ToString objectToString (Get err "message"))).
Proof.
  intros _. unfold EipcRestorer.restoreThrownError.
  destruct (deleteProp wire __eipc_thrown) as [w1|]; cbn [mbind result_bind]; [|discriminate].
  destruct (restoreValue w1 restorer) as [w2|]; cbn [mbind result_bind]; [|discriminate].
  assert (Hfin : ∀ c ps,
    cls_isError c = true →
    (name ← constructor_name (VObject c ps);
     Ok (setProp (VObject c ps) "stack"
           (VString (Restorer.syntheticStack (ToString objectToString name)
                       (ToString objectToString (Get (VObject c ps) "message"))))))
    = Ok err →
    instanceofError err = true ∧
    ∃ name,
      constructor_name err = Ok name ∧
      Get err "stack"
      = VString (Restorer.syntheticStack (ToString objectToString name)
                   (ToString objectToString (Get err "message")))).
  { intros c ps Hc.
    destruct (constructor_name (VObject c ps)) as [name|] eqn:Hname;
      cbn [mbind result_bind]; [|discriminate].
    intros [= <-]. cbn [setProp]. split; [exact Hc|]. exists name.
    match goal with |- context [set_prop "stack" ?x ps] => set (stack := x) end.
    split.
    - revert Hname. unfold constructor_name.
      rewrite set_prop_lookup_ne by discriminate. auto.
    - assert (Hmsg : Get (VObject c (set_prop "stack" stack ps)) "message"
                     = Get (VObject c ps) "message").
      { unfold Get, inherited. cbn [own_props instanceofError].
        rewrite set_prop_lookup_ne by discriminate. reflexivity. }
      rewrite Hmsg. unfold Get at 1. cbn [own_props].
      destruct (set_prop_lookup_eq "stack" stack ps) as [fl ->]. reflexivity. }
  destruct (instanceofError w2) eqn:Hie; cbn [negb mbind result_bind].
  - destruct w2 as [| | | | | | c ps |]; try discriminate.
    apply Hfin. exact Hie.
  - destruct (getProp w2 "message") as [message|]; cbn [mbind result_bind]; [|discriminate].
    destruct (deleteProp w2 "message") as [w3|]; cbn [mbind result_bind]; [|discriminate].
    unfold Restorer.newError, Object_assign.
    apply Hfin. reflexivity.
Qed.




(* An object whose own constructor property is null cannot be marked: the
   read of its class name throws. *)
Example makeRestorable_unreadable_constructor :
  makeRestorable (VObject CObject {["constructor" := (true, VNull)]}) = Raise TypeError.
Proof. reflexivity. Qed.
End EipcProperties.

Lemma restoreThrownError_returns_error_witness :
  let wire := VObject CObject
                (<["__eipc_thrown" := (true, VBool true)]>
                   (<["message" := (true, VString "bad creds")]>
                      {["__eipc_class" := (true, VString "AuthError")]})) in
  restores_plain wire None ∧
  ∃ err,
    EipcRestorer.restoreThrownError (λ _, "[object Object]") "at main.js:1" wire None
    = Ok err ∧
    JS.instanceofError err = true ∧
    ∃ name,
      JS.constructor_name err = Ok name ∧
      JS.Get err "stack"
      = VString (Restorer.syntheticStack (JS.ToString (λ _, "[object Object]") name)
                   (JS.ToString (λ _, "[object Object]") (JS.Get err "message"))).
Proof.
  cbv zeta.
  assert (Hplain : restores_plain
                     (VObject CObject
                        (<["__eipc_thrown" := (true, VBool true)]>
                           (<["message" := (true, VString "bad creds")]>
                              {["__eipc_class" := (true, VString "AuthError")]}))) None).
  { intros w1 w2 Hdel Hres. injection Hdel as <-.
    vm_compute in Hres. injection Hres as <-. reflexivity. }
  split; [exact Hplain|].
  destruct (EipcRestorer.restoreThrownError (λ _, "[object Object]") "at main.js:1"
              (VObject CObject
                (<["__eipc_thrown" := (true, VBool true)]>
                   (<["message" := (true, VString "bad creds")]>
                      {["__eipc_class" := (true, VString "AuthError")]}))) None)
    as [err|e] eqn:Hres; [|vm_compute in Hres; discriminate].
  exists err. split; [reflexivity|].
  exact (restoreThrownError_returns_error _ _ _ _ _ Hplain Hres).
Defined.



(** ** The result collector *)

Section Collector.
Import MainUtil.

Lemma verifyAllDone_from_passed (rs : list Result) :
  ∀ n, verifyAllDone_from n rs = Passed tt ↔ Forall (λ r, verified r = true) rs.
Proof.
  induction rs as [|r rs IH]; intros n; cbn [verifyAllDone_from].
  - split; [constructor | reflexivity].
  - destruct (verified r) eqn:Hv; cbn [negb].
    + rewrite IH. split; [intros; constructor; assumption|].
      intros Hall. apply Forall_cons in Hall as [_ Hall]. exact Hall.
    + split; [discriminate|]. intros Hall. apply Forall_cons in Hall as [Hr _]. congruence.
Qed.

Lemma verifyAllDone_from_failed (rs : list Result) :
  ∀ n message,
    verifyAllDone_from n rs = Failed message ↔
    ∃ pre r post,
      rs = pre ++ r :: post ∧ Forall (λ r, verified r = true) pre ∧
      verified r = false ∧
      message = "Failed to verify test #" +:+ pretty (n + S (length pre))%nat +:+ " '"
                +:+ testName r +:+ "'".
Proof.
  induction rs as [|r rs IH]; intros n message; cbn [verifyAllDone_from].
  - split; [discriminate|]. intros (pre & r & post & Heq & _).
    destruct pre; discriminate.
  - destruct (verified r) eqn:Hv; cbn [negb].
    + rewrite IH. split.
      * intros (pre & r' & post & -> & Hpre & Hr' & ->).
        exists (r :: pre), r', post. split; [reflexivity|].
        split; [constructor; assumption|]. split; [exact Hr'|].
        cbn [length]. do 3 f_equal. lia.
      * intros (pre & r' & post & Heq & Hpre & Hr' & ->).
        destruct pre as [|r0 pre]; cbn [app] in Heq; injection Heq as -> ->.
        -- congruence.
        -- apply Forall_cons in Hpre as [_ Hpre].
           exists pre, r', post. split; [reflexivity|]. split; [exact Hpre|].
           split; [exact Hr'|]. cbn [length]. do 3 f_equal. lia.
    + split.
      * intros [= <-]. exists [], r, rs. split; [reflexivity|].
        split; [constructor|]. split; [exact Hv|]. cbn [length]. do 3 f_equal. lia.
      * intros (pre & r' & post & Heq & Hpre & Hr' & ->).
        destruct pre as [|r0 pre]; cbn [app] in Heq; injection Heq as -> ->.
        -- cbn [length]. do 4 f_equal. lia.
        -- apply Forall_cons in Hpre as [Hr0 _]. congruence.
Qed.

(** X20.  [verifyAllDone] passes exactly when every collected result has been
    verified; otherwise it throws the error that names the first result
    not verified and its position, counted from one. *)
Theorem verifyAllDone_reports_first_unverified (c : ResultCollector) :
  (verifyAllDone c = Passed tt ↔ Forall (λ r, verified r = true) (results c)) ∧
  ∀ message,
    verifyAllDone c = Failed message ↔
    ∃ pre r post,
      results c = pre ++ r :: post ∧ Forall (λ r, verified r = true) pre ∧
      verified r = false ∧
      message = "Failed to verify test #" +:+ pretty (S (length pre)) +:+ " '"
                +:+ testName r +:+ "'".
Proof.
  unfold verifyAllDone. split; [apply verifyAllDone_from_passed|].
  intros message. apply (verifyAllDone_from_failed (results c) 0).
Qed.

(* A call that passes has marked the first result of the name, and only it. *)
Lemma verifyTest_from_passed (rs : list Result) (name : string)
    (assertFunc : Result → option string) (rs' : list Result) :
  verifyTest_from rs name assertFunc = Some (Passed rs') →
  ∃ pre r post,
    rs = pre ++ r :: post ∧ rs' = pre ++ set_verified r :: post ∧
    testName r = name ∧ Forall (λ x, testName x ≠ name) pre.
Proof.
  revert rs'. induction rs as [|r rs IH]; intros rs'; cbn [verifyTest_from]; [discriminate|].
  destruct (String.eqb_spec (testName r) name) as [Hname|Hname].
  - destruct (assertFunc r); [discriminate|]. intros [= <-].
    exists [], r, rs. repeat split; [exact Hname | constructor].
  - destruct (verifyTest_from rs name assertFunc) as [[rest'|]|]; try discriminate.
    intros [= <-]. destruct (IH rest' eq_refl) as (pre & r' & post & -> & -> & Hr' & Hpre).
    exists (r :: pre), r', post. repeat split; [exact Hr' | constructor; assumption].
Qed.

(* A result behind another of the same name is out of reach of verifyTest. *)
Lemma verifyTest_keeps_shadowed (c c' : ResultCollector) (name : string)
    (assertFunc : Result → option string) (i j : nat) (first shadowed : Result) :
  verifyTest name assertFunc c = Passed c' →
  (i < j)%nat →
  results c !! i = Some first → results c !! j = Some shadowed →
  testName first = testName shadowed →
  ∃ first', results c' !! i = Some first' ∧ testName first' = testName first ∧
            results c' !! j = Some shadowed.
Proof.
  unfold verifyTest. intros Hcall Hij Hi Hj Hsame.
  destruct (verifyTest_from (results c) name assertFunc) as [[rs'|]|] eqn:Hfrom;
    try discriminate.
  injection Hcall as <-. cbn [results].
  destruct (verifyTest_from_passed _ _ _ _ Hfrom) as (pre & r & post & Heq & -> & Hr & Hpre).
  rewrite Heq in Hi, Hj.
  assert (Hlookup : ∀ k x, k ≠ length pre →
    (pre ++ r :: post) !! k = Some x → (pre ++ set_verified r :: post) !! k = Some x).
  { intros k x Hk Hx. destruct (decide (k < length pre)%nat) as [Hlt|Hge].
    - rewrite lookup_app_l in Hx |- * by exact Hlt. exact Hx.
    - rewrite lookup_app_r in Hx |- * by lia.
      destruct (k - length pre)%nat as [|d] eqn:Hd; [lia|]. exact Hx. }
  assert (Hj' : j ≠ length pre).
  { intros ->. rewrite lookup_app_l in Hi by exact Hij.
    rewrite list_lookup_middle in Hj by reflexivity. injection Hj as <-.
    rewrite Forall_forall in Hpre. apply (Hpre first); [|congruence].
    eapply list_elem_of_lookup_2. exact Hi. }
  destruct (decide (i = length pre)) as [->|Hi'].
  - rewrite list_lookup_middle in Hi by reflexivity. injection Hi as <-.
    exists (set_verified r). rewrite list_lookup_middle by reflexivity.
    split; [reflexivity|]. split; [reflexivity|]. apply Hlookup; assumption.
  - exists first. split; [apply Hlookup; assumption|]. split; [reflexivity|].
    apply Hlookup; assumption.
Qed.

(** X21.  [verifyTest] only ever reaches the first result that bears a name.
    When two collected results bear the same name and the later one is not
    verified, no run of [verifyTest] calls, whatever their names and
    assertions, verifies it, and [verifyAllDone] throws after every such
    run. *)
Theorem verifyTest_never_reaches_shadowed (c : ResultCollector) (i j : nat)
    (first shadowed : Result) (calls : list (string * (Result → option string))) :
  (i < j)%nat →
  results c !! i = Some first → results c !! j = Some shadowed →
  testName first = testName shadowed →
  verified shadowed = false →
  results (verify_calls calls c) !! j = Some shadowed ∧
  ∃ message, verifyAllDone (verify_calls calls c) = Failed message.
Proof.
  intros Hij Hi Hj Hsame Hv.
  assert (Hkept : ∃ first', results (verify_calls calls c) !! i = Some first' ∧
                            testName first' = testName shadowed ∧
                            results (verify_calls calls c) !! j = Some shadowed).
  { unfold verify_calls. revert c first Hi Hj Hsame.
    induction calls as [|[name assertFunc] calls IH]; intros c first Hi Hj Hsame;
      cbn [foldl fst snd]; [eauto|].
    destruct (verifyTest name assertFunc c) as [c'|message] eqn:Hcall; [|eauto].
    destruct (verifyTest_keeps_shadowed c c' name assertFunc i j first shadowed
                Hcall Hij Hi Hj Hsame) as (first' & Hi' & Hname' & Hj').
    apply (IH c' first'); [assumption.. | congruence]. }
  destruct Hkept as (first' & _ & _ & Hj'). split; [exact Hj'|].
  destruct (verifyAllDone (verify_calls calls c)) as [[]|message] eqn:Hdone; [|eauto].
  apply verifyAllDone_from_passed in Hdone. rewrite Forall_forall in Hdone.
  specialize (Hdone shadowed ltac:(eapply list_elem_of_lookup_2; exact Hj')). congruence.
Qed.

(* The chain from its k-th callback on, while nothing is reported. *)
Lemma _waitForResults_idle (seen : list ResultCollector) :
  ∀ k : nat,
    (k < 50)%nat →
    Forall (λ c, abortError c = VNull ∧ _completedAll c = false) seen →
    _waitForResults (Z.of_nat k * COMPLETION_CHECK_INTERVAL_MILLIS) seen
    = if bool_decide (50 ≤ k + length seen)%nat
      then Some (WaitTimedOut "Timed out waiting for results")
      else None.
Proof.
  induction seen as [|c seen IH]; intros k Hk Hidle; cbn [_waitForResults length].
  - rewrite bool_decide_eq_false_2 by lia. reflexivity.
  - apply Forall_cons in Hidle as [[Habort Hdone] Hidle].
    unfold _waitForResults_check. rewrite Habort, Hdone.
    unfold TEST_TIMEOUT_MILLIS, COMPLETION_CHECK_INTERVAL_MILLIS in *.
    destruct (decide (k = 49)) as [->|Hne].
    + rewrite bool_decide_eq_true_2 by lia. rewrite bool_decide_eq_true_2 by lia.
      reflexivity.
    + rewrite bool_decide_eq_false_2 by lia.
      replace (Z.of_nat k * 100 + 100)%Z with (Z.of_nat (S k) * 100)%Z by lia.
      rewrite IH by (assumption || lia).
      replace (S k + length seen)%nat with (k + S (length seen))%nat by lia.
      reflexivity.
Qed.

(** X22.  While no abort and no completion is reported, the promise of
    [waitForResults] stays pending through forty-nine timer callbacks and
    is rejected by the fiftieth, 5000 ms after the call, with the error
    "Timed out waiting for results". *)
Theorem waitForResults_times_out (seen : list ResultCollector) :
  Forall (λ c, abortError c = VNull ∧ _completedAll c = false) seen →
  waitForResults seen
  = if bool_decide (50 ≤ length seen)%nat
    then Some (WaitTimedOut "Timed out waiting for results")
    else None.
Proof.
  intros Hidle. unfold waitForResults.
  exact (_waitForResults_idle seen 0 ltac:(lia) Hidle).
Qed.

(** X23.  The first timer callback, among the first fifty, that finds an abort
    or the completion reported settles the promise of [waitForResults]:
    an abort rejects it with the reported error even when completion has
    been reported too, and completion alone resolves it, even in the
    callback at which the time is up. *)
Theorem waitForResults_first_report (before after : list ResultCollector)
    (c : ResultCollector) :
  Forall (λ c, abortError c = VNull ∧ _completedAll c = false) before →
  (length before < 50)%nat →
  abortError c ≠ VNull ∨ _completedAll c = true →
  waitForResults (before ++ c :: after)
  = Some (match abortError c with
          | VNull => Completed
          | reported => Aborted reported
          end).
Proof.
  intros Hidle Hlen Hnews. unfold waitForResults.
  assert (Hgen : ∀ k : nat,
    (k + length before < 50)%nat →
    _waitForResults (Z.of_nat k * COMPLETION_CHECK_INTERVAL_MILLIS) (before ++ c :: after)
    = Some (match abortError c with
            | VNull => Completed
            | reported => Aborted reported
            end)).
  { induction Hidle as [|b before [Habort Hdone] _ IH]; intros k Hk;
      cbn [app _waitForResults length] in *.
    - unfold _waitForResults_check.
      destruct (abortError c); try reflexivity.
      destruct Hnews as [Hne|Hdone]; [congruence | rewrite Hdone; reflexivity].
    - unfold _waitForResults_check. rewrite Habort, Hdone.
      unfold TEST_TIMEOUT_MILLIS, COMPLETION_CHECK_INTERVAL_MILLIS in *.
      rewrite bool_decide_eq_false_2 by lia.
      replace (Z.of_nat k * 100 + 100)%Z with (Z.of_nat (S k) * 100)%Z by lia.
      apply IH; lia. }
  apply (Hgen 0%nat). lia.
Qed.
End Collector.

Lemma verifyTest_never_reaches_shadowed_witness :
  let named (name : string) : MainUtil.Result :=
    {| MainUtil.testName := name; MainUtil.requestData := VUndefined;
       MainUtil.requestDataTests := "*missing*"; MainUtil.replyData := VString "undefined";
       MainUtil.callbackData := VUndefined; MainUtil.error := VNull;
       MainUtil.verified := false |} in
  let c := {| MainUtil.currentResult := MainUtil.new_Result;
              MainUtil.results := [named "win1 ping"; named "win1 ping"];
              MainUtil.abortError := VNull; MainUtil._completedAll := true |} in
  let calls := [("win1 ping", λ _, None); ("win1 ping", λ _, None)] in
  ((0 < 1)%nat ∧ MainUtil.results c !! 0%nat = Some (named "win1 ping") ∧
   MainUtil.results c !! 1%nat = Some (named "win1 ping") ∧
   MainUtil.verified (named "win1 ping") = false) ∧
  MainUtil.results (verify_calls calls c) !! 1%nat = Some (named "win1 ping") ∧
  ∃ message, MainUtil.verifyAllDone (verify_calls calls c) = Failed message.
Proof.
  cbv zeta. split; [repeat split; lia|].
  eapply (verifyTest_never_reaches_shadowed _ 0 1); [lia | reflexivity..].
Defined.

Lemma waitForResults_times_out_witness :
  Forall (λ c, MainUtil.abortError c = VNull ∧ MainUtil._completedAll c = false)
    (replicate 50 MainUtil.new_ResultCollector) ∧
  MainUtil.waitForResults (replicate 50 MainUtil.new_ResultCollector)
  = Some (MainUtil.WaitTimedOut "Timed out waiting for results") ∧
  MainUtil.waitForResults (replicate 49 MainUtil.new_ResultCollector) = None.
Proof.
  assert (Hidle : ∀ n, Forall (λ c, MainUtil.abortError c = VNull ∧
                                    MainUtil._completedAll c = false)
                         (replicate n MainUtil.new_ResultCollector)).
  { intros n. apply Forall_replicate. split; reflexivity. }
  split; [apply Hidle|]. split.
  - rewrite (waitForResults_times_out _ (Hidle 50%nat)). reflexivity.
  - rewrite (waitForResults_times_out _ (Hidle 49%nat)). reflexivity.
Defined.

Lemma waitForResults_first_report_witness :
  let c := {| MainUtil.currentResult := MainUtil.new_Result; MainUtil.results := [];
              MainUtil.abortError := VString "window crashed";
              MainUtil._completedAll := true |} in
  (Forall (λ c, MainUtil.abortError c = VNull ∧ MainUtil._completedAll c = false)
     [MainUtil.new_ResultCollector] ∧
   (length [MainUtil.new_ResultCollector] < 50)%nat ∧
   (MainUtil.abortError c ≠ VNull ∨ MainUtil._completedAll c = true)) ∧
  MainUtil.waitForResults ([MainUtil.new_ResultCollector] ++ c :: [])
  = Some (MainUtil.Aborted (VString "window crashed")).
Proof.
  cbv zeta.
  assert (Hidle : Forall (λ c, MainUtil.abortError c = VNull ∧
                               MainUtil._completedAll c = false)
                    [MainUtil.new_ResultCollector])
    by (repeat constructor).
  split; [split; [exact Hidle | split; [cbn; lia | right; reflexivity]]|].
  rewrite (waitForResults_first_report [MainUtil.new_ResultCollector] [] _ Hidle);
    [reflexivity | cbn; lia | right; reflexivity].
Defined.
